(** * A shallow embedding of the [collections] and [linq] packages

    The Go code is a library of pull-based sequences.  Every value has the
    erased type [T] (Go's [interface{}]); a [Sequence] hands out [Iterator]s,
    and the LINQ operators are closures over upstream iterators and over
    variables captured when the operator is applied.

    The embedding keeps that shape:
    - a computation is a function of a fuel budget and of the [World] (the
      variables that closures share) and ends in a value, in a panic or out
      of fuel; Go's [for] loops are the [loop] combinator, which is the only
      consumer of fuel;
    - an iterator is the record of its fields; a closure is its code
      together with the type of its captured variables;
    - a Go result pair [(T, bool)] is an [option].

    What is taken from outside the repository: [reflect.MapIter] as Go
    documents it, [sort.Sort] as any strategy over [sort.Interface], and
    [runtime.NumCPU()] as a number.  Items used as map keys ([Distinct],
    [GroupByKV]) are values that Go can hash, with a decidable equality;
    comparators are total and have no effect; a goroutine's action runs
    as one step. *)

From Stdlib Require Import ZArith Lia Permutation Sorted.
From stdpp Require Import gmap strings list fin_maps.

Open Scope Z_scope.

(** ** Computations *)

Section Computations.
Context {T U : Type}.

(** The state shared between closures: [cells] holds the slice variables
    captured by operator applications ([var items []T] in [Cache],
    [Reverse] and [OrderPD]); [None] is the nil slice.  [user] is whatever
    the caller's own closures (selectors, aggregators, actions) mutate. *)
Record World := mkWorld {
  cells : list (option (list T));
  user : U;
}.

Inductive outcome (X : Type) : Type :=
| Ok (x : X) (w : World)
| Panic (e : string) (w : World)
| OutOfFuel.
Global Arguments Ok {X} x w.
Global Arguments Panic {X} e w.
Global Arguments OutOfFuel {X}.

Definition M (X : Type) : Type := nat -> World -> outcome X.

Definition ret {X} (x : X) : M X := fun _ w => Ok x w.

Definition panic {X} (e : string) : M X := fun _ w => Panic e w.

Definition bind {X Y} (m : M X) (f : X -> M Y) : M Y :=
  fun n w =>
    match m n w with
    | Ok x w' => f x n w'
    | Panic e w' => Panic e w'
    | OutOfFuel => OutOfFuel
    end.

(** [for { ... }]: the body either goes round again with new loop
    variables ([inl]) or leaves the loop with a value ([inr]). *)
Fixpoint loop {S X} (body : S -> M (S + X)) (s : S) (n : nat) (w : World)
  : outcome X :=
  match n with
  | O => OutOfFuel
  | Datatypes.S n' =>
      match body s n' w with
      | Ok (inl s') w' => loop body s' n' w'
      | Ok (inr x) w' => Ok x w'
      | Panic e w' => Panic e w'
      | OutOfFuel => OutOfFuel
      end
  end.

(** A computation evaluates to [o] when every large enough fuel budget
    gives [o]. *)
Definition evals {X} (m : M X) (w : World) (o : outcome X) : Prop :=
  exists n0 : nat, forall n : nat, (n0 <= n)%nat -> m n w = o.
End Computations.

Global Arguments World : clear implicits.
Global Arguments outcome : clear implicits.
Global Arguments M : clear implicits.
Global Arguments ret : simpl never.
Global Arguments panic : simpl never.
Global Arguments bind : simpl never.

Declare Scope go_scope.
Delimit Scope go_scope with go.
Notation "'let*' p ':=' m 'in' k" := (bind m (fun p => k))
  (at level 10, p pattern, m at level 100, k at level 200,
   format "'[v' 'let*'  p  :=  m  'in'  '/' k ']'") : go_scope.
Open Scope go_scope.

(** ** Package collections *)

Section Collections.
Context {T U : Type}.
Local Abbreviation M := (M T U).

(** [type Sequence interface { Iterator() Iterator }] and
    [type Iterator interface { Current() T; Next() bool }].  The methods
    of the iterators of one sequence are fixed by the sequence; [ISt] is the
    type of the iterator object's fields. *)
Record Sequence (A : Type) := mkSequence {
  ISt : Type;
  Iterator : M ISt;
  Next : ISt -> M (bool * ISt);
  Current : ISt -> M A;
}.
Global Arguments mkSequence {A ISt} _ _ _.
Global Arguments ISt {A} _.
Global Arguments Iterator {A} _.
Global Arguments Next {A} _ _.
Global Arguments Current {A} _ _.

(** [type SequenceFunc func() IteratorFunc] with
    [type IteratorFunc func() (T, bool)]: [create] is the body of the
    SequenceFunc, which sets up the variables the returned IteratorFunc
    captures ([Env]); [call] is the body of that IteratorFunc. *)
Record SequenceFunc (A : Type) := mkSequenceFunc {
  Env : Type;
  create : M Env;
  call : Env -> M (option A * Env);
}.
Global Arguments mkSequenceFunc {A Env} _ _.
Global Arguments Env {A} _.
Global Arguments create {A} _.
Global Arguments call {A} _ _.

(** [type functionIterator struct { f IteratorFunc; cur T; valid bool }].
    The pair [(cur, valid)] is the option [cur]: [valid] is [is_Some]. *)
Record functionIterator {A} (sf : SequenceFunc A) := mkFunctionIterator {
  f : Env sf;
  cur : option A;
}.
Global Arguments mkFunctionIterator {A sf} _ _.
Global Arguments f {A sf} _.
Global Arguments cur {A sf} _.

Definition valid {A} {sf : SequenceFunc A} (i : functionIterator sf) : bool :=
  match cur i with Some _ => true | None => false end.

Definition functionIterator_Current {A} {sf : SequenceFunc A}
    (i : functionIterator sf) : M A :=
  match cur i with
  | None => panic "Current called outside sequence"
  | Some c => ret c
  end.

Definition functionIterator_Next {A} {sf : SequenceFunc A}
    (i : functionIterator sf) : M (bool * functionIterator sf) :=
  let* (c, f') := call sf (f i) in
  let i' := mkFunctionIterator f' c in
  ret (valid i', i').

(** [func (s functionSequence) Iterator() Iterator { return &functionIterator{f: s.f()} }] *)
Definition functionSequence_Iterator {A} (sf : SequenceFunc A)
    : M (functionIterator sf) :=
  let* f0 := create sf in
  ret (mkFunctionIterator f0 None).

Definition MakeFunctionSequence {A} (sf : SequenceFunc A) : Sequence A :=
  mkSequence (functionSequence_Iterator sf)
             functionIterator_Next functionIterator_Current.

(** [type tIterator struct { array []T; index int }] (zz_generated.T.go);
    the iterators generated for the other element types and
    [genericArrayIterator] have the same two fields and the same methods. *)
Record tIterator (A : Type) := mkTIterator {
  array : list A;
  index : Z;
}.
Global Arguments mkTIterator {A} _ _.
Global Arguments array {A} _.
Global Arguments index {A} _.

(** [a[i]] on a Go slice: a run-time panic outside [0 <= i < len(a)]. *)
Definition slice_index {A} (a : list A) (i : Z) : option A :=
  if (0 <=? i) then a !! Z.to_nat i else None.

Definition tIterator_Current {A} (i : tIterator A) : M A :=
  match slice_index (array i) (index i) with
  | Some x => ret x
  | None => panic "runtime error: index out of range"
  end.

Definition tIterator_Next {A} (i : tIterator A) : M (bool * tIterator A) :=
  let ni := index i + 1 in
  if ni <? Z.of_nat (length (array i))
  then ret (true, mkTIterator (array i) ni)
  else ret (false, i).

(** [func (s TSequence) Iterator() Iterator { return &tIterator{s,-1} }] *)
Definition TSequence {A} (s : list A) : Sequence A :=
  mkSequence (ret (mkTIterator s (-1))) tIterator_Next tIterator_Current.

(** [genericArrayIterator]: [i.array.Index(i.index).Interface()], where
    [reflect.Value.Index] panics when the index is out of range. *)
Definition genericArrayIterator_Current {A} (i : tIterator A) : M A :=
  match slice_index (array i) (index i) with
  | Some x => ret x
  | None => panic "reflect: slice index out of range"
  end.

Definition genericArrayIterator_Next {A} (i : tIterator A)
    : M (bool * tIterator A) :=
  let ni := index i + 1 in
  if ni <? Z.of_nat (length (array i))
  then ret (true, mkTIterator (array i) ni)
  else ret (false, i).

Definition genericArraySequence {A} (s : list A) : Sequence A :=
  mkSequence (ret (mkTIterator s (-1)))
             genericArrayIterator_Next genericArrayIterator_Current.

(** Go's [reflect.MapIter], which [mapIterator] wraps.  It is part of Go's
    standard library; this is its documented behaviour: [Next] reports
    whether there is another entry, and once it has returned false [Key],
    [Value] and [Next] panic; [Key] and [Value] also panic before the
    first [Next].  [MapRange] fixes the order of the entries, which Go
    leaves unspecified. *)
Inductive MapIter (K V : Type) : Type :=
| MapIter_fresh (entries : list (K * V))
| MapIter_at (k : K) (v : V) (rest : list (K * V))
| MapIter_exhausted.
Global Arguments MapIter_fresh {K V} _.
Global Arguments MapIter_at {K V} _ _ _.
Global Arguments MapIter_exhausted {K V}.

Definition MapIter_advance {K V} (entries : list (K * V)) : bool * MapIter K V :=
  match entries with
  | [] => (false, MapIter_exhausted)
  | (k, v) :: rest => (true, MapIter_at k v rest)
  end.

Definition MapIter_Next {K V} (i : MapIter K V) : M (bool * MapIter K V) :=
  match i with
  | MapIter_fresh entries => ret (MapIter_advance entries)
  | MapIter_at _ _ rest => ret (MapIter_advance rest)
  | MapIter_exhausted => panic "MapIter.Next called on exhausted iterator"
  end.

Definition MapIter_Key {K V} (i : MapIter K V) : M K :=
  match i with
  | MapIter_fresh _ => panic "MapIter.Key called before Next"
  | MapIter_at k _ _ => ret k
  | MapIter_exhausted => panic "MapIter.Key called on exhausted iterator"
  end.

Definition MapIter_Value {K V} (i : MapIter K V) : M V :=
  match i with
  | MapIter_fresh _ => panic "MapIter.Value called before Next"
  | MapIter_at _ v _ => ret v
  | MapIter_exhausted => panic "MapIter.Value called on exhausted iterator"
  end.

(** [type Pair struct { Key, Value T }] *)
Record Pair (K V : Type) := mkPair { Key : K; Value : V }.
Global Arguments mkPair {K V} _ _.
Global Arguments Key {K V} _.
Global Arguments Value {K V} _.

(** [func (i mapIterator) Current() T { return Pair{i.i.Key().Interface(), i.i.Value().Interface()} }] *)
Definition mapIterator_Current {K V} (i : MapIter K V) : M (Pair K V) :=
  let* k := MapIter_Key i in
  let* v := MapIter_Value i in
  ret (mkPair k v).

Definition mapIterator_Next {K V} (i : MapIter K V) : M (bool * MapIter K V) :=
  MapIter_Next i.

(** [genericMapSequence]: [Iterator()] is [mapIterator{s.m.MapRange()}]. *)
Definition genericMapSequence `{Countable K} {V} (m : gmap K V)
    : Sequence (Pair K V) :=
  mkSequence (ret (MapIter_fresh (map_to_list m)))
             mapIterator_Next mapIterator_Current.

(** [func ToSlice(s Sequence) []T]:
    [for i := s.Iterator(); i.Next(); { items = append(items, i.Current()) }] *)
Definition ToSlice {A} (s : Sequence A) : M (list A) :=
  let* i := Iterator s in
  loop (fun st : ISt s * list A =>
          let '(i, items) := st in
          let* (more, i') := Next s i in
          if more : bool
          then let* x := Current s i' in ret (inl (i', items ++ [x]))
          else ret (inr items))
       (i, []).
End Collections.

(** ** Package linq: lazy operators *)

Section Linq.
Context {T U : Type} `{Countable T}.
Local Abbreviation M := (M T U).
Local Abbreviation Sequence := (@Sequence T U).
Local Abbreviation SequenceFunc := (@SequenceFunc T U).

(** [type LINQ struct { Sequence }]: a LINQ is its sequence. *)
Definition FromSequenceFunction {A} (sf : SequenceFunc A) : Sequence A :=
  MakeFunctionSequence sf.

(** [func Range2(start, count int) LINQ] *)
Definition Range2 (start count : Z) : Sequence Z :=
  FromSequenceFunction
    (mkSequenceFunc (ret 0)
       (fun n : Z =>
          if n <? count
          then ret (Some (start + n), n + 1)
          else ret (None, n))).

Definition Range (n : Z) : Sequence Z := Range2 0 n.

(** [func (s LINQ) Select(selector Selector) LINQ] *)
Definition Select {A B} (s : Sequence A) (selector : A -> M B) : Sequence B :=
  FromSequenceFunction
    (mkSequenceFunc (Iterator s)
       (fun i : ISt s =>
          let* (more, i') := Next s i in
          if more : bool
          then let* x := Current s i' in
               let* y := selector x in
               ret (Some y, i')
          else ret (None, i'))).

(** [func (s LINQ) ForEach(action Action) LINQ] *)
Definition ForEach {A} (s : Sequence A) (action : A -> M unit) : M (Sequence A) :=
  let* i := Iterator s in
  loop (fun i : ISt s =>
          let* (more, i') := Next s i in
          if more : bool
          then let* x := Current s i' in
               let* _ := action x in
               ret (inl i')
          else ret (inr s))
       i.

(** *** concat.go *)

(** The sequences a [concatSequence] closure can hold an iterator of:
    [seq] itself and then [seqs[0]], [seqs[1]], ... *)
Definition seq_at {A} (seq : Sequence A) (sequences : list (Sequence A))
    (k : nat) : Sequence A :=
  match k with
  | O => seq
  | Datatypes.S j => nth j sequences seq
  end.

(** The variables captured by the closure of [concatSequence]: [iter]
    (nil, or the iterator in use together with the sequence it came from)
    and [index]. *)
Record concatEnv {A} (seq : Sequence A) (sequences : list (Sequence A)) :=
  mkConcatEnv {
    c_iter : option { k : nat & ISt (seq_at seq sequences k) };
    c_index : nat;
  }.
Global Arguments mkConcatEnv {A seq sequences} _ _.
Global Arguments c_iter {A seq sequences} _.
Global Arguments c_index {A seq sequences} _.

(** [if iter.Next() { return iter.Current(), true }; iter = nil] *)
Definition concat_advance {A} {seq : Sequence A} {sequences : list (Sequence A)}
    (k : nat) (i : ISt (seq_at seq sequences k)) (index : nat)
    : M (concatEnv seq sequences + option A * concatEnv seq sequences) :=
  let* (more, i') := Next (seq_at seq sequences k) i in
  if more : bool
  then let* x := Current (seq_at seq sequences k) i' in
       ret (inr (Some x, mkConcatEnv (Some (existT k i')) index))
  else ret (inl (mkConcatEnv None index)).

Definition concat_body {A} {seq : Sequence A} {sequences : list (Sequence A)}
    (env : concatEnv seq sequences)
    : M (concatEnv seq sequences + option A * concatEnv seq sequences) :=
  match c_iter env with
  | None =>
      if (length sequences <=? c_index env)%nat
      then ret (inr (None, env))
      else let* i := Iterator (seq_at seq sequences (Datatypes.S (c_index env))) in
           concat_advance (Datatypes.S (c_index env)) i (Datatypes.S (c_index env))
  | Some (existT k i) => concat_advance k i (c_index env)
  end.

(** [func concatSequence(seq Sequence, sequences []Sequence) Sequence] *)
Definition concatSequence {A} (seq : Sequence A) (sequences : list (Sequence A))
    : Sequence A :=
  MakeFunctionSequence
    (mkSequenceFunc
       (let* i := Iterator seq in
        ret (@mkConcatEnv A seq sequences (Some (existT O i)) O))
       (fun env => loop concat_body env)).

(** [func (s LINQ) Concat(sequences ...Sequence) LINQ] *)
Definition Concat {A} (s : Sequence A) (sequences : list (Sequence A))
    : Sequence A :=
  if negb (length sequences =? 0)%nat
  then concatSequence s sequences
  else s.

(** *** set.go *)

(** [type set map[T]T]: only the keys are ever used. *)
Definition set := gset T.

Definition contains (s : set) (key : T) : bool := bool_decide (key ∈ s).

(** [tryAdd] returns [!exists] and the map after [s[key] = nil]. *)
Definition tryAdd (s : set) (key : T) : bool * set :=
  let exists_ := bool_decide (key ∈ s) in
  (negb exists_, if exists_ then s else {[key]} ∪ s).

Record distinctEnv (s : Sequence T) := mkDistinctEnv {
  d_iter : ISt s;
  d_set : set;
}.
Global Arguments mkDistinctEnv {s} _ _.
Global Arguments d_iter {s} _.
Global Arguments d_set {s} _.

Definition distinct_body {s : Sequence T} (env : distinctEnv s)
    : M (distinctEnv s + option T * distinctEnv s) :=
  let* (more, i') := Next s (d_iter env) in
  if negb more
  then ret (inr (None, mkDistinctEnv i' (d_set env)))
  else let* item := Current s i' in
       let (added, set') := tryAdd (d_set env) item in
       if added : bool
       then ret (inr (Some item, mkDistinctEnv i' set'))
       else ret (inl (mkDistinctEnv i' set')).

(** [func (s LINQ) Distinct() LINQ] *)
Definition Distinct (s : Sequence T) : Sequence T :=
  FromSequenceFunction
    (mkSequenceFunc
       (let* i := Iterator s in ret (mkDistinctEnv i (∅ : set)))
       (fun env => loop distinct_body env)).

(** [func (s LINQ) Union(sequences ...Sequence) LINQ] *)
Definition Union (s : Sequence T) (sequences : list (Sequence T)) : Sequence T :=
  if negb (length sequences =? 0)%nat
  then Distinct (Concat s sequences)
  else s.
End Linq.

(** ** Go's sort package, as far as [OrderPD] uses it *)

(** [sort.Interface].  [Less] and [Swap] index a slice, so they fail
    ([None], a run-time panic in Go) on an index out of range. *)
Class sort_Interface (D : Type) := {
  Len : D -> nat;
  Less : D -> nat -> nat -> option bool;
  Swap : D -> nat -> nat -> option D;
}.

(** [sort.Sort(data)] only touches [data] through the three methods: "it
    makes one call to data.Len to determine n and O(n*log(n)) calls to
    data.Less and data.Swap".  Whatever algorithm a Go release uses is
    therefore a strategy that, knowing [n], asks [Less] questions and issues
    [Swap]s. *)
Inductive sorter : Type :=
| sort_done
| sort_less (i j : nat) (k : bool -> sorter)
| sort_swap (i j : nat) (k : sorter).

Fixpoint run_sorter {D} `{sort_Interface D} (p : sorter) (d : D) : option D :=
  match p with
  | sort_done => Some d
  | sort_less i j k =>
      match Less d i j with
      | Some b => run_sorter (k b) d
      | None => None
      end
  | sort_swap i j k =>
      match Swap d i j with
      | Some d' => run_sorter k d'
      | None => None
      end
  end.

(** [sort.Reverse(data)]: the same data with [Less(i, j)] answered by
    [data.Less(j, i)]. *)
Record sort_reverse (D : Type) := mkReverse { reverse_Interface : D }.
Arguments mkReverse {D} _.
Arguments reverse_Interface {D} _.

#[export] Instance sort_reverse_Interface {D} `{sort_Interface D}
    : sort_Interface (sort_reverse D) := {
  Len r := Len (reverse_Interface r);
  Less r i j := Less (reverse_Interface r) j i;
  Swap r i j := mkReverse <$> Swap (reverse_Interface r) i j;
}.

(** ** Package linq: operators that buffer *)

Section Materializing.
Context {T U : Type} `{Countable T}.
Local Abbreviation M := (M T U).
Local Abbreviation Sequence := (@Sequence T U).

(** The strategy of Go's [sort.Sort] for a slice of [n] items, and the
    comparison [GenericLessThan] that stands in for a nil comparator. *)
Variable sort_Sort : nat -> sorter.
Variable GenericLessThan : T -> T -> bool.

(** [var items []T]: a new captured variable, nil at first. *)
Definition newSlice : M nat :=
  fun _ w => Ok (length (cells w)) (mkWorld (cells w ++ [None]) (user w)).

Definition readSlice (items : nat) : M (option (list T)) :=
  fun _ w => Ok (default None (cells w !! items)) w.

Definition writeSlice (items : nat) (v : list T) : M unit :=
  fun _ w => Ok tt (mkWorld (<[items := Some v]> (cells w)) (user w)).

(** [if index < len(items) { item := items[index]; index++; return item, true }
     return nil, false] *)
Definition replay (items : list T) (index : nat) : M (option T * nat) :=
  match items !! index with
  | Some item => ret (Some item, Datatypes.S index)
  | None => ret (None, index)
  end.

(** [func (s LINQ) Cache() LINQ]; [items] is the captured variable. *)
Definition Cache_func (items : nat) (s : Sequence T) : SequenceFunc T :=
  mkSequenceFunc (ret O)
    (fun index : nat =>
       let* buf := readSlice items in
       let* buf :=
         match buf with
         | None => let* v := ToSlice s in
                   let* _ := writeSlice items v in
                   ret v
         | Some v => ret v
         end in
       replay buf index).

Definition Cache (s : Sequence T) : M (Sequence T) :=
  let* items := newSlice in
  ret (FromSequenceFunction (Cache_func items s)).

(** [items[i], items[j] = items[j], items[i]] *)
Definition swap_items (items : list T) (i j : nat) : option (list T) :=
  match items !! i, items !! j with
  | Some a, Some b => Some (<[i := b]> (<[j := a]> items))
  | _, _ => None
  end.

(** [for i, e, mid := 0, len(items)-1, len(items)/2; i < mid; i++ {
      items[i], items[e-i] = items[e-i], items[i] }] *)
Fixpoint reverse_loop (items : list T) (i : nat) (e mid : nat) (n : nat)
    : option (list T) :=
  match n with
  | O => Some items
  | Datatypes.S n' =>
      if (i <? mid)%nat
      then match swap_items items i (e - i) with
           | Some items' => reverse_loop items' (Datatypes.S i) e mid n'
           | None => None
           end
      else Some items
  end.

Definition reverse_items (items : list T) : option (list T) :=
  reverse_loop items O (length items - 1) (length items / 2) (length items).

(** [func (s LINQ) Reverse() LINQ] *)
Definition Reverse_func (items : nat) (s : Sequence T) : SequenceFunc T :=
  mkSequenceFunc (ret O)
    (fun index : nat =>
       let* buf := readSlice items in
       let* buf :=
         match buf with
         | None => let* v := ToSlice s in
                   let* _ := writeSlice items v in
                   match reverse_items v with
                   | Some v' => let* _ := writeSlice items v' in ret v'
                   | None => panic "runtime error: index out of range"
                   end
         | Some v => ret v
         end in
       replay buf index).

Definition Reverse (s : Sequence T) : M (Sequence T) :=
  let* items := newSlice in
  ret (FromSequenceFunction (Reverse_func items s)).

(** [type orderData struct { cmp LessThanFunc; items []T }] and its
    [Len], [Less] and [Swap]. *)
Record orderData := mkOrderData {
  cmp : T -> T -> bool;
  items : list T;
}.

#[export] Instance orderData_Interface : sort_Interface orderData := {
  Len d := length (items d);
  Less d ai bi :=
    match items d !! ai, items d !! bi with
    | Some a, Some b => Some (cmp d a b)
    | _, _ => None
    end;
  Swap d ai bi := mkOrderData (cmp d) <$> swap_items (items d) ai bi;
}.

(** [var sorter sort.Interface = &d
     if reverse { sorter = sort.Reverse(sorter) }
     sort.Sort(sorter)] *)
Definition sort_orderData (reverse : bool) (d : orderData) : option orderData :=
  if reverse
  then reverse_Interface <$> run_sorter (sort_Sort (Len (mkReverse d))) (mkReverse d)
  else run_sorter (sort_Sort (Len d)) d.

(** [func (s LINQ) OrderPD(cmp LessThanFunc, reverse bool) LINQ]; the
    captured [d] is the comparator together with the variable [d.items]. *)
Definition OrderPD_func (cmp : T -> T -> bool) (reverse : bool)
    (d_items : nat) (s : Sequence T) : SequenceFunc T :=
  mkSequenceFunc (ret O)
    (fun index : nat =>
       let* buf := readSlice d_items in
       let* buf :=
         match buf with
         | None => let* v := ToSlice s in
                   let* _ := writeSlice d_items v in
                   match sort_orderData reverse (mkOrderData cmp v) with
                   | Some d' => let* _ := writeSlice d_items (items d') in
                                ret (items d')
                   | None => panic "runtime error: index out of range"
                   end
         | Some v => ret v
         end in
       replay buf index).

Definition OrderPD (cmp : option (T -> T -> bool)) (reverse : bool)
    (s : Sequence T) : M (Sequence T) :=
  let cmp := match cmp with None => GenericLessThan | Some c => c end in
  let* d_items := newSlice in
  ret (FromSequenceFunction (OrderPD_func cmp reverse d_items s)).

(** [func (s LINQ) Order() LINQ { return s.OrderPD(nil, false) }] *)
Definition Order (s : Sequence T) : M (Sequence T) := OrderPD None false s.

(** [func (s LINQ) OrderP(cmp LessThanFunc) LINQ { return s.OrderPD(cmp, false) }] *)
Definition OrderP (cmp : option (T -> T -> bool)) (s : Sequence T)
    : M (Sequence T) := OrderPD cmp false s.
End Materializing.

(** ** Package linq: aggregate.go, GroupByKV, parallel.go *)

Section Aggregates.
Context {T U : Type} `{Countable T}.
Local Abbreviation M := (M T U).
Local Abbreviation Sequence := (@Sequence T U).

Variable GenericLessThan : T -> T -> bool.
(** [runtime.NumCPU()] *)
Variable NumCPU : Z.

(** [var MergeKeep = func(v T) (T, bool) { return v, true }] *)
Definition MergeKeep : T -> M (option T) := fun v => ret (Some v).
(** [var MergeKeepLeft = func(a T, b T) (T, bool) { return a, true }] *)
Definition MergeKeepLeft : T -> T -> M (option T) := fun a b => ret (Some a).
(** [var MergeKeepRight = func(a T, b T) (T, bool) { return b, true }] *)
Definition MergeKeepRight : T -> T -> M (option T) := fun a b => ret (Some b).

(** [func (s LINQ) TryAggregate(agg Aggregator) (T, bool)] *)
Definition TryAggregate (s : Sequence T) (agg : T -> T -> M T) : M (option T) :=
  let* i := Iterator s in
  let* (more, i) := Next s i in
  if negb more
  then ret None
  else let* v := Current s i in
       loop (fun st : ISt s * T =>
               let '(i, v) := st in
               let* (more, i') := Next s i in
               if more : bool
               then let* c := Current s i' in
                    let* v' := agg v c in
                    ret (inl (i', v'))
               else ret (inr (Some v)))
            (i, v).

(** [func (s LINQ) Aggregate(agg Aggregator) T] *)
Definition Aggregate (s : Sequence T) (agg : T -> T -> M T) : M T :=
  let* r := TryAggregate s agg in
  match r with
  | Some item => ret item
  | None => panic "the sequence was empty (or no items matched)"
  end.

(** The variables captured by the closure of [MergeP]. *)
Record mergeEnv (s rs : Sequence T) := mkMergeEnv {
  li : ISt s;
  ri : ISt rs;
  ln : bool;
  rn : bool;
}.
Global Arguments mkMergeEnv {s rs} _ _ _ _.
Global Arguments li {s rs} _.
Global Arguments ri {s rs} _.
Global Arguments ln {s rs} _.
Global Arguments rn {s rs} _.

(** A nil handler leaves [keep] false. *)
Definition handle1 (h : option (T -> M (option T))) (v : T) : M (option T) :=
  match h with
  | Some h => h v
  | None => ret None
  end.

Definition handle2 (h : option (T -> T -> M (option T))) (a b : T) : M (option T) :=
  match h with
  | Some h => h a b
  | None => ret None
  end.

(** [if keep { return nv, true }], otherwise round again. *)
Definition merge_emit {s rs : Sequence T} (r : option T) (env : mergeEnv s rs)
    : M (mergeEnv s rs + option T * mergeEnv s rs) :=
  match r with
  | Some nv => ret (inr (Some nv, env))
  | None => ret (inl env)
  end.

Definition merge_body {s rs : Sequence T} (cmp : T -> T -> bool)
    (leftOnly rightOnly : option (T -> M (option T)))
    (both : option (T -> T -> M (option T)))
    (env : mergeEnv s rs)
    : M (mergeEnv s rs + option T * mergeEnv s rs) :=
  if ln env && rn env then
    let* lv := Current s (li env) in
    let* rv := Current rs (ri env) in
    if cmp lv rv then
      let* (ln', li') := Next s (li env) in
      let* r := handle1 leftOnly lv in
      merge_emit r (mkMergeEnv li' (ri env) ln' (rn env))
    else if cmp rv lv then
      let* (rn', ri') := Next rs (ri env) in
      let* r := handle1 rightOnly rv in
      merge_emit r (mkMergeEnv (li env) ri' (ln env) rn')
    else
      let* (ln', li') := Next s (li env) in
      let* (rn', ri') := Next rs (ri env) in
      let* r := handle2 both lv rv in
      merge_emit r (mkMergeEnv li' ri' ln' rn')
  else if ln env && bool_decide (is_Some leftOnly) then
    let* v := Current s (li env) in
    let* r := handle1 leftOnly v in
    let* (ln', li') := Next s (li env) in
    merge_emit r (mkMergeEnv li' (ri env) ln' (rn env))
  else if rn env && bool_decide (is_Some rightOnly) then
    let* v := Current rs (ri env) in
    let* r := handle1 rightOnly v in
    let* (rn', ri') := Next rs (ri env) in
    merge_emit r (mkMergeEnv (li env) ri' (ln env) rn')
  else ret (inr (None, env)).

(** [func (s LINQ) MergeP(rs Sequence, cmp LessThanFunc, leftOnly, rightOnly, both) LINQ] *)
Definition MergeP (s rs : Sequence T) (cmp : option (T -> T -> bool))
    (leftOnly rightOnly : option (T -> M (option T)))
    (both : option (T -> T -> M (option T))) : Sequence T :=
  let cmp := match cmp with None => GenericLessThan | Some c => c end in
  FromSequenceFunction
    (mkSequenceFunc
       (let* li := Iterator s in
        let* ri := Iterator rs in
        let* (ln, li) := Next s li in
        let* (rn, ri) := Next rs ri in
        ret (mkMergeEnv li ri ln rn))
       (fun env => loop (merge_body cmp leftOnly rightOnly both) env)).

(** [if list, ok := m[k]; ok { m[k] = append(list, v) } else { m[k] = []T{v} }] *)
Definition group_add (m : gmap T (list T)) (k v : T) : gmap T (list T) :=
  match m !! k with
  | Some list => <[k := list ++ [v]]> m
  | None => <[k := [v]]> m
  end.

(** [func (s LINQ) GroupByKV(keySelector, valueSelector Selector) LINQ].
    The value of each pair is the slice [v] that [From(v)] wraps as a
    [TSequence]. *)
Definition GroupByKV (s : Sequence T) (keySelector : T -> M T)
    (valueSelector : option (T -> M T)) : M (Sequence (Pair T (list T))) :=
  let* i := Iterator s in
  let* m :=
    loop (fun st : ISt s * gmap T (list T) =>
            let '(i, m) := st in
            let* (more, i') := Next s i in
            if more : bool
            then let* v := Current s i' in
                 let* k := keySelector v in
                 let* v := match valueSelector with
                           | Some sel => sel v
                           | None => ret v
                           end in
                 ret (inl (i', group_add m k v))
            else ret (inr m))
         (i, ∅) in
  let seqs : gmap T (list T) := (fun v : list T => v) <$> m in
  ret (genericMapSequence seqs).

(** [func (s LINQ) GroupBy(keySelector Selector) LINQ] *)
Definition GroupBy (s : Sequence T) (keySelector : T -> M T)
    : M (Sequence (Pair T (list T))) :=
  GroupByKV s keySelector None.

(** *** parallel.go *)

(** The worker pool that [ParallelSelect] sets up for [maxThreads > 1]:
    its goroutines are not unfolded here, the value keeps what it was
    built from. *)
Record selectPool := mkSelectPool {
  sp_source : Sequence T;
  sp_maxThreads : Z;
  sp_selector : T -> M T;
}.

(** [func (s LINQ) ParallelSelect(maxThreads int, selector Selector) LINQ] *)
Definition ParallelSelect (s : Sequence T) (maxThreads : Z)
    (selector : T -> M T) : M (Sequence T + selectPool) :=
  let* maxThreads :=
    if maxThreads =? 0 then ret NumCPU
    else if maxThreads <? 0
         then panic "the number of threads must be non-negative"
         else ret maxThreads in
  if maxThreads =? 1
  then ret (inl (Select s selector))
  else ret (inr (mkSelectPool s maxThreads selector)).

(** [ParallelForEach] with [threads < 0]: the calling goroutine and the
    goroutines it has started.  [fo_ex] is the captured [ex], [fo_wg] the
    counter of the [sync.WaitGroup], [fo_started] the arguments of the
    [go process(...)] statements whose goroutine has not run yet. *)
Inductive caller : Type :=
| InLoop          (* in [for threads = 0; ex == nil && i.Next(); threads++] *)
| Waiting         (* in [wg.Wait()] *)
| Returned        (* [return s] *)
| Panicked (e : string).

Record fanout (s : Sequence T) := mkFanout {
  fo_world : World T U;
  fo_ex : option string;
  fo_i : ISt s;
  fo_wg : nat;
  fo_started : list T;
  fo_pc : caller;
}.
Global Arguments mkFanout {s} _ _ _ _ _ _.
Global Arguments fo_world {s} _.
Global Arguments fo_ex {s} _.
Global Arguments fo_i {s} _.
Global Arguments fo_wg {s} _.
Global Arguments fo_started {s} _.
Global Arguments fo_pc {s} _.

(** One step of the calling goroutine: a round of the loop
    ([wg.Add(1); go process(i.Current())]), leaving the loop, or getting
    past [wg.Wait()] to [if ex != nil { panic(ex) }; return s]. *)
Definition caller_step {s : Sequence T} (n : nat) (st : fanout s)
    : option (fanout s) :=
  match fo_pc st with
  | InLoop =>
      match fo_ex st with
      | Some _ =>
          Some (mkFanout (fo_world st) (fo_ex st) (fo_i st) (fo_wg st)
                         (fo_started st) Waiting)
      | None =>
          match Next s (fo_i st) n (fo_world st) with
          | Ok (true, i') w' =>
              match Current s i' n w' with
              | Ok x w'' =>
                  Some (mkFanout w'' (fo_ex st) i' (Datatypes.S (fo_wg st))
                                 (fo_started st ++ [x]) InLoop)
              | Panic e w'' =>
                  Some (mkFanout w'' (fo_ex st) i' (Datatypes.S (fo_wg st))
                                 (fo_started st) (Panicked e))
              | OutOfFuel => None
              end
          | Ok (false, i') w' =>
              Some (mkFanout w' (fo_ex st) i' (fo_wg st) (fo_started st) Waiting)
          | Panic e w' =>
              Some (mkFanout w' (fo_ex st) (fo_i st) (fo_wg st)
                             (fo_started st) (Panicked e))
          | OutOfFuel => None
          end
      end
  | Waiting =>
      if (fo_wg st =? 0)%nat
      then Some (mkFanout (fo_world st) (fo_ex st) (fo_i st) (fo_wg st)
                          (fo_started st)
                          match fo_ex st with
                          | Some e => Panicked e
                          | None => Returned
                          end)
      else None
  | Returned | Panicked _ => None
  end.

(** The [k]-th started goroutine runs [process(item)], as one step:
    [safeAction(item)], which recovers a panic of the action into [ex],
    then [wg.Done()]. *)
Definition goroutine_step {s : Sequence T} (action : T -> M unit)
    (n : nat) (k : nat) (st : fanout s) : option (fanout s) :=
  match fo_started st !! k with
  | Some item =>
      match action item n (fo_world st) with
      | Ok _ w' =>
          Some (mkFanout w' (fo_ex st) (fo_i st) (Nat.pred (fo_wg st))
                         (delete k (fo_started st)) (fo_pc st))
      | Panic e w' =>
          Some (mkFanout w' (Some e) (fo_i st) (Nat.pred (fo_wg st))
                         (delete k (fo_started st)) (fo_pc st))
      | OutOfFuel => None
      end
  | None => None
  end.

(** A schedule picks, step by step, the calling goroutine ([None]) or one
    of the started goroutines. *)
Fixpoint fanout_run {s : Sequence T} (action : T -> M unit) (n : nat)
    (schedule : list (option nat)) (st : fanout s) : option (fanout s) :=
  match schedule with
  | [] => Some st
  | None :: rest =>
      match caller_step n st with
      | Some st' => fanout_run action n rest st'
      | None => None
      end
  | Some k :: rest =>
      match goroutine_step action n k st with
      | Some st' => fanout_run action n rest st'
      | None => None
      end
  end.



(** [ParallelForEach] with [threads < 0], from [i, wg := s.Iterator(),
    sync.WaitGroup{}] on, under a schedule.  There is no state to show
    ([None]) when [s.Iterator()] does not return or the schedule asks for a
    step that cannot be taken. *)
Definition ParallelForEach_unbounded (s : Sequence T) (action : T -> M unit)
    (n : nat) (schedule : list (option nat)) (w : World T U)
    : option (fanout s) :=
  match Iterator s n w with
  | Ok i w' => fanout_run action n schedule (mkFanout w' None i O [] InLoop)
  | Panic e w' => None
  | OutOfFuel => None
  end.
End Aggregates.

(** ** What a sequence yields *)

Section YieldsDef.
Context {T U : Type}.
Local Abbreviation M := (M T U).
Local Abbreviation World := (World T U).
Local Abbreviation Sequence := (@Sequence T U).
Local Abbreviation SequenceFunc := (@SequenceFunc T U).
Implicit Types w : World.

(** [Runs s i w l i' w']: from the iterator state [i] in the world [w],
    [Next] returns true once for each item of [l], [Current] gives that
    item, and then [Next] returns false. *)
Inductive Runs {A} (s : Sequence A)
  : ISt s -> World -> list A -> ISt s -> World -> Prop :=
| Runs_nil i w i' w' :
    evals (Next s i) w (Ok (false, i') w') ->
    Runs s i w [] i' w'
| Runs_cons i w i1 w1 x w2 l i' w' :
    evals (Next s i) w (Ok (true, i1) w1) ->
    evals (Current s i1) w1 (Ok x w2) ->
    Runs s i1 w2 l i' w' ->
    Runs s i w (x :: l) i' w'.

(** The sequence [s], iterated from the world [w], is finite and yields
    the items [l], leaving the world [w']. *)
Definition Yields {A} (s : Sequence A) w (l : list A) w' : Prop :=
  exists i0 w0 i', evals (Iterator s) w (Ok i0 w0) /\ Runs s i0 w0 l i' w'.

(** The same for a list of sequences iterated one after the other. *)
Inductive YieldsAll {A} : list (Sequence A) -> World -> list (list A) -> World -> Prop :=
| YieldsAll_nil w : YieldsAll [] w [] w
| YieldsAll_cons s ss w l w1 ls w' :
    Yields s w l w1 -> YieldsAll ss w1 ls w' ->
    YieldsAll (s :: ss) w (l :: ls) w'.

(** The closure of a function-backed sequence returns the items [l],
    then [(nil, false)]. *)
Inductive Calls {A} (sf : SequenceFunc A)
  : Env sf -> World -> list A -> Env sf -> World -> Prop :=
| Calls_nil e w e' w' :
    evals (call sf e) w (Ok (None, e') w') ->
    Calls sf e w [] e' w'
| Calls_cons e w x e1 w1 l e' w' :
    evals (call sf e) w (Ok (Some x, e1) w1) ->
    Calls sf e1 w1 l e' w' ->
    Calls sf e w (x :: l) e' w'.

(** An iterator on which [Next] has not returned true yet: fresh from
    [Iterator()], or after calls of [Next] that returned false.  And one on
    which [Next] has just returned false. *)
Inductive NotStarted {A} (s : Sequence A) : ISt s -> Prop :=
| NotStarted_fresh w i w' :
    evals (Iterator s) w (Ok i w') -> NotStarted s i
| NotStarted_false i w i' w' :
    NotStarted s i -> evals (Next s i) w (Ok (false, i') w') ->
    NotStarted s i'.

Inductive Ended {A} (s : Sequence A) : ISt s -> Prop :=
| Ended_false i w i' w' :
    evals (Next s i) w (Ok (false, i') w') -> Ended s i'.

(** [Current] panics with [e], whatever the fuel and the world. *)
Definition CurrentPanics {A} (s : Sequence A) (i : ISt s) (e : string) : Prop :=
  forall n w, Current s i n w = Panic e w.

(** [m] is the first round of the loop of a closure: it leaves the loop
    itself, or goes round again and the loop gives the outcome. *)
Definition Round {E X} (body : E -> M (E + X)) (m : M (E + X)) w
    (o : outcome T U X) : Prop :=
  (exists x w1, evals m w (Ok (inr x) w1) /\ o = Ok x w1) \/
  (exists e1 w1, evals m w (Ok (inl e1) w1) /\ evals (loop body e1) w1 o).

(** The closure whose call starts with the round [m] returns the items
    [l], then [(nil, false)]. *)
Definition CallsVia {A E} (cr : M E) (body : E -> M (E + option A * E))
    (m : M (E + option A * E)) w (l : list A) (e' : E) w' : Prop :=
  match l with
  | [] => Round body m w (Ok (None, e') w')
  | x :: l' =>
      exists e1 w1,
        Round body m w (Ok (Some x, e1) w1) /\
        Calls (mkSequenceFunc cr (fun env => loop body env)) e1 w1 l' e' w'
  end.
End YieldsDef.

(** ** Specifications of the set operators, in the spec's words *)

Section SetSpecs.
Context {T : Type} `{Countable T}.

(** One representative per distinct key, the first occurrence, in
    first-occurrence order: the head stays and every later copy of it goes. *)
Fixpoint first_occurrences (l : list T) : list T :=
  match l with
  | [] => []
  | x :: l' => x :: filter (fun y => y <> x) (first_occurrences l')
  end.

(** The same by positions: the items of [l] at the positions before which
    they do not occur, in the order of the positions.  [pre] is what comes
    before [l]. *)
Fixpoint first_at_positions (pre l : list T) : list T :=
  match l with
  | [] => []
  | x :: l' =>
      if decide (x ∈ pre) then first_at_positions (pre ++ [x]) l'
      else x :: first_at_positions (pre ++ [x]) l'
  end.

(** What [Distinct]'s closure still lets through once its set holds [seen]. *)
Fixpoint distinct_from (seen : gset T) (l : list T) : list T :=
  match l with
  | [] => []
  | x :: l' =>
      if decide (x ∈ seen) then distinct_from seen l'
      else x :: distinct_from ({[x]} ∪ seen) l'
  end.
End SetSpecs.

(** *** What the claims about parallel.go assume of the source and of the action *)

Section ParallelSpecs.
Context {T U : Type}.
Local Abbreviation M := (M T U).
Local Abbreviation World := (World T U).
Local Abbreviation Sequence := (@Sequence T U).

(** With at least [N] units of fuel the iterator, whatever the world and
    without changing it, gives the items [l] and then ends. *)
Inductive PureRuns (N : nat) (s : Sequence T) : ISt s -> list T -> ISt s -> Prop :=
| PureRuns_nil i i' :
    (forall n w, (N <= n)%nat -> Next s i n w = Ok (false, i') w) ->
    PureRuns N s i [] i'
| PureRuns_cons i i1 x l i' :
    (forall n w, (N <= n)%nat -> Next s i n w = Ok (true, i1) w) ->
    (forall n w, (N <= n)%nat -> Current s i1 n w = Ok x w) ->
    PureRuns N s i1 l i' ->
    PureRuns N s i (x :: l) i'.

Definition PureYields (N : nat) (s : Sequence T) (l : list T) : Prop :=
  exists i0 i',
    (forall n w, (N <= n)%nat -> Iterator s n w = Ok i0 w) /\
    PureRuns N s i0 l i'.

(** What [Aggregate] does after the first item, in the words of its
    comment: the first two items are passed to the aggregator, then the
    result and the third item, and so on.  [FoldEvals agg v rest w o]: these
    calls, made one after the other from the world [w], end in [o]. *)
Inductive FoldEvals (agg : T -> T -> M T) : T -> list T -> World -> outcome T U T -> Prop :=
| FoldEvals_nil v w : FoldEvals agg v [] w (Ok v w)
| FoldEvals_step v c rest w v' w1 o :
    evals (agg v c) w (Ok v' w1) ->
    FoldEvals agg v' rest w1 o ->
    FoldEvals agg v (c :: rest) w o
| FoldEvals_panic v c rest w e w1 :
    evals (agg v c) w (Panic e w1) ->
    FoldEvals agg v (c :: rest) w (Panic e w1).

Definition outcome_map {X Y} (g : X -> Y) (o : outcome T U X) : outcome T U Y :=
  match o with
  | Ok x w => Ok (g x) w
  | Panic e w => Panic e w
  | OutOfFuel => OutOfFuel
  end.

(** With at least [N] units of fuel the action returns on every item of
    [l], and [act] is what it does to the world. *)
Definition ActionReturns (N : nat) (action : T -> M unit)
    (act : T -> World -> World) (l : list T) : Prop :=
  forall x, x ∈ l ->
    forall n w, (N <= n)%nat -> action x n w = Ok tt (act x w).

(** The world after the action has been applied to the items of [l] one
    after the other. *)
Definition applyAll (act : T -> World -> World) (l : list T) (w : World) : World :=
  foldl (fun w x => act x w) w l.

End ParallelSpecs.

(** ** Concrete inputs *)

(** A world with no captured slice and nothing of the caller's. *)
Definition w0 : World Z unit := mkWorld [] tt.

(** [FromItems(items...)] for integer items: [From] of a [[]T], which the
    registered creator turns into a [TSequence]. *)
Definition FromItems (items : list Z) : @Sequence Z unit Z := TSequence items.

(** [From] of an array of integers, [[...]int{...}], for which no creator is
    registered: a [genericArraySequence]. *)
Definition FromArray (items : list Z) : @Sequence Z unit Z :=
  genericArraySequence items.

(** A world with two captured slices, both nil. *)
Definition twoNil : World Z unit := mkWorld [None; None] tt.

(** A source that counts in the caller's state how often it is iterated: a
    slice whose [Iterator()] adds one to the count. *)
Definition counted (items : list Z) : @Sequence Z Z Z :=
  mkSequence
    (fun _ w => Ok (mkTIterator items (-1)) (mkWorld (cells w) (user w + 1)))
    tIterator_Next tIterator_Current.

(** An aggregator that panics whatever it is given. *)
Definition neverCalled (a b : Z) : M Z unit Z := panic "aggregator called".

(** A world in which the caller keeps a running sum, and the action that
    adds its item to it. *)
Definition sum0 : World Z Z := mkWorld [] 0.

Definition FromItems_sum (items : list Z) : @Sequence Z Z Z := TSequence items.

Definition addToSum (item : Z) : M Z Z unit :=
  fun _ w => Ok tt (mkWorld (cells w) (user w + item)).

(** An action that panics on every item. *)
Definition ohNo (item : Z) : M Z Z unit := panic "oh no".

(** The selector [x -> x + 1] of the spec's [Range] example. *)
Definition plusOne (x : Z) : M Z unit Z := ret (x + 1).

(** The key selector [i / 4] of the spec's grouping example; Go's integer
    division truncates. *)
Definition quarter (i : Z) : M Z unit Z := ret (Z.quot i 4).

(** [IntLessThanFunc]: [<] on integers. *)
Definition IntLessThanFunc : Z -> Z -> bool := Z.ltb.

(** ** Specifications of the buffering operators *)

Section MaterializingSpecs.
Context {T U : Type}.
Local Abbreviation M := (M T U).
Local Abbreviation World := (World T U).
Local Abbreviation Sequence := (@Sequence T U).

(** The world in which the captured slice [items] holds [v]. *)
Definition setSlice (items : nat) (v : list T) (w : World) : World :=
  mkWorld (<[items := Some v]> (cells w)) (user w).

(** The shape the closures of [Cache], [Reverse] and [OrderPD] share: a nil
    buffer is filled by [fill], and the buffer is replayed from [index]. *)
Definition materialize (fill : M (list T)) (items : nat) : SequenceFunc T :=
  mkSequenceFunc (ret O)
    (fun index : nat =>
       let* buf := readSlice items in
       let* buf :=
         match buf with
         | None => fill
         | Some v => ret v
         end in
       replay buf index).

(** [fill] drains [s] once and stores [transform] of its items in [items]. *)
Definition Fills (fill : M (list T)) (items : nat) (s : Sequence T)
    (transform : list T -> option (list T)) : Prop :=
  forall w l w1 l',
    Yields s w l w1 -> transform l = Some l' ->
    evals fill w (Ok l' (setSlice items l' w1)).

(** What C4 says of a sequence [q] whose buffer is the captured slice [c]
    and whose upstream is [s]: drawing an iterator does nothing; with a nil
    buffer the first [Next] drains [s] and stores [transform] of its items,
    and the iteration yields them; with [buf] in the buffer the iteration
    yields [buf] and leaves the world as it is. *)
Definition BufferedOnce (q : Sequence T) (c : nat) (s : Sequence T)
    (transform : list T -> option (list T)) : Prop :=
  (exists i0,
     (forall w, evals (Iterator q) w (Ok i0 w)) /\
     (forall w l w1 l',
        cells w !! c = Some None ->
        Yields s w l w1 -> transform l = Some l' ->
        exists more i1,
          evals (Next q i0) w (Ok (more, i1) (setSlice c l' w1)))) /\
  (forall w l w1 l',
     cells w !! c = Some None ->
     Yields s w l w1 -> transform l = Some l' ->
     (c < length (cells w1))%nat ->
     Yields q w l' (setSlice c l' w1)) /\
  (forall w buf,
     cells w !! c = Some (Some buf) ->
     Yields q w buf w).

(** [sort.IsSorted]: no item is less than the one before it. *)
Definition IsSorted (cmp : T -> T -> bool) (l : list T) : Prop :=
  forall i a b,
    l !! i = Some a -> l !! (Datatypes.S i) = Some b -> cmp b a = false.

(** A strict less-than: irreflexive, transitive, and with a transitive
    "neither is less than the other". *)
Record StrictWeakOrder (cmp : T -> T -> bool) : Prop := {
  swo_irrefl : forall a, cmp a a = false;
  swo_trans : forall a b c, cmp a b = true -> cmp b c = true -> cmp a c = true;
  swo_incomp : forall a b c,
    cmp a b = false -> cmp b a = false -> cmp b c = false -> cmp c b = false ->
    cmp a c = false /\ cmp c a = false;
}.

(** What Go documents of [sort.Sort]: on a slice compared by a strict
    less-than it returns, and leaves the slice sorted. *)
Definition sort_Sort_contract (sort_Sort : nat -> sorter) : Prop :=
  forall (cmp : T -> T -> bool) (l : list T),
    StrictWeakOrder cmp ->
    exists d', run_sorter (sort_Sort (length l)) (mkOrderData cmp l) = Some d' /\
               IsSorted cmp (items d').
End MaterializingSpecs.

(** Go's [insertionSort], which [sort.Sort] runs on short slices:
    [for i := a + 1; i < b; i++ {
       for j := i; j > a && data.Less(j, j-1); j-- { data.Swap(j, j-1) } }] *)
Fixpoint insertion_inner (j : nat) (k : sorter) : sorter :=
  match j with
  | O => k
  | Datatypes.S j' =>
      sort_less (Datatypes.S j') j'
        (fun less => if less
                     then sort_swap (Datatypes.S j') j' (insertion_inner j' k)
                     else k)
  end.

Fixpoint insertion_outer (i : nat) (rounds : nat) : sorter :=
  match rounds with
  | O => sort_done
  | Datatypes.S rounds' => insertion_inner i (insertion_outer (Datatypes.S i) rounds')
  end.

Definition insertionSort (n : nat) : sorter := insertion_outer 1 (n - 1).

(** ** Package linq: filtering operators (linq.go, skipTake.go, firstLast.go) *)

(** errors.go: [emptyError] and [tooManyItemsError], and their [Error()]
    strings, which is what a [panic(err)] shows. *)
Inductive linqError : Type :=
| emptyError
| tooManyItemsError.

Definition Error (e : linqError) : string :=
  match e with
  | emptyError => "the sequence was empty (or no items matched)"
  | tooManyItemsError =>
      "the sequence contained too many items (or too many items matched)"
  end.

Definition IsEmptyError (e : linqError) : bool :=
  match e with emptyError => true | tooManyItemsError => false end.

Definition IsTooManyItemsError (e : linqError) : bool :=
  match e with tooManyItemsError => true | emptyError => false end.

Section Filtering.
Context {T U : Type}.
Local Abbreviation M := (M T U).
Local Abbreviation Sequence := (@Sequence T U).
Local Abbreviation SequenceFunc := (@SequenceFunc T U).

(** [var Empty = From(make([]T, 0, 0))] *)
Definition Empty {A} : Sequence A := TSequence [].

(** [func (s LINQ) Where(pred Predicate) LINQ]:
    [for { if !i.Next() { return nil, false }
           else if item := i.Current(); pred(item) { return item, true } }] *)
Definition where_body {A} (s : Sequence A) (pred : A -> M bool) (i : ISt s)
    : M (ISt s + option A * ISt s) :=
  let* (more, i') := Next s i in
  if negb more
  then ret (inr (None, i'))
  else let* item := Current s i' in
       let* keep := pred item in
       if keep : bool
       then ret (inr (Some item, i'))
       else ret (inl i').

Definition Where {A} (s : Sequence A) (pred : A -> M bool) : Sequence A :=
  FromSequenceFunction
    (mkSequenceFunc (Iterator s) (fun i => loop (where_body s pred) i)).

(** The variables captured by the closure of [Skip]. *)
Record skipEnv {A} (s : Sequence A) := mkSkipEnv {
  sk_i : ISt s;
  sk_skipped : bool;
}.
Global Arguments mkSkipEnv {A s} _ _.
Global Arguments sk_i {A s} _.
Global Arguments sk_skipped {A s} _.

(** [for count := 0; count < n && i.Next(); count++ { }] *)
Definition skip_loop {A} (s : Sequence A) (n : Z) (i : ISt s) : M (ISt s) :=
  loop (fun st : Z * ISt s =>
          let '(count, i) := st in
          if count <? n
          then let* (more, i') := Next s i in
               if more : bool
               then ret (inl (count + 1, i'))
               else ret (inr i')
          else ret (inr i))
       (0, i).

Definition Skip_func {A} (s : Sequence A) (n : Z) : SequenceFunc A :=
  mkSequenceFunc
    (let* i := Iterator s in ret (mkSkipEnv i false))
    (fun env =>
       let* i := if negb (sk_skipped env)
                 then skip_loop s n (sk_i env)
                 else ret (sk_i env) in
       let* (more, i') := Next s i in
       if more : bool
       then let* x := Current s i' in ret (Some x, mkSkipEnv i' true)
       else ret (None, mkSkipEnv i' true)).

(** [func (s LINQ) Skip(n int) LINQ] *)
Definition Skip {A} (s : Sequence A) (n : Z) : M (Sequence A) :=
  if n =? 0 then ret s
  else if n <? 0 then panic "argument must be non-negative"
  else ret (FromSequenceFunction (Skip_func s n)).

(** The variables captured by the closure of [SkipWhile]. *)
Record skipWhileEnv {A} (s : Sequence A) := mkSkipWhileEnv {
  sw_i : ISt s;
  sw_skipped : bool;
}.
Global Arguments mkSkipWhileEnv {A s} _ _.
Global Arguments sw_i {A s} _.
Global Arguments sw_skipped {A s} _.

(** [if !i.Next() { return nil, false }
     else if item := i.Current(); skipped || !pred(item) {
       skipped = true; return item, true }]: Go's [||] does not call [pred]
    once [skipped] is set. *)
Definition skipWhile_body {A} (s : Sequence A) (pred : A -> M bool)
    (env : skipWhileEnv s) : M (skipWhileEnv s + option A * skipWhileEnv s) :=
  let* (more, i') := Next s (sw_i env) in
  if negb more
  then ret (inr (None, mkSkipWhileEnv i' (sw_skipped env)))
  else let* item := Current s i' in
       let* emit := if sw_skipped env
                    then ret true
                    else let* p := pred item in ret (negb p) in
       if emit : bool
       then ret (inr (Some item, mkSkipWhileEnv i' true))
       else ret (inl (mkSkipWhileEnv i' (sw_skipped env))).

(** [func (s LINQ) SkipWhile(pred Predicate) LINQ] *)
Definition SkipWhile {A} (s : Sequence A) (pred : A -> M bool) : Sequence A :=
  FromSequenceFunction
    (mkSequenceFunc
       (let* i := Iterator s in ret (mkSkipWhileEnv i false))
       (fun env => loop (skipWhile_body s pred) env)).

(** The variables captured by the closure of [Take]. *)
Record takeEnv {A} (s : Sequence A) := mkTakeEnv {
  tk_i : ISt s;
  tk_count : Z;
}.
Global Arguments mkTakeEnv {A s} _ _.
Global Arguments tk_i {A s} _.
Global Arguments tk_count {A s} _.

(** [if count < n && i.Next() { count++; return i.Current(), true }
     return nil, false] *)
Definition Take_func {A} (s : Sequence A) (n : Z) : SequenceFunc A :=
  mkSequenceFunc
    (let* i := Iterator s in ret (mkTakeEnv i 0))
    (fun env =>
       if tk_count env <? n
       then let* (more, i') := Next s (tk_i env) in
            if more : bool
            then let* x := Current s i' in
                 ret (Some x, mkTakeEnv i' (tk_count env + 1))
            else ret (None, mkTakeEnv i' (tk_count env))
       else ret (None, env)).

(** [func (s LINQ) Take(n int) LINQ] *)
Definition Take {A} (s : Sequence A) (n : Z) : M (Sequence A) :=
  if n =? 0 then ret Empty
  else if n <? 0 then panic "argument must be non-negative"
  else ret (FromSequenceFunction (Take_func s n)).

(** The variables captured by the closure of [TakeWhile]. *)
Record takeWhileEnv {A} (s : Sequence A) := mkTakeWhileEnv {
  tw_i : ISt s;
  tw_done : bool;
}.
Global Arguments mkTakeWhileEnv {A s} _ _.
Global Arguments tw_i {A s} _.
Global Arguments tw_done {A s} _.

(** [if done || !i.Next() { return nil, false }
     else if item := i.Current(); pred(item) { return item, true }
     else { done = true }] *)
Definition takeWhile_body {A} (s : Sequence A) (pred : A -> M bool)
    (env : takeWhileEnv s) : M (takeWhileEnv s + option A * takeWhileEnv s) :=
  if tw_done env
  then ret (inr (None, env))
  else let* (more, i') := Next s (tw_i env) in
       if negb more
       then ret (inr (None, mkTakeWhileEnv i' (tw_done env)))
       else let* item := Current s i' in
            let* keep := pred item in
            if keep : bool
            then ret (inr (Some item, mkTakeWhileEnv i' (tw_done env)))
            else ret (inl (mkTakeWhileEnv i' true)).

(** [func (s LINQ) TakeWhile(pred Predicate) LINQ] *)
Definition TakeWhile {A} (s : Sequence A) (pred : A -> M bool) : Sequence A :=
  FromSequenceFunction
    (mkSequenceFunc
       (let* i := Iterator s in ret (mkTakeWhileEnv i false))
       (fun env => loop (takeWhile_body s pred) env)).

(** [func (s LINQ) All(pred Predicate) bool]:
    [for i := s.Iterator(); i.Next(); { if !pred(i.Current()) { return false } }
     return true] *)
Definition all_body {A} (s : Sequence A) (pred : A -> M bool) (i : ISt s)
    : M (ISt s + bool) :=
  let* (more, i') := Next s i in
  if more : bool
  then let* x := Current s i' in
       let* p := pred x in
       if negb p then ret (inr false) else ret (inl i')
  else ret (inr true).

Definition All {A} (s : Sequence A) (pred : A -> M bool) : M bool :=
  let* i := Iterator s in
  loop (all_body s pred) i.

(** [func (s LINQ) Any() bool { return s.Iterator().Next() }] *)
Definition Any {A} (s : Sequence A) : M bool :=
  let* i := Iterator s in
  let* (more, _) := Next s i in
  ret more.

(** [func (s LINQ) AnyP(pred Predicate) bool { return s.Where(pred).Any() }] *)
Definition AnyP {A} (s : Sequence A) (pred : A -> M bool) : M bool :=
  Any (Where s pred).

(** [func (s LINQ) TryFirst() (T, bool)] *)
Definition TryFirst {A} (s : Sequence A) : M (option A) :=
  let* i := Iterator s in
  let* (more, i') := Next s i in
  if more : bool
  then let* x := Current s i' in ret (Some x)
  else ret None.

(** [func (s LINQ) First() T] *)
Definition First {A} (s : Sequence A) : M A :=
  let* r := TryFirst s in
  match r with
  | Some item => ret item
  | None => panic "First called on empty sequence (or no items match)"
  end.

(** [func (s LINQ) FirstOrNil() T { item, _ := s.TryFirst(); return item }];
    [nil] is Go's nil value of [T]. *)
Definition FirstOrNil {A} (nil : A) (s : Sequence A) : M A :=
  let* r := TryFirst s in
  ret (default nil r).

(** [func (s LINQ) FirstP(pred Predicate) T { return s.Where(pred).First() }] *)
Definition FirstP {A} (s : Sequence A) (pred : A -> M bool) : M A :=
  First (Where s pred).

(** [func (s LINQ) TryFirstP(pred Predicate) (T, bool)] *)
Definition TryFirstP {A} (s : Sequence A) (pred : A -> M bool) : M (option A) :=
  TryFirst (Where s pred).

(** [func (s LINQ) TryLast() (T, bool)]:
    [for { item = i.Current(); if !i.Next() { return item, true } }] *)
Definition last_body {A} (s : Sequence A) (i : ISt s) : M (ISt s + option A) :=
  let* item := Current s i in
  let* (more, i') := Next s i in
  if negb more then ret (inr (Some item)) else ret (inl i').

Definition TryLast {A} (s : Sequence A) : M (option A) :=
  let* i := Iterator s in
  let* (more, i) := Next s i in
  if more : bool
  then loop (last_body s) i
  else ret None.

(** [func (s LINQ) Last() T] *)
Definition Last {A} (s : Sequence A) : M A :=
  let* r := TryLast s in
  match r with
  | Some item => ret item
  | None => panic "Last called on empty sequence (or no items match)"
  end.

(** [func (s LINQ) LastOrNil() T] *)
Definition LastOrNil {A} (nil : A) (s : Sequence A) : M A :=
  let* r := TryLast s in
  ret (default nil r).

(** [func (s LINQ) TrySingle() (T, error)] *)
Definition TrySingle {A} (s : Sequence A) : M (A + linqError) :=
  let* i := Iterator s in
  let* (more, i) := Next s i in
  if more : bool
  then let* v := Current s i in
       let* (more, _) := Next s i in
       if negb more then ret (inl v) else ret (inr tooManyItemsError)
  else ret (inr emptyError).

(** [func (s LINQ) Single() T]: [panic(err)] when [TrySingle] fails. *)
Definition Single {A} (s : Sequence A) : M A :=
  let* r := TrySingle s in
  match r with
  | inl item => ret item
  | inr err => panic (Error err)
  end.

(** [func (s LINQ) SingleOrNil() T] *)
Definition SingleOrNil {A} (nil : A) (s : Sequence A) : M A :=
  let* i := Iterator s in
  let* (more, i) := Next s i in
  if more : bool
  then let* v := Current s i in
       let* (more, _) := Next s i in
       if negb more then ret v else panic (Error tooManyItemsError)
  else ret nil.
End Filtering.

(** ** Iterating only part of a sequence *)

Section PullsDef.
Context {T U : Type}.
Local Abbreviation World := (World T U).
Local Abbreviation Sequence := (@Sequence T U).
Implicit Types w : World.

(** [Pulls s i w l i' w']: from the iterator state [i] in the world [w],
    [Next] returns true once for each item of [l] and [Current] gives that
    item; the iterator is not asked for more. *)
Inductive Pulls {A} (s : Sequence A)
  : ISt s -> World -> list A -> ISt s -> World -> Prop :=
| Pulls_nil i w : Pulls s i w [] i w
| Pulls_cons i w i1 w1 x w2 l i' w' :
    evals (Next s i) w (Ok (true, i1) w1) ->
    evals (Current s i1) w1 (Ok x w2) ->
    Pulls s i1 w2 l i' w' ->
    Pulls s i w (x :: l) i' w'.

(** The predicate closure [pred] decides [p] on the items of [l] and has no
    effect. *)
Definition Decides {A} (pred : A -> M T U bool) (p : A -> bool) (l : list A) : Prop :=
  forall x w, x ∈ l -> evals (pred x) w (Ok (p x) w).
End PullsDef.

(** The predicate [x%2 == 0] and a sequence that never ends, 0, 1, 2, ... *)
Definition isEven (x : Z) : M Z unit bool := ret (Z.even x).

Definition naturals : @Sequence Z unit Z :=
  FromSequenceFunction (mkSequenceFunc (ret 0) (fun n : Z => ret (Some n, n + 1))).

(** ** Package linq: more of aggregate.go, linq.go and concat.go *)

Section MoreAggregates.
Context {T U : Type}.
Local Abbreviation M := (M T U).
Local Abbreviation Sequence := (@Sequence T U).

Variable GenericLessThan : T -> T -> bool.

(** [func (s LINQ) AggregateOrDefault(defaultValue T, agg Aggregator) T] *)
Definition AggregateOrDefault (s : Sequence T) (defaultValue : T)
    (agg : T -> T -> M T) : M T :=
  let* r := TryAggregate s agg in
  match r with
  | Some item => ret item
  | None => ret defaultValue
  end.

(** [func (s LINQ) AggregateOrNil(agg Aggregator) T
       { return s.AggregateOrDefault(nil, agg) }] *)
Definition AggregateOrNil (nil : T) (s : Sequence T) (agg : T -> T -> M T) : M T :=
  AggregateOrDefault s nil agg.

(** [func (s LINQ) AggregateFrom(seed T, agg Aggregator) T]:
    [for i := s.Iterator(); i.Next(); { seed = agg(seed, i.Current()) }
     return seed] *)
Definition aggregateFrom_body (s : Sequence T) (agg : T -> T -> M T)
    (st : ISt s * T) : M (ISt s * T + T) :=
  let '(i, seed) := st in
  let* (more, i') := Next s i in
  if more : bool
  then let* c := Current s i' in
       let* seed' := agg seed c in
       ret (inl (i', seed'))
  else ret (inr seed).

Definition AggregateFrom (s : Sequence T) (seed : T) (agg : T -> T -> M T) : M T :=
  let* i := Iterator s in
  loop (aggregateFrom_body s agg) (i, seed).

(** [func maxf(isLessThan LessThanFunc) Aggregator] and
    [func minf(isLessThan LessThanFunc) Aggregator] *)
Definition maxf (isLessThan : T -> T -> bool) : T -> T -> M T :=
  fun a b => if isLessThan a b then ret b else ret a.

Definition minf (isLessThan : T -> T -> bool) : T -> T -> M T :=
  fun a b => if isLessThan a b then ret a else ret b.

(** [func max(a, b T) T] and [func min(a, b T) T] *)
Definition max (a b : T) : M T := if GenericLessThan a b then ret b else ret a.

Definition min (a b : T) : M T := if GenericLessThan a b then ret a else ret b.

(** [func (s LINQ) Max() T { return s.Aggregate(max) }] *)
Definition Max (s : Sequence T) : M T := Aggregate s max.

(** [func (s LINQ) MaxP(cmp LessThanFunc) T] *)
Definition MaxP (s : Sequence T) (cmp : option (T -> T -> bool)) : M T :=
  match cmp with
  | None => Max s
  | Some cmp => Aggregate s (maxf cmp)
  end.

(** [func (s LINQ) TryMax() (T, bool)] and
    [func (s LINQ) TryMaxP(cmp LessThanFunc) (T, bool)] *)
Definition TryMax (s : Sequence T) : M (option T) := TryAggregate s max.

Definition TryMaxP (s : Sequence T) (cmp : option (T -> T -> bool)) : M (option T) :=
  match cmp with
  | None => TryMax s
  | Some cmp => TryAggregate s (maxf cmp)
  end.

(** [func (s LINQ) MaxOrDefault(defaultValue T) T] and
    [func (s LINQ) MaxOrDefaultP(defaultValue T, cmp LessThanFunc) T] *)
Definition MaxOrDefault (s : Sequence T) (defaultValue : T) : M T :=
  AggregateOrDefault s defaultValue max.

Definition MaxOrDefaultP (s : Sequence T) (defaultValue : T)
    (cmp : option (T -> T -> bool)) : M T :=
  match cmp with
  | None => MaxOrDefault s defaultValue
  | Some cmp => AggregateOrDefault s defaultValue (maxf cmp)
  end.

(** [func (s LINQ) Min() T { return s.Aggregate(min) }] *)
Definition Min (s : Sequence T) : M T := Aggregate s min.

(** [func (s LINQ) MinP(cmp LessThanFunc) T] *)
Definition MinP (s : Sequence T) (cmp : option (T -> T -> bool)) : M T :=
  match cmp with
  | None => Min s
  | Some cmp => Aggregate s (minf cmp)
  end.

(** [func (s LINQ) TryMin() (T, bool)] and
    [func (s LINQ) TryMinP(cmp LessThanFunc) (T, bool)] *)
Definition TryMin (s : Sequence T) : M (option T) := TryAggregate s min.

Definition TryMinP (s : Sequence T) (cmp : option (T -> T -> bool)) : M (option T) :=
  match cmp with
  | None => TryMin s
  | Some cmp => TryAggregate s (minf cmp)
  end.

(** [func (s LINQ) MinOrDefault(defaultValue T) T] and
    [func (s LINQ) MinOrDefaultP(defaultValue T, cmp LessThanFunc) T] *)
Definition MinOrDefault (s : Sequence T) (defaultValue : T) : M T :=
  AggregateOrDefault s defaultValue min.

Definition MinOrDefaultP (s : Sequence T) (defaultValue : T)
    (cmp : option (T -> T -> bool)) : M T :=
  match cmp with
  | None => MinOrDefault s defaultValue
  | Some cmp => AggregateOrDefault s defaultValue (minf cmp)
  end.

(** The variables captured by the closure of the method [Zip]. *)
Record zipEnv (s sequence : Sequence T) := mkZipEnv {
  z_i1 : ISt s;
  z_i2 : ISt sequence;
}.
Global Arguments mkZipEnv {s sequence} _ _.
Global Arguments z_i1 {s sequence} _.
Global Arguments z_i2 {s sequence} _.

(** [func (s LINQ) Zip(sequence Sequence, agg Aggregator) LINQ]:
    [if i1.Next() && i2.Next() { return agg(i1.Current(), i2.Current()), true }
     return nil, false] *)
Definition Zip (s sequence : Sequence T) (agg : T -> T -> M T) : Sequence T :=
  FromSequenceFunction
    (mkSequenceFunc
       (let* i1 := Iterator s in
        let* i2 := Iterator sequence in
        ret (mkZipEnv i1 i2))
       (fun env =>
          let* (more1, i1') := Next s (z_i1 env) in
          if more1 : bool
          then let* (more2, i2') := Next sequence (z_i2 env) in
               if more2 : bool
               then let* a := Current s i1' in
                    let* b := Current sequence i2' in
                    let* r := agg a b in
                    ret (Some r, mkZipEnv i1' i2')
               else ret (None, mkZipEnv i1' i2')
          else ret (None, mkZipEnv i1' (z_i2 env)))).

(** [func (s LINQ) Append(items ...T) LINQ]; [toSequenceOrDie(items)] is the
    [TSequence] of the slice. *)
Definition Append (s : Sequence T) (items : list T) : Sequence T :=
  if negb (length items =? 0)%nat
  then Concat s [TSequence items]
  else s.

(** [func (s LINQ) Prepend(items ...T) LINQ] *)
Definition Prepend (s : Sequence T) (items : list T) : Sequence T :=
  if negb (length items =? 0)%nat
  then Concat (TSequence items) [s]
  else s.
End MoreAggregates.

(** The aggregator [a + b]. *)
Definition plus (a b : Z) : M Z unit Z := ret (a + b).

(** ** map.go, and more of sequences.go *)

Section Maps.
Context {T U : Type} `{Countable T}.
Local Abbreviation M := (M T U).
Local Abbreviation Sequence := (@Sequence T U).


(** [if getKey != nil { k = getKey(k) }]: what a selector argument that may
    be nil does to a value. *)
Definition applySelector (sel : option (T -> M T)) (v : T) : M T :=
  match sel with
  | Some sel => sel v
  | None => ret v
  end.

(** [func addToMap(s Sequence, m map[T]T, getKey, getValue Selector) map[T]T]:
    [v := i.Current(); k := v; k = getKey(k); v = getValue(v); m[k] = v],
    the nil tests of the two selectors being those of [applySelector]. *)
Definition addToMap_body {A} (s : Sequence A) (getKey getValue : A -> M T)
    (st : ISt s * gmap T T) : M (ISt s * gmap T T + gmap T T) :=
  let '(i, m) := st in
  let* (more, i') := Next s i in
  if more : bool
  then let* v := Current s i' in
       let* k := getKey v in
       let* v := getValue v in
       ret (inl (i', <[k := v]> m))
  else ret (inr m).

Definition addToMap {A} (s : Sequence A) (m : gmap T T)
    (getKey getValue : A -> M T) : M (gmap T T) :=
  let* i := Iterator s in
  loop (addToMap_body s getKey getValue) (i, m).

(** [func (s LINQ) ToMap(getKey, getValue Selector) map[T]T]; the map is
    made empty (the count of a collection is only its initial capacity). *)
Definition ToMap (s : Sequence T) (getKey getValue : option (T -> M T))
    : M (gmap T T) :=
  addToMap s ∅ (applySelector getKey) (applySelector getValue).

(** [func (s LINQ) ToMapK(getKey Selector) map[T]T { return s.ToMap(getKey, nil) }] *)
Definition ToMapK (s : Sequence T) (getKey : option (T -> M T)) : M (gmap T T) :=
  ToMap s getKey None.

(** [func (s LINQ) ToMapV(getValue Selector) map[T]T { return s.ToMap(nil, getValue) }] *)
Definition ToMapV (s : Sequence T) (getValue : option (T -> M T)) : M (gmap T T) :=
  ToMap s None getValue.

(** [func (s LINQ) PairsToMap() map[T]T], on a sequence of [Pair]s: the
    selectors are [p.(Pair).Key] and [p.(Pair).Value]. *)
Definition PairsToMap (s : Sequence (Pair T T)) : M (gmap T T) :=
  addToMap s ∅ (fun p => ret (Key p)) (fun p => ret (Value p)).

(** The group of the key [k] when the items [l] are grouped by [key] and
    mapped by [val]: the values of the items with that key, in the order of
    [l]; there is no group without an item. *)
Definition group_of (key val : T -> T) (l : list T) (k : T) : option (list T) :=
  match val <$> filter (fun x => key x = k) l with
  | [] => None
  | g => Some g
  end.
End Maps.



(** ** concat.go: the descending orders *)

Section Descending.
Context {T U : Type}.
Local Abbreviation M := (M T U).
Local Abbreviation Sequence := (@Sequence T U).

Variable sort_Sort : nat -> sorter.
Variable GenericLessThan : T -> T -> bool.

(** [func (s LINQ) OrderDescending() LINQ { return s.OrderPD(nil, true) }] *)
Definition OrderDescending (s : Sequence T) : M (Sequence T) :=
  OrderPD sort_Sort GenericLessThan None true s.

(** [func (s LINQ) OrderDescendingP(cmp LessThanFunc) LINQ
       { return s.OrderPD(cmp, true) }] *)
Definition OrderDescendingP (cmp : option (T -> T -> bool)) (s : Sequence T)
    : M (Sequence T) :=
  OrderPD sort_Sort GenericLessThan cmp true s.
End Descending.

(** *** What holds of [ParallelForEach] with [threads < 0] when the action
    panics on the item [x] of the source *)

Section ParallelPanicSpecs.
Context {T U : Type}.
Local Abbreviation Sequence := (@Sequence T U).

(** As long as no panic has been captured, the goroutine of [x] is started
    and has not run, or [x] is still in the source; the call has not
    returned, and it panics only with the captured value and with no
    goroutine left. *)
Definition fanout_panic_inv (N : nat) (x : T) {s : Sequence T} (st : fanout s)
    : Prop :=
  fo_wg st = length (fo_started st) /\
  match fo_pc st with
  | InLoop =>
      fo_ex st = None ->
      exists rest i', PureRuns N s (fo_i st) rest i' /\
                      (x ∈ fo_started st \/ x ∈ rest)
  | Waiting => fo_ex st = None -> x ∈ fo_started st
  | Returned => False
  | Panicked e => fo_ex st = Some e /\ fo_started st = []
  end.
End ParallelPanicSpecs.

(** ** Captured variables that are not slices *)

(** [Except] and [Intersect] capture a variable of type [set] and
    [MakeOneTimeFunctionSequence] a boolean.  They are kept next to the
    caller's own state [own], in the [user] part of the world: [sets] holds
    the set variables ([None] is the nil map) and [flags] the booleans. *)
Record Captured (T U : Type) `{Countable T} := mkCaptured {
  sets : list (option (gset T));
  flags : list bool;
  own : U;
}.
Global Arguments mkCaptured {T U _ _} _ _ _.
Global Arguments sets {T U _ _} _.
Global Arguments flags {T U _ _} _.
Global Arguments own {T U _ _} _.

Section CapturedOps.
Context {T U : Type} `{Countable T}.
Local Abbreviation World := (World T (Captured T U)).
Local Abbreviation M := (M T (Captured T U)).
Local Abbreviation Sequence := (@Sequence T (Captured T U)).

(** [var set set]: a new captured variable, nil at first. *)
Definition newSet : M nat :=
  fun _ w =>
    Ok (length (sets (user w)))
       (mkWorld (cells w)
                (mkCaptured (sets (user w) ++ [None]) (flags (user w)) (own (user w)))).

Definition readSet (c : nat) : M (option (gset T)) :=
  fun _ w => Ok (default None (sets (user w) !! c)) w.

(** The world in which the captured set [c] holds [v]. *)
Definition setSet (c : nat) (v : gset T) (w : World) : World :=
  mkWorld (cells w)
          (mkCaptured (<[c := Some v]> (sets (user w))) (flags (user w)) (own (user w))).

Definition writeSet (c : nat) (v : gset T) : M unit :=
  fun _ w => Ok tt (setSet c v w).

(** [used := false]: a new captured boolean. *)
Definition newFlag : M nat :=
  fun _ w =>
    Ok (length (flags (user w)))
       (mkWorld (cells w)
                (mkCaptured (sets (user w)) (flags (user w) ++ [false]) (own (user w)))).

Definition readFlag (c : nat) : M bool :=
  fun _ w => Ok (default false (flags (user w) !! c)) w.

(** The world in which the captured boolean [c] holds [b]. *)
Definition setFlag (c : nat) (b : bool) (w : World) : World :=
  mkWorld (cells w)
          (mkCaptured (sets (user w)) (<[c := b]> (flags (user w))) (own (user w))).

Definition writeFlag (c : nat) (b : bool) : M unit :=
  fun _ w => Ok tt (setFlag c b w).

(** *** sequences.go: MakeOneTimeFunctionSequence *)

(** [func MakeOneTimeFunctionSequence(f IteratorFunc) Sequence]; the
    IteratorFunc [f] is its code [call] and the variables [f0] it has
    captured. *)
Definition oneTime_func {A E} (used : nat) (f0 : E)
    (call : E -> M (option A * E)) : SequenceFunc A :=
  mkSequenceFunc
    (let* u := readFlag used in
     if u : bool
     then panic "sequence already iterated"
     else let* _ := writeFlag used true in
          ret f0)
    call.

Definition MakeOneTimeFunctionSequence {A E} (f0 : E)
    (call : E -> M (option A * E)) : M (Sequence A) :=
  let* used := newFlag in
  ret (MakeFunctionSequence (oneTime_func used f0 call)).

(** [func FromIteratorFunction(f IteratorFunc) LINQ
       { return LINQ{MakeOneTimeFunctionSequence(f)} }] *)
Definition FromIteratorFunction {A E} (f0 : E)
    (call : E -> M (option A * E)) : M (Sequence A) :=
  MakeOneTimeFunctionSequence f0 call.

(** *** set.go: toSet, Except, Intersect *)

(** [func toSet(s Sequence) set]:
    [for i := s.Iterator(); i.Next(); { m[i.Current()] = nil }] *)
Definition toSet_body (s : Sequence T) (st : ISt s * gset T)
    : M (ISt s * gset T + gset T) :=
  let '(i, m) := st in
  let* (more, i') := Next s i in
  if more : bool
  then let* x := Current s i' in ret (inl (i', {[x]} ∪ m))
  else ret (inr m).

Definition toSet (s : Sequence T) : M (gset T) :=
  let* i := Iterator s in
  loop (toSet_body s) (i, ∅).

(** [if set == nil { set = toSet(except) }] *)
Definition lazySet (c : nat) (source : Sequence T) : M (gset T) :=
  let* v := readSet c in
  match v with
  | None => let* v := toSet source in
            let* _ := writeSet c v in
            ret v
  | Some v => ret v
  end.

(** [if !iter.Next() { return nil, false }
     else if item := iter.Current(); !set.contains(item) { return item, true }] *)
Definition except_body (s : Sequence T) (set : gset T) (iter : ISt s)
    : M (ISt s + option T * ISt s) :=
  let* (more, i') := Next s iter in
  if negb more
  then ret (inr (None, i'))
  else let* item := Current s i' in
       if negb (contains set item)
       then ret (inr (Some item, i'))
       else ret (inl i').

Definition Except_func (c : nat) (s except : Sequence T) : SequenceFunc T :=
  mkSequenceFunc (Iterator s)
    (fun iter =>
       let* set := lazySet c except in
       loop (except_body s set) iter).

(** [func (s LINQ) Except(sequences ...Sequence) LINQ] *)
Definition Except (s : Sequence T) (sequences : list (Sequence T)) : M (Sequence T) :=
  match sequences with
  | [] => ret s
  | first :: rest =>
      let except := if (1 <? length sequences)%nat
                    then concatSequence first rest
                    else first in
      let* set := newSet in
      ret (FromSequenceFunction (Except_func set s except))
  end.

(** [if !iter.Next() { return nil, false }
     else if item := iter.Current(); rset.contains(item) && lset.tryAdd(item) {
       return item, true }]: [tryAdd] is not called on an item that [rset]
    does not hold. *)
Definition intersect_body (s : Sequence T) (rset : gset T) (env : distinctEnv s)
    : M (distinctEnv s + option T * distinctEnv s) :=
  let* (more, i') := Next s (d_iter env) in
  if negb more
  then ret (inr (None, mkDistinctEnv i' (d_set env)))
  else let* item := Current s i' in
       if contains rset item
       then let (added, lset') := tryAdd (d_set env) item in
            if added : bool
            then ret (inr (Some item, mkDistinctEnv i' lset'))
            else ret (inl (mkDistinctEnv i' lset'))
       else ret (inl (mkDistinctEnv i' (d_set env))).

(** [func (s LINQ) Intersect(seq Sequence) LINQ]; the closure's variables
    [iter] and [lset] are those of [Distinct]'s. *)
Definition Intersect_func (c : nat) (s seq : Sequence T) : SequenceFunc T :=
  mkSequenceFunc
    (let* i := Iterator s in ret (mkDistinctEnv i (∅ : set)))
    (fun env =>
       let* rset := lazySet c seq in
       loop (intersect_body s rset) env).

Definition Intersect (s seq : Sequence T) : M (Sequence T) :=
  let* rset := newSet in
  ret (FromSequenceFunction (Intersect_func rset s seq)).
End CapturedOps.

(** Worlds with captured sets and flags: none, one nil set, one flag not
    yet set; and slices of integers iterated in such a world. *)
Definition wc0 : World Z (Captured Z unit) := mkWorld [] (mkCaptured [] [] tt).

Definition oneNilSet : World Z (Captured Z unit) :=
  mkWorld [] (mkCaptured [None] [] tt).

Definition oneFlag : World Z (Captured Z unit) :=
  mkWorld [] (mkCaptured [] [false] tt).

Definition FromItemsC (items : list Z) : @Sequence Z (Captured Z unit) Z :=
  TSequence items.

(** The IteratorFunc that counts down from its captured variable to 1. *)
Definition countdown (n : Z) : M Z (Captured Z unit) (option Z * Z) :=
  if 0 <? n then ret (Some n, n - 1) else ret (None, n).

(** ** concat.go: ordering by key *)

(** [type orderByData struct { keys, items []T; cmp LessThanFunc }] *)
Record orderByData (T : Type) := mkOrderByData {
  ob_keys : list T;
  ob_items : list T;
  ob_cmp : T -> T -> bool;
}.
Global Arguments mkOrderByData {T} _ _ _.
Global Arguments ob_keys {T} _.
Global Arguments ob_items {T} _.
Global Arguments ob_cmp {T} _.

(** Its [Len], [Less] and [Swap]: [Less] compares the keys, [Swap] swaps
    the items and then the keys. *)
#[export] Instance orderByData_Interface {T} : sort_Interface (orderByData T) := {
  Len d := length (ob_items d);
  Less d ai bi :=
    match ob_keys d !! ai, ob_keys d !! bi with
    | Some a, Some b => Some (ob_cmp d a b)
    | _, _ => None
    end;
  Swap d ai bi :=
    match swap_items (ob_items d) ai bi with
    | Some items' =>
        match swap_items (ob_keys d) ai bi with
        | Some keys' => Some (mkOrderByData keys' items' (ob_cmp d))
        | None => None
        end
    | None => None
    end;
}.

Section OrderBy.
Context {T U : Type}.
Local Abbreviation M := (M T U).
Local Abbreviation Sequence := (@Sequence T U).

Variable sort_Sort : nat -> sorter.
Variable GenericLessThan : T -> T -> bool.

(** [d.keys = make([]T, len(d.items))
     for ind, v := range d.items { d.keys[ind] = keySelector(v) }] *)
Fixpoint selectKeys (keySelector : T -> M T) (items : list T) : M (list T) :=
  match items with
  | [] => ret []
  | v :: rest =>
      let* k := keySelector v in
      let* keys := selectKeys keySelector rest in
      ret (k :: keys)
  end.

(** [var sorter sort.Interface = &d
     if reverse { sorter = sort.Reverse(sorter) }
     sort.Sort(sorter)] *)
Definition sort_orderByData (reverse : bool) (d : orderByData T)
    : option (orderByData T) :=
  if reverse
  then reverse_Interface <$> run_sorter (sort_Sort (Len (mkReverse d))) (mkReverse d)
  else run_sorter (sort_Sort (Len d)) d.

(** [func (s LINQ) OrderByPD(keySelector Selector, cmp LessThanFunc, reverse bool) LINQ];
    of the captured [d], [d.items] is the variable [d_items]; [d.keys] is
    made anew by the call that fills [d.items] and is nil after it. *)
Definition OrderByPD_func (keySelector : T -> M T) (cmp : T -> T -> bool)
    (reverse : bool) (d_items : nat) (s : Sequence T) : SequenceFunc T :=
  mkSequenceFunc (ret O)
    (fun index : nat =>
       let* buf := readSlice d_items in
       let* buf :=
         match buf with
         | None => let* v := ToSlice s in
                   let* _ := writeSlice d_items v in
                   let* keys := selectKeys keySelector v in
                   match sort_orderByData reverse (mkOrderByData keys v cmp) with
                   | Some d' => let* _ := writeSlice d_items (ob_items d') in
                                ret (ob_items d')
                   | None => panic "runtime error: index out of range"
                   end
         | Some v => ret v
         end in
       replay buf index).

Definition OrderByPD (keySelector : T -> M T) (cmp : option (T -> T -> bool))
    (reverse : bool) (s : Sequence T) : M (Sequence T) :=
  let cmp := match cmp with None => GenericLessThan | Some c => c end in
  let* d_items := newSlice in
  ret (FromSequenceFunction (OrderByPD_func keySelector cmp reverse d_items s)).

(** [func (s LINQ) OrderBy(keySelector Selector) LINQ
       { return s.OrderByPD(keySelector, nil, false) }] *)
Definition OrderBy (keySelector : T -> M T) (s : Sequence T) : M (Sequence T) :=
  OrderByPD keySelector None false s.

(** [func (s LINQ) OrderByP(keySelector Selector, cmp LessThanFunc) LINQ] *)
Definition OrderByP (keySelector : T -> M T) (cmp : option (T -> T -> bool))
    (s : Sequence T) : M (Sequence T) :=
  OrderByPD keySelector cmp false s.

(** [func (s LINQ) OrderByDescending(keySelector Selector) LINQ] *)
Definition OrderByDescending (keySelector : T -> M T) (s : Sequence T)
    : M (Sequence T) :=
  OrderByPD keySelector None true s.

(** [func (s LINQ) OrderByDescendingP(keySelector Selector, cmp LessThanFunc) LINQ] *)
Definition OrderByDescendingP (keySelector : T -> M T)
    (cmp : option (T -> T -> bool)) (s : Sequence T) : M (Sequence T) :=
  OrderByPD keySelector cmp true s.
End OrderBy.

(** The key selector [x%10] and one that panics on 0. *)
Definition lastDigit (x : Z) : M Z unit Z := ret (Z.rem x 10).

Definition reciprocalKey (x : Z) : M Z unit Z :=
  if x =? 0 then panic "division by zero" else ret (Z.quot 100 x).

(** ** aggregate.go: what a merge of sorted sequences computes *)

Section MergeSpecs.
Context {T U : Type}.
Local Abbreviation M := (M T U).

(** Handlers that have no effect other than their result. *)
Definition pureHandler1 (h : T -> option T) : T -> M (option T) :=
  fun v => ret (h v).

Definition pureHandler2 (h : T -> T -> option T) : T -> T -> M (option T) :=
  fun a b => ret (h a b).

Definition applyHandler1 (h : option (T -> option T)) (v : T) : option T :=
  match h with
  | Some h => h v
  | None => None
  end.

Definition applyHandler2 (h : option (T -> T -> option T)) (a b : T) : option T :=
  match h with
  | Some h => h a b
  | None => None
  end.

Definition emitted (r : option T) (rest : list T) : list T :=
  match r with
  | Some nv => nv :: rest
  | None => rest
  end.

(** The merge of two lists, round by round as [MergeP] makes it: [l] and
    [r] are what is left of the two sides, current items first. *)
Fixpoint mergeList (cmp : T -> T -> bool) (lo ro : option (T -> option T))
    (bo : option (T -> T -> option T)) (l : list T) : list T -> list T :=
  fix inner (r : list T) : list T :=
    match l, r with
    | lv :: l', rv :: r' =>
        if cmp lv rv then emitted (applyHandler1 lo lv) (mergeList cmp lo ro bo l' r)
        else if cmp rv lv then emitted (applyHandler1 ro rv) (inner r')
        else emitted (applyHandler2 bo lv rv) (mergeList cmp lo ro bo l' r')
    | lv :: l', [] =>
        if bool_decide (is_Some lo)
        then emitted (applyHandler1 lo lv) (mergeList cmp lo ro bo l' [])
        else []
    | [], rv :: r' =>
        if bool_decide (is_Some ro)
        then emitted (applyHandler1 ro rv) (inner r')
        else []
    | [], [] => []
    end.

(** Neither item is less than the other. *)
Definition equivalent (cmp : T -> T -> bool) (a b : T) : bool :=
  negb (cmp a b) && negb (cmp b a).

(** Sorted, and without two equivalent items: each item is less than the
    next. *)
Definition StrictlySorted (cmp : T -> T -> bool) (l : list T) : Prop :=
  Sorted (fun a b => cmp a b = true) l.
End MergeSpecs.

Section MergeSides.
Context {T U : Type}.
Local Abbreviation Sequence := (@Sequence T U).

(** One side of the merge: [ln] tells whether the side has a current item,
    and [l] is that item followed by what the iterator still gives. *)
Definition MergeAt (N : nat) (s : Sequence T) (i : ISt s) (ln : bool)
    (l : list T) : Prop :=
  match l with
  | [] => ln = false
  | lv :: l' => ln = true /\
                (forall w : World T U, evals (Current s i) w (Ok lv w)) /\
                exists i', PureRuns N s i l' i'
  end.
End MergeSides.

(** *** [ParallelForEach] with [threads < 0] on the items [l] of the source,
    with an action that panics on [x] *)

Section ParallelPanicRunSpecs.
Context {T U : Type}.
Local Abbreviation Sequence := (@Sequence T U).


End ParallelPanicRunSpecs.


(** * Proofs *)

(** ** Reasoning about computations *)

Section EvalLemmas.
Context {T U : Type}.
Local Abbreviation M := (M T U).
Local Abbreviation World := (World T U).
Implicit Types w : World.

Lemma evals_ret {X} (x : X) w : evals (ret x : M X) w (Ok x w).
Proof. exists O. reflexivity. Qed.

Lemma evals_panic {X} e w : evals (panic e : M X) w (Panic e w).
Proof. exists O. reflexivity. Qed.

Lemma evals_bind {X Y} (m : M X) (k : X -> M Y) w x w1 o :
  evals m w (Ok x w1) -> evals (k x) w1 o -> evals (bind m k) w o.
Proof.
  intros [n1 H1] [n2 H2]. exists (n1 `max` n2)%nat. intros n Hn.
  unfold bind. rewrite H1 by lia. apply H2. lia.
Qed.

Lemma evals_bind_panic {X Y} (m : M X) (k : X -> M Y) w e w1 :
  evals m w (Panic e w1) -> evals (bind m k) w (Panic e w1).
Proof.
  intros [n1 H1]. exists n1. intros n Hn. unfold bind. by rewrite H1.
Qed.

Lemma evals_loop_continue {S X} (body : S -> M (S + X)) s w s1 w1 o :
  evals (body s) w (Ok (inl s1) w1) ->
  evals (loop body s1) w1 o ->
  evals (loop body s) w o.
Proof.
  intros [n1 H1] [n2 H2]. exists (Datatypes.S (n1 `max` n2)). intros n Hn.
  destruct n as [|n]; [lia|]. simpl. rewrite H1 by lia. apply H2. lia.
Qed.

Lemma evals_loop_break {S X} (body : S -> M (S + X)) s w x w1 :
  evals (body s) w (Ok (inr x) w1) ->
  evals (loop body s) w (Ok x w1).
Proof.
  intros [n1 H1]. exists (Datatypes.S n1). intros n Hn.
  destruct n as [|n]; [lia|]. simpl. by rewrite H1 by lia.
Qed.

Lemma evals_loop_panic {S X} (body : S -> M (S + X)) s w e w1 :
  evals (body s) w (Panic e w1) ->
  evals (loop body s : M X) w (Panic e w1).
Proof.
  intros [n1 H1]. exists (Datatypes.S n1). intros n Hn.
  destruct n as [|n]; [lia|]. simpl. by rewrite H1 by lia.
Qed.

Lemma evals_det {X} (m : M X) w o1 o2 :
  evals m w o1 -> evals m w o2 -> o1 = o2.
Proof.
  intros [n1 H1] [n2 H2].
  rewrite <- (H1 (n1 `max` n2)%nat), <- (H2 (n1 `max` n2)%nat) by lia.
  reflexivity.
Qed.

Lemma evals_always {X} (m : M X) w o :
  (forall n, m n w = o) -> evals m w o.
Proof. intros Hm. exists O. auto. Qed.
End EvalLemmas.

(** Steps through a computation whose parts are known to evaluate. *)
Ltac eval_step :=
  lazymatch goal with
  | |- evals (ret _) _ _ => apply evals_ret
  | |- evals (panic _) _ _ => apply evals_panic
  | |- evals (bind _ _) _ _ =>
      first [ eapply evals_bind; [ first [ eassumption | apply evals_ret ] | simpl ]
            | eapply evals_bind_panic; first [ eassumption | apply evals_panic ] ]
  end.
Ltac eval_steps := repeat eval_step.

(** ** What a sequence yields: basic facts *)

Section Yields.
Context {T U : Type}.
Local Abbreviation M := (M T U).
Local Abbreviation World := (World T U).
Local Abbreviation Sequence := (@Sequence T U).
Local Abbreviation SequenceFunc := (@SequenceFunc T U).
Implicit Types w : World.

Lemma Calls_Runs {A} (sf : SequenceFunc A) e w l e' w' c :
  Calls sf e w l e' w' ->
  Runs (MakeFunctionSequence sf) (mkFunctionIterator e c) w l
       (mkFunctionIterator e' None) w'.
Proof.
  intros Hc. revert c. induction Hc; intros c.
  - apply Runs_nil. simpl. unfold functionIterator_Next. simpl. eval_steps.
  - eapply Runs_cons.
    + simpl. unfold functionIterator_Next. simpl. eval_steps.
    + simpl. apply evals_ret.
    + apply IHHc.
Qed.

Lemma Calls_Yields {A} (sf : SequenceFunc A) w e w0 l e' w' :
  evals (create sf) w (Ok e w0) ->
  Calls sf e w0 l e' w' ->
  Yields (MakeFunctionSequence sf) w l w'.
Proof.
  intros Hc Hl. eexists _, _, _. split.
  - simpl. unfold functionSequence_Iterator. eval_steps.
  - by apply Calls_Runs.
Qed.

(** A round of the closure's loop that goes round again changes nothing
    about what the closure returns from the next round on. *)
Lemma Calls_loop_continue {A Env0} (cr : M Env0)
    (body : Env0 -> M (Env0 + option A * Env0)) e w e1 w1 l e' w' :
  evals (body e) w (Ok (inl e1) w1) ->
  Calls (mkSequenceFunc cr (fun env => loop body env)) e1 w1 l e' w' ->
  Calls (mkSequenceFunc cr (fun env => loop body env)) e w l e' w'.
Proof.
  intros Hb Hc. inversion Hc; subst.
  - apply Calls_nil. simpl in *. by eapply evals_loop_continue.
  - eapply Calls_cons; [|eassumption]. simpl in *. by eapply evals_loop_continue.
Qed.

Lemma Round_loop {E X} (body : E -> M (E + X)) e w o :
  Round body (body e) w o -> evals (loop body e) w o.
Proof.
  intros [(x & w1 & Hm & ->)|(e1 & w1 & Hm & Hl)].
  - by apply evals_loop_break.
  - by eapply evals_loop_continue.
Qed.

Lemma Round_bind {E X Y} (body : E -> M (E + X)) (m : M Y) k w y w1 o :
  evals m w (Ok y w1) -> Round body (k y) w1 o -> Round body (bind m k) w o.
Proof.
  intros Hm [(x & w2 & Hk & ->)|(e1 & w2 & Hk & Hl)].
  - left. eexists _, _. split; [|done]. by eapply evals_bind.
  - right. eexists _, _. split; [|done]. by eapply evals_bind.
Qed.

Lemma Round_break {E X} (body : E -> M (E + X)) (m : M (E + X)) w x w1 :
  evals m w (Ok (inr x) w1) -> Round body m w (Ok x w1).
Proof. intros Hm. left. by eexists _, _. Qed.

Lemma Round_continue {E X} (body : E -> M (E + X)) (m : M (E + X)) w e1 w1 o :
  evals m w (Ok (inl e1) w1) -> evals (loop body e1) w1 o -> Round body m w o.
Proof. intros Hm Hl. right. by eexists _, _. Qed.

Lemma CallsVia_Calls {A E} (cr : M E) (body : E -> M (E + option A * E)) e w l e' w' :
  CallsVia cr body (body e) w l e' w' ->
  Calls (mkSequenceFunc cr (fun env => loop body env)) e w l e' w'.
Proof.
  destruct l as [|x l]; simpl.
  - intros Hr. apply Calls_nil. simpl. by apply Round_loop.
  - intros (e1 & w1 & Hr & Hc). eapply Calls_cons; [|exact Hc].
    simpl. by apply Round_loop.
Qed.

Lemma CallsVia_bind {A E Y} (cr : M E) (body : E -> M (E + option A * E))
    (m : M Y) k w y w1 l e' w' :
  evals m w (Ok y w1) ->
  CallsVia cr body (k y) w1 l e' w' ->
  CallsVia cr body (bind m k) w l e' w'.
Proof.
  intros Hm. destruct l as [|x l]; simpl.
  - by apply Round_bind.
  - intros (e1 & w2 & Hr & Hc). eexists _, _. split; [|exact Hc].
    by eapply Round_bind.
Qed.

(** Going round again hands over to the closure as it then is. *)
Lemma CallsVia_continue {A E} (cr : M E) (body : E -> M (E + option A * E))
    (m : M (E + option A * E)) w e1 w1 l e' w' :
  evals m w (Ok (inl e1) w1) ->
  Calls (mkSequenceFunc cr (fun env => loop body env)) e1 w1 l e' w' ->
  CallsVia cr body m w l e' w'.
Proof.
  intros Hm Hc. inversion Hc; subst; simpl in *.
  - by eapply Round_continue.
  - eexists _, _. split; [|eassumption]. by eapply Round_continue.
Qed.

Lemma CallsVia_item {A E} (cr : M E) (body : E -> M (E + option A * E))
    (m : M (E + option A * E)) w x e1 w1 l e' w' :
  evals m w (Ok (inr (Some x, e1)) w1) ->
  Calls (mkSequenceFunc cr (fun env => loop body env)) e1 w1 l e' w' ->
  CallsVia cr body m w (x :: l) e' w'.
Proof.
  intros Hm Hc. simpl. eexists _, _. split; [|exact Hc]. by apply Round_break.
Qed.

Lemma CallsVia_end {A E} (cr : M E) (body : E -> M (E + option A * E))
    (m : M (E + option A * E)) w e' w' :
  evals m w (Ok (inr (None, e')) w') ->
  CallsVia cr body m w [] e' w'.
Proof. intros Hm. simpl. by apply Round_break. Qed.

(** [ToSlice] collects what the sequence yields. *)
Lemma ToSlice_loop_Runs {A} (s : Sequence A) i w l i' w' acc :
  Runs s i w l i' w' ->
  evals (loop (fun st : ISt s * list A =>
                 let '(i, items) := st in
                 let* (more, i') := Next s i in
                 if more : bool
                 then let* x := Current s i' in ret (inl (i', items ++ [x]))
                 else ret (inr items))
              (i, acc)) w (Ok (acc ++ l) w').
Proof.
  intros Hr. revert acc. induction Hr; intros acc.
  - rewrite app_nil_r. apply evals_loop_break. eval_steps.
  - eapply evals_loop_continue.
    + eval_steps.
    + replace (acc ++ x :: l) with ((acc ++ [x]) ++ l)
        by (by rewrite <- app_assoc).
      apply IHHr.
Qed.

Lemma Yields_ToSlice {A} (s : Sequence A) w l w' :
  Yields s w l w' -> evals (ToSlice s) w (Ok l w').
Proof.
  intros (i0 & w0 & i' & Hi & Hr). unfold ToSlice.
  eapply evals_bind; [exact Hi|]. apply (ToSlice_loop_Runs s i0 w0 l i' w' []), Hr.
Qed.

(** A slice yields its elements and leaves the world alone. *)
Lemma TSequence_Runs {A} (pre l : list A) w :
  Runs (TSequence (pre ++ l)) (mkTIterator (pre ++ l) (Z.of_nat (length pre) - 1)) w
       l (mkTIterator (pre ++ l) (Z.of_nat (length (pre ++ l)) - 1)) w.
Proof.
  revert pre. induction l as [|x l IH]; intros pre.
  - apply Runs_nil. simpl. unfold tIterator_Next. simpl.
    rewrite app_nil_r.
    destruct (Z.ltb_spec (Z.of_nat (length pre) - 1 + 1) (Z.of_nat (length pre))); [lia|].
    apply evals_ret.
  - eapply Runs_cons.
    + simpl. unfold tIterator_Next. simpl.
      destruct (Z.ltb_spec (Z.of_nat (length pre) - 1 + 1)
                  (Z.of_nat (length (pre ++ x :: l)))) as [_|Hge].
      * apply evals_ret.
      * rewrite length_app in Hge. simpl in Hge. lia.
    + simpl. unfold tIterator_Current, slice_index. simpl.
      replace (Z.of_nat (length pre) - 1 + 1) with (Z.of_nat (length pre)) by lia.
      destruct (Z.leb_spec 0 (Z.of_nat (length pre))); [|lia].
      rewrite Nat2Z.id, lookup_app_r, Nat.sub_diag by lia. simpl.
      apply evals_ret.
    + specialize (IH (pre ++ [x])).
      rewrite <- app_assoc in IH. simpl in IH.
      replace (Z.of_nat (length pre) - 1 + 1)
        with (Z.of_nat (length (pre ++ [x])) - 1)
        by (rewrite length_app; simpl; lia).
      exact IH.
Qed.

Lemma TSequence_Yields {A} (l : list A) w : Yields (TSequence l) w l w.
Proof.
  eexists _, _, _. split; [apply evals_ret|]. apply (TSequence_Runs [] l w).
Qed.
End Yields.

(** ** set.go: Distinct *)

Section DistinctProofs.
Context {T U : Type} `{Countable T}.
Local Abbreviation M := (M T U).
Local Abbreviation World := (World T U).
Local Abbreviation Sequence := (@Sequence T U).
Implicit Types w : World.
Implicit Types l : list T.

Lemma distinct_from_filter (seen : gset T) l :
  distinct_from seen l = filter (fun y => y ∉ seen) (first_occurrences l).
Proof.
  revert seen. induction l as [|x l IH]; intros seen; [done|].
  simpl. rewrite filter_cons. destruct (decide (x ∈ seen)) as [Hin|Hout].
  - rewrite decide_False by (intros Hn; by apply Hn).
    rewrite IH, list_filter_filter. apply list_filter_iff.
    intros y. split; [|tauto]. intros Hy. split; [done|]. by intros ->.
  - rewrite decide_True by done. f_equal.
    rewrite IH, list_filter_filter. apply list_filter_iff.
    intros y. set_solver.
Qed.

Lemma distinct_from_empty l : distinct_from ∅ l = first_occurrences l.
Proof.
  rewrite distinct_from_filter. induction (first_occurrences l) as [|x l' IH]; [done|].
  rewrite filter_cons, decide_True by set_solver. by rewrite IH.
Qed.

Lemma first_occurrences_elem_of l x : x ∈ first_occurrences l <-> x ∈ l.
Proof.
  induction l as [|y l IH]; [done|]. simpl.
  rewrite !elem_of_cons, list_elem_of_filter, IH.
  destruct (decide (x = y)); naive_solver.
Qed.

Lemma first_occurrences_NoDup l : NoDup (first_occurrences l).
Proof.
  induction l as [|y l IH]; simpl; constructor.
  - rewrite list_elem_of_filter. naive_solver.
  - by apply NoDup_filter.
Qed.

Lemma first_occurrences_sublist l : first_occurrences l `sublist_of` l.
Proof.
  induction l as [|y l IH]; simpl; [done|].
  apply sublist_skip. etrans; [apply sublist_filter|done].
Qed.

Lemma first_occurrences_NoDup_id l : NoDup l -> first_occurrences l = l.
Proof.
  induction 1 as [|x l Hx Hl IH]; simpl; [done|]. rewrite IH. f_equal.
  clear IH Hl. induction l as [|y l IH]; [done|].
  rewrite filter_cons_True by (intros ->; apply Hx; left).
  f_equal. apply IH. intros Hin. apply Hx. by right.
Qed.

Lemma first_occurrences_idemp l :
  first_occurrences (first_occurrences l) = first_occurrences l.
Proof. apply first_occurrences_NoDup_id, first_occurrences_NoDup. Qed.

(** The closure of [Distinct], started with the set [seen], returns the
    items of the upstream that are new to it. *)
Lemma Distinct_Calls (s : Sequence T) i w l i' w' (seen : gset T) :
  Runs s i w l i' w' ->
  exists seen',
    Calls (mkSequenceFunc
             (let* i := Iterator s in ret (mkDistinctEnv i (∅ : set)))
             (fun env => loop distinct_body env))
          (mkDistinctEnv i seen) w (distinct_from seen l)
          (mkDistinctEnv i' seen') w'.
Proof.
  intros Hr. revert seen. induction Hr as [i w i' w' Hn|i w i1 w1 x w2 l i' w' Hn Hc Hr IH];
    intros seen.
  - exists seen. apply Calls_nil. simpl. apply evals_loop_break.
    unfold distinct_body. simpl. eval_steps.
  - simpl. destruct (decide (x ∈ seen)) as [Hin|Hout].
    + destruct (IH seen) as [seen' IH']. exists seen'.
      eapply Calls_loop_continue; [|exact IH'].
      unfold distinct_body. simpl. eval_steps.
      unfold tryAdd. rewrite bool_decide_eq_true_2 by done. simpl. apply evals_ret.
    + destruct (IH ({[x]} ∪ seen)) as [seen' IH']. exists seen'.
      eapply Calls_cons; [|exact IH'].
      simpl. apply evals_loop_break.
      unfold distinct_body. simpl. eval_steps.
      unfold tryAdd. rewrite bool_decide_eq_false_2 by done. simpl. apply evals_ret.
Qed.

Lemma Distinct_Yields (s : Sequence T) w l w' :
  Yields s w l w' -> Yields (Distinct s) w (first_occurrences l) w'.
Proof.
  intros (i0 & w0 & i' & Hi & Hr).
  destruct (Distinct_Calls s i0 w0 l i' w' ∅ Hr) as [seen' Hc].
  rewrite distinct_from_empty in Hc.
  unfold Distinct, FromSequenceFunction.
  eapply Calls_Yields; [|exact Hc]. simpl. eval_steps.
Qed.
End DistinctProofs.

(** ** concat.go: Concat *)

Section ConcatProofs.
Context {T U : Type} {A : Type}.
Local Abbreviation M := (M T U).
Local Abbreviation World := (World T U).
Local Abbreviation Sequence := (@Sequence T U).
Implicit Types w : World.
Implicit Types l : list A.

Local Abbreviation concat_func seq sequences :=
  (mkSequenceFunc
     (let* i := Iterator seq in
      ret (@mkConcatEnv T U A seq sequences (Some (existT O i)) O))
     (fun env => loop concat_body env)).

(** While the closure holds an iterator, it passes that iterator's items
    on and then behaves as it does without one. *)
Lemma concat_advance_Calls (seq : Sequence A) sequences k i w l i' w1 idx rest e' w' :
  Runs (seq_at seq sequences k) i w l i' w1 ->
  Calls (concat_func seq sequences) (mkConcatEnv None idx) w1 rest e' w' ->
  CallsVia (create (concat_func seq sequences)) concat_body
           (concat_advance k i idx) w (l ++ rest) e' w'.
Proof.
  intros Hr Hrest.
  induction Hr as [i w i' w1 Hn|i w i1 w1' x w2 l i' w1 Hn Hc Hr IH].
  - simpl. eapply CallsVia_continue; [|exact Hrest].
    unfold concat_advance. eval_steps.
  - simpl. eapply CallsVia_item.
    + unfold concat_advance. eval_steps.
    + apply CallsVia_Calls. unfold concat_body at 2. simpl. by apply IH.
Qed.

Lemma concat_rest_Calls (seq : Sequence A) sequences idx w ls w' :
  YieldsAll (drop idx sequences) w ls w' ->
  exists e', Calls (concat_func seq sequences) (mkConcatEnv None idx) w (concat ls) e' w'.
Proof.
  remember (drop idx sequences) as ss eqn:Hss. intros Hy. revert idx Hss.
  induction Hy as [w|s ss w l w1 ls w' Hs Hy IH]; intros idx Hss.
  - eexists. apply Calls_nil. simpl. apply evals_loop_break.
    unfold concat_body. simpl.
    assert (length sequences <= idx)%nat as Hle.
    { destruct (decide (length sequences <= idx)%nat) as [|Hn]; [done|].
      assert (length (drop idx sequences) = 0%nat) as Hd by by rewrite <- Hss.
      rewrite length_drop in Hd. lia. }
    apply Nat.leb_le in Hle. rewrite Hle. apply evals_ret.
  - assert (idx < length sequences)%nat as Hlt.
    { destruct (decide (idx < length sequences)%nat) as [|Hn]; [done|].
      rewrite drop_ge in Hss by lia. done. }
    assert (nth idx sequences seq = s /\ drop (Datatypes.S idx) sequences = ss)
      as [Hnth Hdrop].
    { clear -Hss Hlt. revert idx Hss Hlt.
      induction sequences as [|s0 sequences IHs]; intros [|idx] Hss Hlt;
        simpl in *; try lia.
      - by inversion Hss.
      - apply IHs; [done|lia]. }
    destruct (IH (Datatypes.S idx)) as [e' IH']; [done|]. exists e'.
    destruct Hs as (i0 & w0 & i' & Hi & Hr). subst s.
    apply CallsVia_Calls. unfold concat_body. simpl.
    apply Nat.leb_gt in Hlt. rewrite Hlt.
    eapply CallsVia_bind; [exact Hi|].
    eapply concat_advance_Calls; [exact Hr|exact IH'].
Qed.

Lemma concatSequence_Yields (seq : Sequence A) sequences w l w1 ls w' :
  Yields seq w l w1 ->
  YieldsAll sequences w1 ls w' ->
  Yields (concatSequence seq sequences) w (l ++ concat ls) w'.
Proof.
  intros (i0 & w0 & i' & Hi & Hr) Hy.
  destruct (concat_rest_Calls seq sequences 0 w1 ls w' Hy) as [e' Hrest].
  unfold concatSequence. eapply Calls_Yields.
  - simpl. eval_steps.
  - apply CallsVia_Calls. unfold concat_body. simpl.
    eapply (concat_advance_Calls seq sequences O); [exact Hr|exact Hrest].
Qed.

Lemma YieldsAll_nil_inv w (ls : list (list A)) w' :
  YieldsAll (@nil (Sequence A)) w ls w' -> ls = [] /\ w' = w.
Proof. by inversion 1. Qed.

(** [Concat]: the items of the receiver, then those of each argument. *)
Lemma Concat_Yields (s : Sequence A) sequences w l w1 ls w' :
  Yields s w l w1 ->
  YieldsAll sequences w1 ls w' ->
  Yields (Concat s sequences) w (l ++ concat ls) w'.
Proof.
  intros Hs Hy. unfold Concat. destruct sequences as [|s1 sequences]; simpl.
  - apply YieldsAll_nil_inv in Hy as [-> ->]. simpl. by rewrite app_nil_r.
  - by eapply concatSequence_Yields.
Qed.
End ConcatProofs.

(** ** set.go: the claims about Distinct and Union *)

Section SetClaims.
Context {T U : Type} `{Countable T}.
Local Abbreviation World := (World T U).
Local Abbreviation Sequence := (@Sequence T U).
Implicit Types w : World.
Implicit Types l : list T.

Lemma first_occurrences_app l1 l2 :
  first_occurrences (l1 ++ l2)
  = first_occurrences l1 ++ filter (fun y => y ∉ l1) (first_occurrences l2).
Proof.
  induction l1 as [|x l1 IH]; simpl.
  - symmetry. induction (first_occurrences l2) as [|y l' IH']; [done|].
    rewrite filter_cons_True by apply not_elem_of_nil. by rewrite IH'.
  - f_equal. rewrite IH, filter_app. f_equal.
    rewrite list_filter_filter. apply list_filter_iff.
    intros y. rewrite elem_of_cons. naive_solver.
Qed.

Lemma first_at_positions_filter pre l :
  first_at_positions pre l = filter (fun y => y ∉ pre) (first_occurrences l).
Proof.
  revert pre. induction l as [|x l IH]; intros pre; [done|].
  simpl. rewrite filter_cons, IH, list_filter_filter.
  assert (filter (fun y => y ∉ pre ++ [x]) (first_occurrences l)
          = filter (fun y => y ∉ pre /\ y <> x) (first_occurrences l)) as ->.
  { apply list_filter_iff. intros y. rewrite elem_of_app, list_elem_of_singleton.
    tauto. }
  destruct (decide (x ∈ pre)) as [Hin|Hout].
  - by rewrite decide_False by (intros Hn; by apply Hn).
  - by rewrite decide_True by done.
Qed.

Lemma first_at_positions_nil l : first_at_positions [] l = first_occurrences l.
Proof.
  rewrite first_at_positions_filter.
  induction (first_occurrences l) as [|y l' IH']; [done|].
  rewrite filter_cons_True by apply not_elem_of_nil. by rewrite IH'.
Qed.

(** C7.  A finite sequence that yields [l] has a [Distinct] that yields the
    first occurrences of [l]: the items at the positions before which they
    do not occur, so no item twice, every item of [l] once, in the order of
    [l]; and the [Distinct] of that yields the same again. *)
Theorem Distinct_first_occurrences_idempotent (s : Sequence T) w l w' :
  Yields s w l w' ->
  evals (ToSlice (Distinct s)) w (Ok (first_occurrences l) w') /\
  evals (ToSlice (Distinct (Distinct s))) w (Ok (first_occurrences l) w') /\
  first_occurrences l = first_at_positions [] l /\
  NoDup (first_occurrences l) /\
  (forall x, x ∈ first_occurrences l <-> x ∈ l) /\
  first_occurrences l `sublist_of` l.
Proof.
  intros Hs. repeat split.
  - by apply Yields_ToSlice, Distinct_Yields.
  - rewrite <- (first_occurrences_idemp l) at 1.
    by apply Yields_ToSlice, Distinct_Yields, Distinct_Yields.
  - by rewrite first_at_positions_nil.
  - apply first_occurrences_NoDup.
  - by apply first_occurrences_elem_of.
  - by apply first_occurrences_elem_of.
  - apply first_occurrences_sublist.
Qed.

(** What does hold of [Union]: with at least one argument sequence it
    yields what [Distinct] of the concatenation yields, the first
    occurrences of all the items in order; with none it is the receiver
    itself. *)
Theorem Union_Distinct_Concat (s : Sequence T) sequences w l w1 ls w' :
  Yields s w l w1 ->
  YieldsAll sequences w1 ls w' ->
  (sequences <> [] ->
   evals (ToSlice (Union s sequences)) w
         (Ok (first_occurrences (l ++ concat ls)) w') /\
   evals (ToSlice (Distinct (Concat s sequences))) w
         (Ok (first_occurrences (l ++ concat ls)) w')) /\
  Union s [] = s.
Proof.
  intros Hs Hy. split; [|reflexivity]. intros Hne.
  assert (Union s sequences = Distinct (Concat s sequences)) as ->.
  { unfold Union. by destruct sequences. }
  split; eapply Yields_ToSlice, Distinct_Yields, Concat_Yields; eassumption.
Qed.
End SetClaims.

Lemma Distinct_first_occurrences_idempotent_witness :
  Yields (FromItems [3; 1; 3; 2; 1]) w0 [3; 1; 3; 2; 1] w0 /\
  evals (ToSlice (Distinct (FromItems [3; 1; 3; 2; 1]))) w0 (Ok [3; 1; 2] w0) /\
  evals (ToSlice (Distinct (Distinct (FromItems [3; 1; 3; 2; 1])))) w0 (Ok [3; 1; 2] w0).
Proof.
  split; [apply TSequence_Yields|].
  pose proof (Distinct_first_occurrences_idempotent
                (FromItems [3; 1; 3; 2; 1]) w0 [3; 1; 3; 2; 1] w0
                (TSequence_Yields _ _)) as (H1 & H2 & _).
  split; [exact H1|exact H2].
Defined.

Lemma Union_Distinct_Concat_witness :
  Yields (FromItems [1; 2; 1]) w0 [1; 2; 1] w0 /\
  YieldsAll [FromItems [2; 3]] w0 [[2; 3]] w0 /\
  [FromItems [2; 3]] <> [] /\
  evals (ToSlice (Union (FromItems [1; 2; 1]) [FromItems [2; 3]])) w0
        (Ok [1; 2; 3] w0).
Proof.
  assert (YieldsAll [FromItems [2; 3]] w0 [[2; 3]] w0) as Hy.
  { eapply YieldsAll_cons; [apply TSequence_Yields|apply YieldsAll_nil]. }
  split; [apply TSequence_Yields|]. split; [exact Hy|]. split; [discriminate|].
  destruct (Union_Distinct_Concat (FromItems [1; 2; 1]) [FromItems [2; 3]]
              w0 [1; 2; 1] w0 [[2; 3]] w0 (TSequence_Yields _ _) Hy)
    as [HU _].
  destruct HU as [HU _]; [discriminate|]. exact HU.
Defined.

(** C3.  [Union] is to yield what [Distinct] of the concatenation yields,
    also without arguments, and its comment says that duplicates of the
    receiver are removed.  Without arguments the code returns the receiver:
    [Union()] of [[1; 1]] yields both items, where [Distinct] of the
    concatenation yields one. *)
Theorem Union_no_arguments_keeps_duplicates :
  evals (ToSlice (Union (FromItems [1; 1]) [])) w0 (Ok [1; 1] w0) /\
  evals (ToSlice (Distinct (Concat (FromItems [1; 1]) []))) w0 (Ok [1] w0) /\
  ~ evals (ToSlice (Union (FromItems [1; 1]) [])) w0 (Ok [1] w0).
Proof.
  assert (evals (ToSlice (Union (FromItems [1; 1]) [])) w0 (Ok [1; 1] w0)) as HU.
  { apply Yields_ToSlice. apply (TSequence_Yields [1; 1] w0). }
  split; [exact HU|]. split.
  - apply Yields_ToSlice.
    replace [1] with (first_occurrences [1; 1]) by (vm_compute; reflexivity).
    apply (Distinct_Yields (FromItems [1; 1]) w0 [1; 1] w0), TSequence_Yields.
  - intros HU'. pose proof (evals_det _ _ _ _ HU HU') as Heq. discriminate.
Qed.

(** ** The iterator protocol *)

Section Protocol.
Context {T U : Type}.
Local Abbreviation M := (M T U).
Local Abbreviation World := (World T U).
Local Abbreviation Sequence := (@Sequence T U).
Local Abbreviation SequenceFunc := (@SequenceFunc T U).
Implicit Types w : World.

Lemma evals_ret_inv {X} (x y : X) w w' : evals (ret x : M X) w (Ok y w') -> x = y /\ w = w'.
Proof. intros [n Hn]. specialize (Hn n (Nat.le_refl _)). by inversion Hn. Qed.

Lemma evals_ret_not_panic {X} (x : X) w e w' : ~ evals (ret x : M X) w (Panic e w').
Proof. intros [n Hn]. specialize (Hn n (Nat.le_refl _)). by inversion Hn. Qed.

Lemma evals_panic_not_ok {X} e (x : X) w w' : ~ evals (panic e : M X) w (Ok x w').
Proof. intros [n Hn]. specialize (Hn n (Nat.le_refl _)). by inversion Hn. Qed.

(** Function-backed iterators: [valid] is false on a fresh iterator and
    after a [Next] that returned false. *)
Lemma functionIterator_fresh {A} (sf : SequenceFunc A) w i w' :
  evals (Iterator (MakeFunctionSequence sf)) w (Ok i w') -> cur i = None.
Proof.
  intros [n Hn]. specialize (Hn n (Nat.le_refl _)). simpl in Hn.
  unfold functionSequence_Iterator, bind in Hn.
  destruct (create sf n w); [|done..]. unfold ret in Hn. by inversion Hn.
Qed.

Lemma functionIterator_Next_false {A} (sf : SequenceFunc A) i w i' w' :
  evals (Next (MakeFunctionSequence sf) i) w (Ok (false, i') w') -> cur i' = None.
Proof.
  intros [n Hn]. specialize (Hn n (Nat.le_refl _)). simpl in Hn.
  unfold functionIterator_Next, bind in Hn.
  destruct (call sf (f i) n w) as [[c f'] w1| |]; [|done..].
  unfold ret, valid in Hn. simpl in Hn. inversion Hn; subst.
  simpl. by destruct c.
Qed.

Lemma functionIterator_invalid_Current {A} (sf : SequenceFunc A)
    (i : ISt (MakeFunctionSequence sf)) :
  cur i = None ->
  CurrentPanics (MakeFunctionSequence sf) i "Current called outside sequence".
Proof. intros Hc n w. simpl. unfold functionIterator_Current. by rewrite Hc. Qed.

Lemma functionIterator_NotStarted {A} (sf : SequenceFunc A) i :
  NotStarted (MakeFunctionSequence sf) i -> cur i = None.
Proof.
  destruct 1.
  - by eapply functionIterator_fresh.
  - by eapply functionIterator_Next_false.
Qed.

(** Array-backed iterators: [index] stays -1 until [Next] returns true, and
    a [Next] that returns false leaves the iterator as it was. *)
Lemma tIterator_Next_false {A} (i : tIterator A) w i' w' :
  evals (tIterator_Next i) w (Ok (false, i') w') -> i' = i.
Proof.
  unfold tIterator_Next. simpl. destruct (_ <? _).
  - intros Hn. apply evals_ret_inv in Hn as [Hn _]. by inversion Hn.
  - intros Hn. apply evals_ret_inv in Hn as [Hn _]. by inversion Hn.
Qed.

Lemma TSequence_NotStarted {A} (l : list A) i :
  NotStarted (TSequence l : Sequence A) i -> index i = -1.
Proof.
  induction 1 as [w i w' Hi|i w i' w' _ IH Hn].
  - simpl in Hi. apply evals_ret_inv in Hi as [<- _]. done.
  - simpl in Hn. apply tIterator_Next_false in Hn. by subst.
Qed.

Lemma genericArraySequence_NotStarted {A} (l : list A) i :
  NotStarted (genericArraySequence l : Sequence A) i -> index i = -1.
Proof.
  induction 1 as [w i w' Hi|i w i' w' _ IH Hn].
  - simpl in Hi. apply evals_ret_inv in Hi as [<- _]. done.
  - simpl in Hn. apply (tIterator_Next_false i w i' w') in Hn. by subst.
Qed.

(** Map-backed iterators: [reflect.MapIter] is fresh or exhausted. *)
Lemma MapIter_Next_false {K V} (i : MapIter K V) w i' w' :
  evals (MapIter_Next i) w (Ok (false, i') w') -> i' = MapIter_exhausted.
Proof.
  destruct i as [entries|k v rest|]; simpl.
  - intros Hn. apply evals_ret_inv in Hn as [Hn _].
    destruct entries as [|[k v] rest]; by inversion Hn.
  - intros Hn. apply evals_ret_inv in Hn as [Hn _].
    destruct rest as [|[k' v'] rest]; by inversion Hn.
  - intros Hn. by apply evals_panic_not_ok in Hn.
Qed.

Lemma genericMapSequence_NotStarted `{Countable K} {V} (m : gmap K V) i :
  NotStarted (genericMapSequence m : Sequence (Pair K V)) i ->
  (exists entries, i = MapIter_fresh entries) \/ i = MapIter_exhausted.
Proof.
  destruct 1 as [w i w' Hi|i w i' w' _ Hn].
  - left. simpl in Hi. apply evals_ret_inv in Hi as [<- _]. by eexists.
  - right. simpl in Hn. by apply (MapIter_Next_false i w i' w').
Qed.

(** What does hold of [Current] out of protocol: that of a
    function-backed iterator panics with "Current called outside sequence"
    and that of a map-backed iterator panics in [reflect.MapIter]; that of
    an array-backed iterator panics with an index out of range as long as
    [Next] has not returned true, while a [Next] that returns false leaves
    an array-backed iterator on the item it was on. *)
Theorem Current_out_of_protocol :
  (forall A (sf : SequenceFunc A) i,
     NotStarted (MakeFunctionSequence sf) i \/ Ended (MakeFunctionSequence sf) i ->
     CurrentPanics (MakeFunctionSequence sf) i "Current called outside sequence") /\
  (forall K `(Countable K) V (m : gmap K V) i,
     NotStarted (genericMapSequence m : Sequence (Pair K V)) i \/ Ended (genericMapSequence m : Sequence (Pair K V)) i ->
     CurrentPanics (genericMapSequence m : Sequence (Pair K V)) i "MapIter.Key called before Next" \/
     CurrentPanics (genericMapSequence m : Sequence (Pair K V)) i "MapIter.Key called on exhausted iterator") /\
  (forall A (l : list A) i,
     NotStarted (TSequence l : Sequence A) i ->
     CurrentPanics (TSequence l : Sequence A) i "runtime error: index out of range") /\
  (forall A (l : list A) i,
     NotStarted (genericArraySequence l : Sequence A) i ->
     CurrentPanics (genericArraySequence l : Sequence A) i "reflect: slice index out of range") /\
  (forall A (l : list A) i w i' w',
     evals (Next (TSequence l : Sequence A) i) w (Ok (false, i') w') -> i' = i) /\
  (forall A (l : list A) i w i' w',
     evals (Next (genericArraySequence l : Sequence A) i) w (Ok (false, i') w') -> i' = i).
Proof.
  repeat split.
  - intros A sf i [Hi|Hi]; apply functionIterator_invalid_Current.
    + by apply functionIterator_NotStarted.
    + destruct Hi. by eapply functionIterator_Next_false.
  - intros K ? ? V m i [Hi|Hi].
    + apply genericMapSequence_NotStarted in Hi as [[entries ->]| ->].
      * left. intros n w. reflexivity.
      * right. intros n w. reflexivity.
    + destruct Hi as [i w i' w' Hn]. right.
      apply (MapIter_Next_false i w i' w') in Hn. subst. intros n w0. reflexivity.
  - intros A l i Hi n w. apply TSequence_NotStarted in Hi.
    simpl. unfold tIterator_Current, slice_index. by rewrite Hi.
  - intros A l i Hi n w. apply genericArraySequence_NotStarted in Hi.
    simpl. unfold genericArrayIterator_Current, slice_index. by rewrite Hi.
  - intros A l i w i' w' Hn. by eapply tIterator_Next_false.
  - intros A l i w i' w' Hn. by eapply (tIterator_Next_false i w i' w').
Qed.
End Protocol.

(** C1.  [Current] is to panic once [Next] has returned false, as
    [functionIterator.Current] does.  The array-backed iterators miss that
    case: on [[7]], after [Next] has returned true and then false, [Current]
    of a [tIterator] and of a [genericArrayIterator] returns 7. *)
Theorem tIterator_Current_after_end :
  (exists i0 i1 i2,
     evals (Iterator (FromItems [7])) w0 (Ok i0 w0) /\
     evals (Next (FromItems [7]) i0) w0 (Ok (true, i1) w0) /\
     evals (Next (FromItems [7]) i1) w0 (Ok (false, i2) w0) /\
     Ended (FromItems [7]) i2 /\
     evals (Current (FromItems [7]) i2) w0 (Ok 7 w0) /\
     ~ (exists e, CurrentPanics (FromItems [7]) i2 e)) /\
  (exists i0 i1 i2,
     evals (Iterator (FromArray [7])) w0 (Ok i0 w0) /\
     evals (Next (FromArray [7]) i0) w0 (Ok (true, i1) w0) /\
     evals (Next (FromArray [7]) i1) w0 (Ok (false, i2) w0) /\
     Ended (FromArray [7]) i2 /\
     evals (Current (FromArray [7]) i2) w0 (Ok 7 w0) /\
     ~ (exists e, CurrentPanics (FromArray [7]) i2 e)).
Proof.
  split.
  - exists (mkTIterator [7] (-1)), (mkTIterator [7] 0), (mkTIterator [7] 0).
    assert (evals (Next (FromItems [7]) (mkTIterator [7] 0)) w0
                  (Ok (false, mkTIterator [7] 0) w0)) as Hn by apply evals_ret.
    split; [apply evals_ret|]. split; [apply evals_ret|]. split; [exact Hn|].
    split; [exact (Ended_false _ _ _ _ _ Hn)|]. split; [apply evals_ret|].
    intros [e He]. specialize (He O w0). discriminate.
  - exists (mkTIterator [7] (-1)), (mkTIterator [7] 0), (mkTIterator [7] 0).
    assert (evals (Next (FromArray [7]) (mkTIterator [7] 0)) w0
                  (Ok (false, mkTIterator [7] 0) w0)) as Hn by apply evals_ret.
    split; [apply evals_ret|]. split; [apply evals_ret|]. split; [exact Hn|].
    split; [exact (Ended_false _ _ _ _ _ Hn)|]. split; [apply evals_ret|].
    intros [e He]. specialize (He O w0). discriminate.
Qed.

Lemma Current_out_of_protocol_witness :
  NotStarted (FromItems [7]) (mkTIterator [7] (-1)) /\
  CurrentPanics (FromItems [7]) (mkTIterator [7] (-1))
                "runtime error: index out of range".
Proof.
  assert (NotStarted (FromItems [7]) (mkTIterator [7] (-1))) as Hs.
  { apply (NotStarted_fresh (FromItems [7]) w0 _ w0). apply evals_ret. }
  split; [exact Hs|].
  destruct (@Current_out_of_protocol Z unit) as (_ & _ & Ht & _).
  exact (Ht Z [7] _ Hs).
Defined.

(** ** parallel.go *)

Section ParallelProofs.
Context {T U : Type}.
Local Abbreviation M := (M T U).
Local Abbreviation World := (World T U).
Local Abbreviation Sequence := (@Sequence T U).
Implicit Types w : World.
Implicit Types l : list T.

Variable N : nat.
Variable act : T -> World -> World.
Variable action : T -> M unit.
Variable s : Sequence T.
Variable w : World.
Variable l : list T.
Hypothesis Haction : ActionReturns N action act l.








End ParallelProofs.

(** A slice is a pure source. *)
Lemma TSequence_PureRuns {U A} (pre l : list A) :
  PureRuns (T:=A) (U:=U) 0 (TSequence (pre ++ l))
           (mkTIterator (pre ++ l) (Z.of_nat (length pre) - 1))
           l (mkTIterator (pre ++ l) (Z.of_nat (length (pre ++ l)) - 1)).
Proof.
  revert pre. induction l as [|x l IH]; intros pre.
  - apply PureRuns_nil. intros n w _. simpl. unfold tIterator_Next. simpl.
    rewrite app_nil_r.
    destruct (Z.ltb_spec (Z.of_nat (length pre) - 1 + 1) (Z.of_nat (length pre))); [lia|].
    reflexivity.
  - eapply PureRuns_cons.
    + intros n w _. simpl. unfold tIterator_Next. simpl.
      destruct (Z.ltb_spec (Z.of_nat (length pre) - 1 + 1)
                  (Z.of_nat (length (pre ++ x :: l)))) as [_|Hge]; [reflexivity|].
      rewrite length_app in Hge. simpl in Hge. lia.
    + intros n w _. simpl. unfold tIterator_Current, slice_index. simpl.
      replace (Z.of_nat (length pre) - 1 + 1) with (Z.of_nat (length pre)) by lia.
      destruct (Z.leb_spec 0 (Z.of_nat (length pre))); [|lia].
      rewrite Nat2Z.id, lookup_app_r, Nat.sub_diag by lia. reflexivity.
    + specialize (IH (pre ++ [x])).
      rewrite <- app_assoc in IH. simpl in IH.
      replace (Z.of_nat (length pre) - 1 + 1)
        with (Z.of_nat (length (pre ++ [x])) - 1)
        by (rewrite length_app; simpl; lia).
      exact IH.
Qed.

Lemma TSequence_PureYields {U A} (l : list A) :
  PureYields (T:=A) (U:=U) 0 (TSequence l) l.
Proof.
  eexists _, _. split; [intros n w _; reflexivity|].
  apply (TSequence_PureRuns (U:=U) [] l).
Qed.

(** ** parallel.go: the fan-out when the action panics on an item *)

Section ParallelPanicRunProofs.
Context {T U : Type}.
Local Abbreviation M := (M T U).
Local Abbreviation World := (World T U).
Local Abbreviation Sequence := (@Sequence T U).
Implicit Types w : World.

Variable N : nat.
Variable action : T -> M unit.
Variable s : Sequence T.
Variable l : list T.
Variable x : T.
Hypothesis Hx : x ∈ l.
Hypothesis Hpanics :
  forall n w, (N <= n)%nat -> exists e w', action x n w = Panic e w'.







End ParallelPanicRunProofs.




(** ** linq.go: Select, and ParallelSelect on one thread *)

Section SelectProofs.
Context {T U : Type} {A B : Type}.
Local Abbreviation M := (M T U).
Local Abbreviation World := (World T U).
Local Abbreviation Sequence := (@Sequence T U).
Implicit Types w : World.

(** With a selector that only computes, [Select] yields the images of the
    items, in their order. *)
Lemma Select_Yields (s : Sequence A) (selector : A -> M B) (g : A -> B) w l w' :
  (forall x w1, x ∈ l -> evals (selector x) w1 (Ok (g x) w1)) ->
  Yields s w l w' ->
  Yields (Select s selector) w (g <$> l) w'.
Proof.
  intros Hsel (i0 & w1 & i' & Hi & Hr).
  unfold Select, FromSequenceFunction. eapply Calls_Yields; [exact Hi|].
  clear Hi. induction Hr as [i w1 i' w' Hn|i w1 i1 w2 x w3 l i' w' Hn Hc Hr IH].
  - apply Calls_nil. simpl. eval_steps.
  - simpl. eapply Calls_cons.
    + simpl. eval_steps. eapply evals_bind; [apply Hsel; left|]. apply evals_ret.
    + apply IH. intros y w4 Hy. apply Hsel. by right.
Qed.
End SelectProofs.

(** C6.  On one thread [ParallelSelect] returns the sequence that [Select]
    returns for the same selector; iterating it calls the selector on the
    items of the source one by one, in their order. *)
Theorem ParallelSelect_one_thread {T U : Type} (NumCPU : Z)
    (s : @Sequence T U T) (selector : T -> M T U T) :
  (forall n w,
     ParallelSelect NumCPU s 1 selector n w = Ok (inl (Select s selector)) w) /\
  (forall g w l w',
     (forall x w1, x ∈ l -> evals (selector x) w1 (Ok (g x) w1)) ->
     Yields s w l w' ->
     evals (let* r := ParallelSelect NumCPU s 1 selector in
            match r with
            | inl q => ToSlice q
            | inr _ => panic "worker pool"
            end) w (Ok (g <$> l) w') /\
     evals (ToSlice (Select s selector)) w (Ok (g <$> l) w')).
Proof.
  assert (forall n w,
            ParallelSelect NumCPU s 1 selector n w = Ok (inl (Select s selector)) w)
    as Hone by reflexivity.
  split; [exact Hone|]. intros g w l w' Hsel Hy.
  assert (evals (ToSlice (Select s selector)) w (Ok (g <$> l) w')) as Hs
    by by apply Yields_ToSlice, Select_Yields.
  split; [|exact Hs].
  destruct Hs as [n0 Hs]. exists n0. intros n Hn.
  unfold bind. rewrite Hone. by apply Hs.
Qed.

(** [Range2(start, count)] yields [start, start+1, ..., start+count-1]. *)
Lemma Range2_Calls {T U} (start count : Z) (w : World T U) k n :
  (0 <= n)%Z -> Z.of_nat k = Z.max 0 (count - n) ->
  Calls (mkSequenceFunc (ret 0)
           (fun n : Z =>
              if n <? count
              then ret (Some (start + n), n + 1)
              else ret (None, n)))
        n w (seqZ (start + n) (count - n)) (Z.max n count) w.
Proof.
  revert n. induction k as [|k IH]; intros n Hn Hk.
  - assert (count <= n) as Hle by lia.
    rewrite seqZ_nil by lia. apply Calls_nil. simpl.
    destruct (Z.ltb_spec n count); [lia|].
    replace (Z.max n count) with n by lia. apply evals_ret.
  - assert (n < count) as Hlt by lia.
    rewrite seqZ_cons by lia. eapply Calls_cons.
    + simpl. destruct (Z.ltb_spec n count); [|lia]. apply evals_ret.
    + replace (Z.succ (start + n)) with (start + (n + 1)) by lia.
      replace (Z.pred (count - n)) with (count - (n + 1)) by lia.
      replace (Z.max n count) with (Z.max (n + 1) count) by lia.
      apply IH; lia.
Qed.

Lemma Range2_Yields {T U} (start count : Z) (w : World T U) :
  Yields (Range2 start count) w (seqZ start count) w.
Proof.
  unfold Range2, FromSequenceFunction. eapply Calls_Yields; [apply evals_ret|].
  pose proof (Range2_Calls start count w (Z.to_nat (Z.max 0 (count - 0))) 0) as Hc.
  rewrite Z.add_0_r, Z.sub_0_r in Hc. apply Hc; lia.
Qed.

Lemma ParallelSelect_one_thread_witness :
  (forall x w1, x ∈ seqZ 0 5 -> evals (plusOne x) w1 (Ok (x + 1) w1)) /\
  Yields (Range 5) w0 (seqZ 0 5) w0 /\
  evals (ToSlice (Select (Range 5) plusOne)) w0 (Ok [1; 2; 3; 4; 5] w0).
Proof.
  assert (forall x w1, x ∈ seqZ 0 5 -> evals (plusOne x) w1 (Ok (x + 1) w1)) as Hsel
    by (intros x w1 _; apply evals_ret).
  split; [exact Hsel|]. split; [apply Range2_Yields|].
  destruct (ParallelSelect_one_thread 8 (Range 5) plusOne) as [_ Hmap].
  exact (proj2 (Hmap (fun x => x + 1) w0 (seqZ 0 5) w0 Hsel (Range2_Yields 0 5 w0))).
Defined.

(** Runs a closed computation: [k] units of fuel are enough, and any more
    are not looked at. *)
Ltac eval_compute k :=
  exists k; intros n Hn;
  replace n with (k + (n - k))%nat by lia;
  generalize (n - k)%nat; clear n Hn; intros n;
  vm_compute; reflexivity.

(** ** aggregate.go: the merge of the spec's example *)

(** C9.  [MergeP] of [1,3,5,6,7,10] and [2,4,5,7,9] under [<], keeping what
    is only on the left, dropping what is only on the right and keeping the
    right one of two equal items, yields [1,3,5,6,7,10]. *)
Theorem MergeP_example (GenericLessThan : Z -> Z -> bool) :
  evals (ToSlice (MergeP GenericLessThan
                         (FromItems [1; 3; 5; 6; 7; 10]) (FromItems [2; 4; 5; 7; 9])
                         (Some IntLessThanFunc)
                         (Some MergeKeep) None (Some MergeKeepRight)))
        w0 (Ok [1; 3; 5; 6; 7; 10] w0).
Proof. eval_compute 40%nat. Qed.

(** The other merges of the repository's test, as a check of the model. *)
Example MergeP_test_sum (GenericLessThan : Z -> Z -> bool) :
  evals (ToSlice (MergeP GenericLessThan
                         (FromItems [2; 4; 5; 7; 9]) (FromItems [1; 3; 5; 6; 7; 10])
                         (Some IntLessThanFunc)
                         (Some MergeKeep) None
                         (Some (fun a b => ret (Some (a + b))))))
        w0 (Ok [2; 4; 10; 14; 9] w0).
Proof. eval_compute 40%nat. Qed.

Example MergeP_test_negate (GenericLessThan : Z -> Z -> bool) :
  evals (ToSlice (MergeP GenericLessThan
                         (FromItems [1; 3; 5; 6; 7; 10]) (FromItems [2; 4; 5; 7; 9])
                         (Some IntLessThanFunc)
                         (Some (fun a => ret (Some (- a))))
                         (Some (fun b => ret (Some (b * 2)))) None))
        w0 (Ok [-1; 4; -3; 8; -6; 18; -10] w0).
Proof. eval_compute 40%nat. Qed.

(** ** linq.go: the grouping of the spec's example *)

Lemma GroupBy_example_computed :
  evals (let* g := GroupBy (Range 10) quarter in ToSlice g) w0
        (Ok [mkPair 2 [8; 9]; mkPair 1 [4; 5; 6; 7]; mkPair 0 [0; 1; 2; 3]] w0).
Proof. eval_compute 40%nat. Qed.

(** C8.  [GroupBy] of 0..9 by [i / 4] yields three pairs, in the order in
    which the map gives them: key 0 with [0,1,2,3], key 1 with [4,5,6,7] and
    key 2 with [8,9]; each value is the slice of a [TSequence], which
    yields its items in that order. *)
Theorem GroupBy_example :
  exists groups,
    evals (let* g := GroupBy (Range 10) quarter in ToSlice g) w0 (Ok groups w0) /\
    groups ≡ₚ [mkPair 0 [0; 1; 2; 3]; mkPair 1 [4; 5; 6; 7]; mkPair 2 [8; 9]] /\
    forall p, p ∈ groups ->
      Yields (TSequence (Value p) : @Sequence Z unit Z) w0 (Value p) w0.
Proof.
  eexists. split; [apply GroupBy_example_computed|]. split.
  - apply (reverse_Permutation
             [mkPair 0 [0; 1; 2; 3]; mkPair 1 [4; 5; 6; 7]; mkPair 2 [8; 9]]).
  - intros p _. apply TSequence_Yields.
Qed.

Example GroupBy_test :
  evals (let* g := GroupBy (FromItems [9; 1; 2; 8; 7; 3; 6; 4; 5; 0]) quarter in
         ToSlice g) w0
        (Ok [mkPair 2 [9; 8]; mkPair 1 [7; 6; 4; 5]; mkPair 0 [1; 2; 3; 0]] w0).
Proof. eval_compute 40%nat. Qed.

(** ** aggregate.go: Aggregate and TryAggregate *)

Section AggregateProofs.
Context {T U : Type}.
Local Abbreviation M := (M T U).
Local Abbreviation World := (World T U).
Local Abbreviation Sequence := (@Sequence T U).
Implicit Types w : World.

Lemma PureRuns_evals_Next N (s : Sequence T) i l i' :
  PureRuns N s i l i' ->
  forall w,
    match l with
    | [] => evals (Next s i) w (Ok (false, i') w)
    | x :: l' => exists i1, evals (Next s i) w (Ok (true, i1) w) /\
                            evals (Current s i1) w (Ok x w) /\
                            PureRuns N s i1 l' i'
    end.
Proof.
  intros Hr w. inversion Hr as [? ? Hn|? i1 x l' ? Hn Hc Hr']; subst.
  - exists N. intros n Hle. by apply Hn.
  - exists i1. repeat split; [| |done].
    + exists N. intros n Hle. by apply Hn.
    + exists N. intros n Hle. by apply Hc.
Qed.

(** The loop of [TryAggregate] makes the calls of the fold. *)
Lemma TryAggregate_loop N (s : Sequence T) (agg : T -> T -> M T) i rest i' v w o :
  PureRuns N s i rest i' ->
  FoldEvals agg v rest w o ->
  evals (loop (fun st : ISt s * T =>
                 let '(i, v) := st in
                 let* (more, i') := Next s i in
                 if more : bool
                 then let* c := Current s i' in
                      let* v' := agg v c in
                      ret (inl (i', v'))
                 else ret (inr (Some v)))
              (i, v)) w (outcome_map Some o).
Proof.
  intros Hr Hf. revert i Hr.
  induction Hf as [v w|v c rest w v' w1 o Hagg Hf IH|v c rest w e w1 Hagg]; intros i Hr.
  - pose proof (PureRuns_evals_Next N s i [] i' Hr w) as Hn. simpl in Hn.
    apply evals_loop_break. eval_steps.
  - destruct (PureRuns_evals_Next N s i (c :: rest) i' Hr w) as (i1 & Hn & Hc & Hr').
    eapply evals_loop_continue; [|apply IH, Hr'].
    eval_steps.
  - destruct (PureRuns_evals_Next N s i (c :: rest) i' Hr w) as (i1 & Hn & Hc & Hr').
    apply evals_loop_panic. eval_steps.
Qed.

Lemma TryAggregate_fold N (s : Sequence T) (agg : T -> T -> M T) x rest w o :
  PureYields N s (x :: rest) ->
  FoldEvals agg x rest w o ->
  evals (TryAggregate s agg) w (outcome_map Some o).
Proof.
  intros (i0 & i' & Hi & Hr) Hf.
  destruct (PureRuns_evals_Next N s i0 (x :: rest) i' Hr w) as (i1 & Hn & Hc & Hr').
  unfold TryAggregate. eapply evals_bind; [exists N; intros n Hle; by apply Hi|].
  eval_steps. by eapply TryAggregate_loop.
Qed.

Lemma Aggregate_of_TryAggregate (s : Sequence T) (agg : T -> T -> M T) w o :
  evals (TryAggregate s agg) w (outcome_map Some o) ->
  evals (Aggregate s agg) w o.
Proof.
  intros Ht. unfold Aggregate. destruct o as [v w1|e w1|]; simpl in Ht.
  - eapply evals_bind; [exact Ht|]. apply evals_ret.
  - by apply evals_bind_panic.
  - destruct Ht as [n0 Ht]. exists n0. intros n Hn. unfold bind. by rewrite Ht.
Qed.

(** C10.  On a sequence of one item [TryAggregate] and [Aggregate] return
    that item whatever the aggregator is, so without calling it.  On a
    source of two items or more the outcome is that of the calls
    [agg(x1, x2)], [agg(result, x3)], ...: the first call is on the first
    two items, and if it panics so do [TryAggregate] and [Aggregate]. *)
Theorem Aggregate_single_item_and_first_call (s : Sequence T) (agg : T -> T -> M T) :
  (forall w x w',
     Yields s w [x] w' ->
     evals (TryAggregate s agg) w (Ok (Some x) w') /\
     evals (Aggregate s agg) w (Ok x w')) /\
  (forall N x1 x2 rest w o,
     PureYields N s (x1 :: x2 :: rest) ->
     FoldEvals agg x1 (x2 :: rest) w o ->
     evals (TryAggregate s agg) w (outcome_map Some o) /\
     evals (Aggregate s agg) w o) /\
  (forall N x1 x2 rest w e w1,
     PureYields N s (x1 :: x2 :: rest) ->
     evals (agg x1 x2) w (Panic e w1) ->
     evals (TryAggregate s agg) w (Panic e w1) /\
     evals (Aggregate s agg) w (Panic e w1)).
Proof.
  assert (forall N x1 x2 rest w o,
            PureYields N s (x1 :: x2 :: rest) ->
            FoldEvals agg x1 (x2 :: rest) w o ->
            evals (TryAggregate s agg) w (outcome_map Some o) /\
            evals (Aggregate s agg) w o) as Hfold.
  { intros N x1 x2 rest w o Hy Hf.
    assert (evals (TryAggregate s agg) w (outcome_map Some o)) as Ht
      by by eapply TryAggregate_fold.
    split; [exact Ht|by apply Aggregate_of_TryAggregate]. }
  split; [|split; [exact Hfold|]].
  - intros w x w' (i0 & w1 & i' & Hi & Hr).
    inversion Hr as [|? ? i1 w2 ? w3 ? ? ? Hn Hc Hr']; subst.
    inversion Hr' as [? ? ? ? Hn'|]; subst.
    assert (evals (TryAggregate s agg) w (Ok (Some x) w')) as Ht.
    { unfold TryAggregate. eval_steps. apply evals_loop_break. eval_steps. }
    split; [exact Ht|]. by apply (Aggregate_of_TryAggregate s agg w (Ok x w')).
  - intros N x1 x2 rest w e w1 Hy Hp.
    apply (Hfold N x1 x2 rest w (Panic e w1) Hy). by apply FoldEvals_panic.
Qed.
End AggregateProofs.

Lemma Aggregate_single_item_and_first_call_witness :
  Yields (FromItems [5]) w0 [5] w0 /\
  evals (TryAggregate (FromItems [5]) neverCalled) w0 (Ok (Some 5) w0) /\
  evals (Aggregate (FromItems [5]) neverCalled) w0 (Ok 5 w0).
Proof.
  split; [apply TSequence_Yields|].
  destruct (Aggregate_single_item_and_first_call (FromItems [5]) neverCalled)
    as [Hone _].
  exact (Hone w0 5 w0 (TSequence_Yields [5] w0)).
Defined.

(** The product of 1..10 of the repository's test. *)
Example Aggregate_test :
  evals (Aggregate (Range2 1 10) (fun a b => ret (a * b))) w0 (Ok 3628800 w0).
Proof. eval_compute 40%nat. Qed.

(** ** Cache, Reverse and OrderPD: the buffer *)

Section MaterializeProofs.
Context {T U : Type}.
Local Abbreviation M := (M T U).
Local Abbreviation World := (World T U).
Local Abbreviation Sequence := (@Sequence T U).
Implicit Types w : World.
Implicit Types l buf : list T.

Lemma evals_readSlice c w v :
  cells w !! c = Some v -> evals (readSlice c) w (Ok v w).
Proof. intros Hc. exists O. intros n _. unfold readSlice. by rewrite Hc. Qed.

Lemma evals_writeSlice c v w : evals (writeSlice c v) w (Ok tt (setSlice c v w)).
Proof. exists O. reflexivity. Qed.

Lemma cells_setSlice c v w :
  (c < length (cells w))%nat -> cells (setSlice c v w) !! c = Some (Some v).
Proof. intros Hc. simpl. by apply list_lookup_insert_eq. Qed.

Lemma setSlice_setSlice c v v' w : setSlice c v' (setSlice c v w) = setSlice c v' w.
Proof. unfold setSlice. simpl. by rewrite list_insert_insert_eq. Qed.

(** With [buf] in the buffer the closure replays it from [index] on, and
    neither [fill] nor the world matter. *)
Lemma materialize_replay (fill : M (list T)) c w buf k index :
  cells w !! c = Some (Some buf) ->
  k = (length buf - index)%nat ->
  exists index',
    Calls (materialize fill c) index w (drop index buf) index' w.
Proof.
  intros Hc. revert index. induction k as [|k IH]; intros index Hk.
  - exists index. rewrite drop_ge by lia. apply Calls_nil. simpl.
    eapply evals_bind; [by apply evals_readSlice|]. simpl. eval_step.
    unfold replay. rewrite lookup_ge_None_2 by lia. apply evals_ret.
  - destruct (lookup_lt_is_Some_2 buf index) as [x Hx]; [lia|].
    destruct (IH (Datatypes.S index)) as [index' IH']; [lia|]. exists index'.
    rewrite (drop_S buf x index Hx). eapply Calls_cons; [|exact IH'].
    simpl. eapply evals_bind; [by apply evals_readSlice|]. simpl. eval_step.
    unfold replay. rewrite Hx. apply evals_ret.
Qed.

Lemma materialize_first_call (fill : M (list T)) c w l' w' :
  cells w !! c = Some None ->
  evals fill w (Ok l' w') ->
  evals (call (materialize fill c) O) w
        (Ok (match l' with [] => (None, O) | x :: _ => (Some x, 1%nat) end) w').
Proof.
  intros Hc Hf. simpl. eapply evals_bind; [by apply evals_readSlice|]. simpl.
  eapply evals_bind; [exact Hf|]. unfold replay. destruct l'; apply evals_ret.
Qed.

Lemma materialize_BufferedOnce (fill : M (list T)) c (s : Sequence T) transform :
  Fills fill c s transform ->
  BufferedOnce (MakeFunctionSequence (materialize fill c)) c s transform.
Proof.
  intros Hfill. split; [|split].
  - exists (mkFunctionIterator (sf:=materialize fill c) O None). split.
    + intros w. simpl. unfold functionSequence_Iterator. simpl. eval_steps.
    + intros w l w1 l' Hc Hy Ht.
      pose proof (materialize_first_call fill c w l' _ Hc (Hfill w l w1 l' Hy Ht)) as H1.
      destruct l'; eexists _, _; simpl; unfold functionIterator_Next;
        (eapply evals_bind; [exact H1|]); apply evals_ret.
  - intros w l w1 l' Hc Hy Ht Hlen.
    pose proof (materialize_first_call fill c w l' _ Hc (Hfill w l w1 l' Hy Ht)) as H1.
    destruct l' as [|x l'].
    + eapply Calls_Yields; [apply evals_ret|]. apply Calls_nil. exact H1.
    + destruct (materialize_replay fill c (setSlice c (x :: l') w1) (x :: l')
                  (length l') 1) as [index' Hr].
      * by apply cells_setSlice.
      * simpl. lia.
      * eapply Calls_Yields; [apply evals_ret|].
        eapply Calls_cons; [exact H1|exact Hr].
  - intros w buf Hc.
    destruct (materialize_replay fill c w buf (length buf) 0 Hc) as [index' Hr]; [lia|].
    eapply Calls_Yields; [apply evals_ret|exact Hr].
Qed.


Lemma Reverse_Fills c (s : Sequence T) :
  Fills (let* v := ToSlice s in
         let* _ := writeSlice c v in
         match reverse_items v with
         | Some v' => let* _ := writeSlice c v' in ret v'
         | None => panic "runtime error: index out of range"
         end) c s reverse_items.
Proof.
  intros w l w1 l' Hy Ht.
  eapply evals_bind; [by apply Yields_ToSlice|].
  eapply evals_bind; [apply evals_writeSlice|]. rewrite Ht.
  eapply evals_bind; [apply evals_writeSlice|].
  rewrite setSlice_setSlice. apply evals_ret.
Qed.

Lemma OrderPD_Fills (sort_Sort : nat -> sorter) cmp reverse c (s : Sequence T) :
  Fills (let* v := ToSlice s in
         let* _ := writeSlice c v in
         match sort_orderData sort_Sort reverse (mkOrderData cmp v) with
         | Some d' => let* _ := writeSlice c (items d') in ret (items d')
         | None => panic "runtime error: index out of range"
         end) c s
        (fun v => items <$> sort_orderData sort_Sort reverse (mkOrderData cmp v)).
Proof.
  intros w l w1 l' Hy Ht.
  eapply evals_bind; [by apply Yields_ToSlice|].
  eapply evals_bind; [apply evals_writeSlice|].
  destruct (sort_orderData sort_Sort reverse (mkOrderData cmp l)) as [d'|]; [|done].
  simpl in Ht. injection Ht as <-.
  eapply evals_bind; [apply evals_writeSlice|].
  rewrite setSlice_setSlice. apply evals_ret.
Qed.

Lemma evals_newSlice w :
  evals (newSlice : M nat) w
        (Ok (length (cells w)) (mkWorld (cells w ++ [None]) (user w))).
Proof. exists O. reflexivity. Qed.
End MaterializeProofs.

(** ** concat.go: OrderPD sorts *)

Section OrderProofs.
Context {T U : Type}.
Local Abbreviation M := (M T U).
Local Abbreviation World := (World T U).
Local Abbreviation Sequence := (@Sequence T U).
Implicit Types w : World.
Implicit Types l : list T.

Lemma swap_items_Permutation l i j l' :
  swap_items l i j = Some l' -> l' ≡ₚ l.
Proof.
  unfold swap_items. destruct (l !! i) as [a|] eqn:Ei; [|done].
  destruct (l !! j) as [b|] eqn:Ej; [|done]. intros [= <-].
  by apply Permutation_insert_swap.
Qed.

(** Whatever [sort.Sort] does, it does through [Swap]: the items stay the
    same up to their order, and the comparator stays. *)
Lemma run_sorter_Permutation (p : sorter) (d d' : @orderData T) :
  run_sorter p d = Some d' -> items d' ≡ₚ items d /\ cmp d' = cmp d.
Proof.
  revert d. induction p as [|i j k IH|i j k IH]; intros d; simpl.
  - by intros [= <-].
  - destruct (items d !! i), (items d !! j); try done. apply IH.
  - destruct (swap_items (items d) i j) as [l1|] eqn:Es; [|done]. simpl.
    intros Hr. apply IH in Hr as [Hp Hc]. simpl in *. split; [|done].
    rewrite Hp. by eapply swap_items_Permutation.
Qed.

Lemma run_sorter_reverse_Permutation (p : sorter) (d : @orderData T) r :
  run_sorter p (mkReverse d) = Some r ->
  items (reverse_Interface r) ≡ₚ items d /\ cmp (reverse_Interface r) = cmp d.
Proof.
  revert d. induction p as [|i j k IH|i j k IH]; intros d; simpl.
  - by intros [= <-].
  - destruct (items d !! j), (items d !! i); try done. apply IH.
  - destruct (swap_items (items d) i j) as [l1|] eqn:Es; [|done]. simpl.
    intros Hr. apply IH in Hr as [Hp Hc]. simpl in *. split; [|done].
    rewrite Hp. by eapply swap_items_Permutation.
Qed.

Lemma sort_orderData_Permutation sort_Sort reverse (d d' : @orderData T) :
  sort_orderData sort_Sort reverse d = Some d' ->
  items d' ≡ₚ items d /\ cmp d' = cmp d.
Proof.
  unfold sort_orderData. destruct reverse.
  - destruct (run_sorter _ (mkReverse d)) as [r|] eqn:Er; [|done].
    intros [= <-]. by eapply run_sorter_reverse_Permutation.
  - apply run_sorter_Permutation.
Qed.

(** C5.  Given that [sort.Sort] meets its contract, ordering a finite
    sequence with a strict less-than yields a permutation of its items in
    which no item is less than the one before it, and ordering the result
    again yields a permutation of that. *)
Theorem OrderPD_sorted_permutation (sort_Sort : nat -> sorter)
    (GenericLessThan : T -> T -> bool) (s : Sequence T) (cmp : T -> T -> bool)
    (c c2 : nat) w l w1 :
  sort_Sort_contract (T:=T) sort_Sort ->
  StrictWeakOrder cmp ->
  cells w !! c = Some None -> cells w !! c2 = Some None ->
  Yields s w l w1 ->
  (c < length (cells w1))%nat -> (c2 < length (cells w1))%nat ->
  let q := FromSequenceFunction (OrderPD_func sort_Sort cmp false c s) in
  let q2 := FromSequenceFunction (OrderPD_func sort_Sort cmp false c2 q) in
  (forall w, evals (OrderP sort_Sort GenericLessThan (Some cmp) s) w
                   (Ok (FromSequenceFunction
                          (OrderPD_func sort_Sort cmp false (length (cells w)) s))
                       (mkWorld (cells w ++ [None]) (user w)))) /\
  exists l' l'',
    evals (ToSlice q) w (Ok l' (setSlice c l' w1)) /\
    l' ≡ₚ l /\ IsSorted cmp l' /\
    evals (ToSlice q2) w (Ok l'' (setSlice c2 l'' (setSlice c l' w1))) /\
    l'' ≡ₚ l' /\ IsSorted cmp l''.
Proof.
  intros Hsort Hcmp Hc Hc2 Hy Hlen Hlen2 q q2. split.
  { intros w'. unfold OrderP, OrderPD.
    eapply evals_bind; [apply evals_newSlice|]. apply evals_ret. }
  destruct (Hsort cmp l Hcmp) as (d1 & Hrun1 & Hsorted1).
  destruct (Hsort cmp (items d1) Hcmp) as (d2 & Hrun2 & Hsorted2).
  destruct (run_sorter_Permutation _ _ _ Hrun1) as [Hp1 _].
  destruct (run_sorter_Permutation _ _ _ Hrun2) as [Hp2 _].
  simpl in Hp1, Hp2.
  pose proof (materialize_BufferedOnce _ c s _
                (OrderPD_Fills sort_Sort cmp false c s)) as (_ & Hfill1 & _).
  pose proof (materialize_BufferedOnce _ c2 q _
                (OrderPD_Fills sort_Sort cmp false c2 q)) as (_ & Hfill2 & _).
  assert (Yields q w (items d1) (setSlice c (items d1) w1)) as Hq.
  { apply (Hfill1 w l w1 (items d1) Hc Hy); [|done].
    unfold sort_orderData. simpl in *. by rewrite Hrun1. }
  assert (Yields q2 w (items d2) (setSlice c2 (items d2) (setSlice c (items d1) w1)))
    as Hq2.
  { apply (Hfill2 w (items d1) _ (items d2) Hc2 Hq).
    - unfold sort_orderData. simpl in *. by rewrite Hrun2.
    - simpl. by rewrite length_insert. }
  exists (items d1), (items d2).
  split; [by apply Yields_ToSlice|]. split; [done|]. split; [done|].
  split; [by apply Yields_ToSlice|]. by split.
Qed.
End OrderProofs.

(** ** Go's insertion sort meets the contract of [sort.Sort] *)

Section InsertionSort.
Context {T : Type}.
Variable cmp : T -> T -> bool.
Hypothesis Hcmp : StrictWeakOrder cmp.
Implicit Types l A C R : list T.

Local Abbreviation ge_prev := (fun a b : T => cmp b a = false).

Lemma cmp_asym a b : cmp a b = true -> cmp b a = false.
Proof.
  intros Hab. destruct (cmp b a) eqn:Hba; [|done].
  pose proof (swo_trans cmp Hcmp a b a Hab Hba) as Haa.
  by rewrite (swo_irrefl cmp Hcmp a) in Haa.
Qed.

Lemma Sorted_IsSorted l : Sorted ge_prev l -> IsSorted cmp l.
Proof.
  induction 1 as [|a l Hs IH Hhd]; intros i x y Hx Hy; [done|].
  destruct i as [|i]; simpl in *.
  - injection Hx as <-. destruct l as [|b l]; [done|].
    simpl in Hy. injection Hy as <-. by apply HdRel_inv in Hhd.
  - by eapply IH.
Qed.

Lemma Sorted_insert_after A a x C :
  Sorted ge_prev (A ++ a :: C) ->
  cmp x a = false ->
  HdRel ge_prev x C ->
  Sorted ge_prev (A ++ a :: x :: C).
Proof.
  intros Hs Hax Hxc. induction A as [|p A IH]; simpl in *.
  - apply Sorted_inv in Hs as [Hs Hhd].
    constructor; [constructor; done|]. by constructor.
  - apply Sorted_inv in Hs as [Hs Hhd]. constructor; [by apply IH|].
    destruct A; simpl in *; apply HdRel_inv in Hhd; by constructor.
Qed.

Lemma Sorted_app_r A C : Sorted ge_prev (A ++ C) -> Sorted ge_prev C.
Proof.
  induction A as [|p A IH]; simpl; [done|].
  intros Hs. apply Sorted_inv in Hs as [Hs _]. by apply IH.
Qed.

(** The inner loop moves [x] down from position [length A] past the items
    that are greater. *)
Lemma insertion_inner_spec (k : sorter) A x C R :
  Sorted ge_prev (A ++ C) ->
  HdRel (fun a b : T => cmp a b = true) x C ->
  exists A' C',
    run_sorter (insertion_inner (length A) k) (mkOrderData cmp (A ++ x :: C ++ R))
    = run_sorter k (mkOrderData cmp (A' ++ x :: C' ++ R)) /\
    Sorted ge_prev (A' ++ x :: C') /\
    length (A' ++ x :: C') = length (A ++ x :: C).
Proof.
  revert C. induction A as [|a A IH] using rev_ind; intros C Hs Hhd.
  - exists [], C. simpl. split; [done|]. split; [|done].
    constructor; [done|]. destruct Hhd; constructor. by apply cmp_asym.
  - rewrite length_app. simpl. rewrite Nat.add_1_r. simpl.
    assert (((A ++ [a]) ++ x :: C ++ R) !! Datatypes.S (length A) = Some x) as Hx.
    { rewrite <- app_assoc. simpl. rewrite lookup_app_r by lia.
      by replace (Datatypes.S (length A) - length A)%nat with 1%nat by lia. }
    assert (((A ++ [a]) ++ x :: C ++ R) !! length A = Some a) as Ha.
    { rewrite <- app_assoc. simpl. by rewrite list_lookup_middle. }
    rewrite Hx, Ha. destruct (cmp x a) eqn:Hxa.
    + simpl. unfold swap_items. rewrite Hx, Ha. simpl.
      assert (<[Datatypes.S (length A):=a]> (<[length A:=x]> ((A ++ [a]) ++ x :: C ++ R))
              = A ++ x :: (a :: C) ++ R) as ->.
      { rewrite <- app_assoc. simpl.
        rewrite (insert_app_r_alt A _ (length A)) by lia.
        rewrite Nat.sub_diag. simpl.
        rewrite (insert_app_r_alt A _ (Datatypes.S (length A))) by lia.
        by replace (Datatypes.S (length A) - length A)%nat with 1%nat by lia. }
      destruct (IH (a :: C)) as (A' & C' & Hrun & Hsorted & Hlen).
      * by rewrite <- app_assoc in Hs.
      * by constructor.
      * exists A', C'. split; [done|]. split; [done|].
        rewrite Hlen, !length_app. simpl. lia.
    + exists (A ++ [a]), C. split; [done|]. split; [|done].
      rewrite <- app_assoc. simpl. apply Sorted_insert_after; [| done |].
      * by rewrite <- app_assoc in Hs.
      * destruct Hhd; constructor. by apply cmp_asym.
Qed.

Lemma insertion_outer_spec rounds P R :
  Sorted ge_prev P -> length R = rounds ->
  exists d',
    run_sorter (insertion_outer (length P) rounds) (mkOrderData cmp (P ++ R)) = Some d' /\
    Sorted ge_prev (items d').
Proof.
  revert P R. induction rounds as [|rounds IH]; intros P R Hs Hlen.
  - destruct R; [|done]. rewrite app_nil_r. simpl. by eexists.
  - destruct R as [|x R]; [done|]. simpl.
    destruct (insertion_inner_spec (insertion_outer (Datatypes.S (length P)) rounds)
                P x [] R) as (A' & C' & Hrun & Hsorted & Hl).
    { by rewrite app_nil_r. }
    { constructor. }
    simpl in Hrun. rewrite Hrun.
    replace (Datatypes.S (length P)) with (length (A' ++ x :: C'))
      by (rewrite Hl, length_app; simpl; lia).
    replace (A' ++ x :: C' ++ R) with ((A' ++ x :: C') ++ R)
      by (by rewrite <- app_assoc).
    apply IH; [done|]. simpl in Hlen. lia.
Qed.

Lemma insertionSort_sorts l :
  exists d',
    run_sorter (insertionSort (length l)) (mkOrderData cmp l) = Some d' /\
    IsSorted cmp (items d').
Proof.
  destruct l as [|x l].
  - exists (mkOrderData cmp []). split; [done|]. by intros i a b Ha.
  - unfold insertionSort. simpl. rewrite Nat.sub_0_r.
    destruct (insertion_outer_spec (length l) [x] l) as (d' & Hrun & Hs).
    + repeat constructor.
    + done.
    + exists d'. split; [done|]. by apply Sorted_IsSorted.
Qed.
End InsertionSort.

Lemma insertionSort_contract {T : Type} : sort_Sort_contract (T:=T) insertionSort.
Proof. intros cmp l Hcmp. by apply insertionSort_sorts. Qed.

Lemma IntLessThanFunc_StrictWeakOrder : StrictWeakOrder IntLessThanFunc.
Proof.
  unfold IntLessThanFunc. split.
  - intros a. apply Z.ltb_irrefl.
  - intros a b c H1%Z.ltb_lt H2%Z.ltb_lt. apply Z.ltb_lt. lia.
  - intros a b c H1%Z.ltb_ge H2%Z.ltb_ge H3%Z.ltb_ge H4%Z.ltb_ge.
    split; apply Z.ltb_ge; lia.
Qed.

Lemma OrderPD_sorted_permutation_witness :
  sort_Sort_contract (T:=Z) insertionSort /\
  StrictWeakOrder IntLessThanFunc /\
  Yields (FromItems [3; 1; 2]) twoNil [3; 1; 2] twoNil /\
  exists l',
    evals (ToSlice (FromSequenceFunction
                      (OrderPD_func insertionSort IntLessThanFunc false 0
                                    (FromItems [3; 1; 2]))))
          twoNil (Ok l' (setSlice 0 l' twoNil)) /\
    l' ≡ₚ [3; 1; 2] /\ IsSorted IntLessThanFunc l'.
Proof.
  split; [apply insertionSort_contract|].
  split; [apply IntLessThanFunc_StrictWeakOrder|].
  split; [apply TSequence_Yields|].
  destruct (OrderPD_sorted_permutation insertionSort Z.ltb (FromItems [3; 1; 2])
              IntLessThanFunc 0 1 twoNil [3; 1; 2] twoNil
              insertionSort_contract IntLessThanFunc_StrictWeakOrder
              eq_refl eq_refl (TSequence_Yields _ _))
    as (_ & l' & l'' & H1 & H2 & H3 & _).
  - simpl. lia.
  - simpl. lia.
  - exists l'. by split.
Defined.

(** The repository's own check of [Order], with insertion sort for
    [sort.Sort]. *)
Example Order_test :
  evals (let* q := OrderP insertionSort Z.ltb (Some IntLessThanFunc)
                          (FromItems [9; 1; 2; 8; 7; 3; 6; 4; 5; 0]) in
         ToSlice q) w0
        (Ok [0; 1; 2; 3; 4; 5; 6; 7; 8; 9]
            (mkWorld [Some [0; 1; 2; 3; 4; 5; 6; 7; 8; 9]] tt)).
Proof. eval_compute 40%nat. Qed.



(** A source that counts its iterations is iterated once by two
    iterations of one [Cache] of it, and once more by a second [Cache]. *)
Example Cache_drains_once :
  evals (let* q := Cache (counted [1; 2; 3]) in
         let* a := ToSlice q in
         let* b := ToSlice q in
         let* q2 := Cache (counted [1; 2; 3]) in
         let* c := ToSlice q2 in
         let* d := ToSlice q in
         ret (a, b, c, d)) sum0
        (Ok ([1; 2; 3], [1; 2; 3], [1; 2; 3], [1; 2; 3])
            (mkWorld [Some [1; 2; 3]; Some [1; 2; 3]] 2)).
Proof. eval_compute 40%nat. Qed.

Example Reverse_test :
  evals (let* q := Reverse (counted [7; 8; 9; 2; 3; 4]) in
         let* a := ToSlice q in
         let* b := ToSlice q in
         ret (a, b)) sum0
        (Ok ([4; 3; 2; 9; 8; 7], [4; 3; 2; 9; 8; 7])
            (mkWorld [Some [4; 3; 2; 9; 8; 7]] 1)).
Proof. eval_compute 40%nat. Qed.

(** Decides the integer tests of the goal from the hypotheses. *)
Ltac ztest :=
  repeat match goal with
  | |- context [?a <? ?b] =>
      first [ rewrite (proj2 (Z.ltb_lt a b)) by lia
            | rewrite (proj2 (Z.ltb_ge a b)) by lia ]
  | |- context [?a =? ?b] =>
      first [ rewrite (proj2 (Z.eqb_eq a b)) by lia
            | rewrite (proj2 (Z.eqb_neq a b)) by lia ]
  end.

(** Evaluates a computation whose steps are all known: by a hypothesis, or
    a [ret] or [panic]. *)
Ltac eval_deep :=
  lazymatch goal with
  | |- evals (ret _) _ _ => apply evals_ret
  | |- evals (panic _) _ _ => apply evals_panic
  | |- evals (bind _ _) _ _ =>
      first [ eapply evals_bind; [ eval_deep | simpl; eval_deep ]
            | eapply evals_bind_panic; eval_deep ]
  | |- evals _ _ _ =>
      first [ eassumption
            | progress simpl; eval_deep
            | progress unfold functionIterator_Current, functionIterator_Next,
                functionSequence_Iterator; simpl; eval_deep ]
  end.

(** ** linq.go, skipTake.go, firstLast.go: filtering operators *)

Section FilteringProofs.
Context {T U : Type}.
Local Abbreviation M := (M T U).
Local Abbreviation World := (World T U).
Local Abbreviation Sequence := (@Sequence T U).
Implicit Types w : World.

Lemma Pulls_snoc {A} (s : Sequence A) i w l i1 w1 i2 w2 x w3 :
  Pulls s i w l i1 w1 ->
  evals (Next s i1) w1 (Ok (true, i2) w2) ->
  evals (Current s i2) w2 (Ok x w3) ->
  Pulls s i w (l ++ [x]) i2 w3.
Proof.
  intros Hp Hn Hc. induction Hp as [i w|i w j wj y wy l i' w' Hn' Hc' Hp IH].
  - simpl. eapply Pulls_cons; [exact Hn|exact Hc|apply Pulls_nil].
  - simpl. eapply Pulls_cons; [exact Hn'|exact Hc'|]. by apply IH.
Qed.

Lemma Pulls_snoc_inv {A} (s : Sequence A) l i w x i2 w3 :
  Pulls s i w (l ++ [x]) i2 w3 ->
  exists i1 w1 w2,
    Pulls s i w l i1 w1 /\
    evals (Next s i1) w1 (Ok (true, i2) w2) /\
    evals (Current s i2) w2 (Ok x w3).
Proof.
  revert i w. induction l as [|y l IH]; intros i w Hp; simpl in Hp.
  - inversion Hp as [|? ? j wj ? wy ? ? ? Hn Hc Hp']; subst.
    inversion Hp'; subst.
    exists i, w, wj. split; [apply Pulls_nil|done].
  - inversion Hp as [|? ? j wj ? wy ? ? ? Hn Hc Hp']; subst.
    destruct (IH _ _ Hp') as (i1 & w1 & w2 & Hl & Hn1 & Hc1).
    exists i1, w1, w2. split; [|done].
    eapply Pulls_cons; [exact Hn|exact Hc|exact Hl].
Qed.

Lemma Pulls_Runs {A} (s : Sequence A) i w l i1 w1 l' i' w' :
  Pulls s i w l i1 w1 -> Runs s i1 w1 l' i' w' -> Runs s i w (l ++ l') i' w'.
Proof.
  intros Hp Hr. induction Hp as [i w|i w j wj y wy l i1 w1 Hn Hc Hp IH]; [done|].
  simpl. eapply Runs_cons; [exact Hn|exact Hc|]. by apply IH.
Qed.

Lemma Runs_app_inv {A} (s : Sequence A) l i w l' i' w' :
  Runs s i w (l ++ l') i' w' ->
  exists i1 w1, Pulls s i w l i1 w1 /\ Runs s i1 w1 l' i' w'.
Proof.
  revert i w. induction l as [|y l IH]; intros i w Hr; simpl in Hr.
  - exists i, w. split; [apply Pulls_nil|done].
  - inversion Hr as [|? ? j wj ? wy ? ? ? Hn Hc Hr']; subst.
    destruct (IH _ _ Hr') as (i1 & w1 & Hp & Hr1).
    exists i1, w1. split; [|done].
    eapply Pulls_cons; [exact Hn|exact Hc|exact Hp].
Qed.

Lemma Decides_cons {A} (pred : A -> M bool) p x l :
  Decides pred p (x :: l) -> Decides pred p l.
Proof. intros Hd y w Hy. apply Hd. by right. Qed.

Lemma Decides_head {A} (pred : A -> M bool) p x l w :
  Decides pred p (x :: l) -> evals (pred x) w (Ok (p x) w).
Proof. intros Hd. apply Hd. by left. Qed.

Local Abbreviation where_func s pred :=
  (mkSequenceFunc (Iterator s) (fun i => loop (where_body s pred) i)).

Lemma Where_Calls {A} (s : Sequence A) (pred : A -> M bool) p i w l i' w' :
  Decides pred p l ->
  Runs s i w l i' w' ->
  Calls (where_func s pred) i w (List.filter p l) i' w'.
Proof.
  intros Hd Hr.
  induction Hr as [i w i' w' Hn|i w i1 w1 x w2 l i' w' Hn Hc Hr IH].
  - apply Calls_nil. simpl. apply evals_loop_break.
    unfold where_body. eval_steps.
  - simpl. pose proof (Decides_head pred p x l w2 Hd) as Hx.
    specialize (IH (Decides_cons _ _ _ _ Hd)).
    destruct (p x) eqn:Hpx.
    + eapply Calls_cons; [|exact IH].
      simpl. apply evals_loop_break. unfold where_body. eval_steps.
    + eapply Calls_loop_continue; [|exact IH].
      unfold where_body. eval_steps.
Qed.

(** X1.  [Where(pred)] yields the items of the source that satisfy the
    predicate, in the order of the source, and has drained the source when
    it ends. *)
Theorem Where_filter {A} (s : Sequence A) (pred : A -> M bool) (p : A -> bool)
    w l w' :
  Decides pred p l ->
  Yields s w l w' ->
  Yields (Where s pred) w (List.filter p l) w' /\
  evals (ToSlice (Where s pred)) w (Ok (List.filter p l) w').
Proof.
  intros Hd (i0 & w0 & i' & Hi & Hr).
  assert (Yields (Where s pred) w (List.filter p l) w') as Hy.
  { unfold Where, FromSequenceFunction.
    eapply Calls_Yields; [exact Hi|]. by apply Where_Calls. }
  split; [exact Hy|]. by apply Yields_ToSlice.
Qed.
End FilteringProofs.

Lemma Where_filter_witness :
  Decides isEven Z.even [1; 2; 3; 4] /\
  Yields (FromItems [1; 2; 3; 4]) w0 [1; 2; 3; 4] w0 /\
  evals (ToSlice (Where (FromItems [1; 2; 3; 4]) isEven)) w0 (Ok [2; 4] w0).
Proof.
  assert (Decides isEven Z.even [1; 2; 3; 4]) as Hd.
  { intros x w _. apply evals_ret. }
  pose proof (TSequence_Yields (U:=unit) [1; 2; 3; 4] w0) as Hy.
  split; [exact Hd|]. split; [exact Hy|].
  exact (proj2 (Where_filter (FromItems [1; 2; 3; 4]) isEven Z.even
                  w0 [1; 2; 3; 4] w0 Hd Hy)).
Defined.

Section TakeProofs.
Context {T U : Type}.
Local Abbreviation M := (M T U).
Local Abbreviation World := (World T U).
Local Abbreviation Sequence := (@Sequence T U).
Implicit Types w : World.

Lemma Take_Calls_Pulls {A} (s : Sequence A) n i c w l i1 w1 :
  Pulls s i w l i1 w1 ->
  c + Z.of_nat (length l) = n ->
  Calls (Take_func s n) (mkTakeEnv i c) w l (mkTakeEnv i1 n) w1.
Proof.
  intros Hp. revert c.
  induction Hp as [i w|i w j wj x wx l i1 w1 Hn Hc Hp IH]; intros c Hlen;
    simpl in Hlen.
  - apply Calls_nil. simpl. ztest.
    replace c with n by lia. apply evals_ret.
  - eapply Calls_cons; [simpl; ztest; eval_steps|apply IH; lia].
Qed.

Lemma Take_Calls_Runs {A} (s : Sequence A) n i c w l i' w' :
  Runs s i w l i' w' ->
  c + Z.of_nat (length l) < n ->
  Calls (Take_func s n) (mkTakeEnv i c) w l
        (mkTakeEnv i' (c + Z.of_nat (length l))) w'.
Proof.
  intros Hr. revert c.
  induction Hr as [i w i' w' Hn|i w j wj x wx l i' w' Hn Hc Hr IH]; intros c Hlen;
    simpl in Hlen.
  - apply Calls_nil. simpl. ztest.
    replace (c + Z.of_nat 0%nat) with c by lia. eval_steps.
  - eapply Calls_cons.
    + simpl. ztest. eval_steps.
    + replace (c + Z.of_nat (length (x :: l)))
        with ((c + 1) + Z.of_nat (length l)) by (simpl length; lia).
      apply IH. lia.
Qed.

(** X2.  [Take(n)] rejects a negative [n]; [Take(0)] is the empty sequence
    and never touches the source; for [n > 0] it yields the first [n] items
    and asks the source for nothing after the [n]-th (so the source may be
    endless), or all the items when there are fewer than [n]. *)
Theorem Take_first_n {A} (s : Sequence A) (n : Z) :
  (n < 0 -> forall k w, Take s n k w = Panic "argument must be non-negative" w) /\
  (n = 0 -> forall w, evals (let* q := Take s n in ToSlice q) w (Ok [] w)) /\
  (0 < n -> forall w i0 w0 l i1 w1,
     evals (Iterator s) w (Ok i0 w0) ->
     Pulls s i0 w0 l i1 w1 ->
     Z.of_nat (length l) = n ->
     evals (let* q := Take s n in ToSlice q) w (Ok l w1)) /\
  (0 < n -> forall w l w',
     Yields s w l w' ->
     Z.of_nat (length l) < n ->
     evals (let* q := Take s n in ToSlice q) w (Ok l w')).
Proof.
  repeat split.
  - intros Hn k w. unfold Take.
    by ztest.
  - intros -> w. unfold Take. simpl. eval_steps.
    apply Yields_ToSlice, TSequence_Yields.
  - intros Hn w i0 w0 l i1 w1 Hi Hp Hlen. unfold Take.
    ztest.
    eval_steps. apply Yields_ToSlice. unfold FromSequenceFunction.
    eapply Calls_Yields; [simpl; eval_steps|].
    apply Take_Calls_Pulls; [exact Hp|lia].
  - intros Hn w l w' (i0 & w0 & i' & Hi & Hr) Hlen. unfold Take.
    ztest.
    eval_steps. apply Yields_ToSlice. unfold FromSequenceFunction.
    eapply Calls_Yields; [simpl; eval_steps|].
    apply Take_Calls_Runs; [exact Hr|lia].
Qed.

Local Abbreviation takeWhile_func s pred :=
  (mkSequenceFunc
     (let* i := Iterator s in ret (mkTakeWhileEnv i false))
     (fun env => loop (takeWhile_body s pred) env)).

Lemma TakeWhile_Calls_all {A} (s : Sequence A) (pred : A -> M bool) p i w l i' w' :
  Runs s i w l i' w' ->
  Decides pred p l ->
  Forall (fun y => p y = true) l ->
  Calls (takeWhile_func s pred) (mkTakeWhileEnv i false) w l
        (mkTakeWhileEnv i' false) w'.
Proof.
  intros Hr.
  induction Hr as [i w i' w' Hn|i w j wj x wx l i' w' Hn Hc Hr IH]; intros Hd Hall.
  - apply Calls_nil. simpl. apply evals_loop_break.
    unfold takeWhile_body. simpl. eval_steps.
  - pose proof (Decides_head pred p x l wx Hd) as Hx.
    inversion Hall as [|? ? Hpx Hall']; subst. rewrite Hpx in Hx.
    eapply Calls_cons; [|apply IH; [by eapply Decides_cons|done]].
    simpl. apply evals_loop_break. unfold takeWhile_body. simpl. eval_steps.
Qed.

Lemma TakeWhile_Calls_stop {A} (s : Sequence A) (pred : A -> M bool) p
    i w l i1 w1 i2 w2 x w3 :
  Pulls s i w l i1 w1 ->
  evals (Next s i1) w1 (Ok (true, i2) w2) ->
  evals (Current s i2) w2 (Ok x w3) ->
  Decides pred p (l ++ [x]) ->
  Forall (fun y => p y = true) l ->
  p x = false ->
  Calls (takeWhile_func s pred) (mkTakeWhileEnv i false) w l
        (mkTakeWhileEnv i2 true) w3.
Proof.
  intros Hp Hn2 Hc2.
  induction Hp as [i w|i w j wj y wy l i1 w1 Hn Hc Hp IH]; intros Hd Hall Hpx.
  - pose proof (Decides_head pred p x [] w3 Hd) as Hx. rewrite Hpx in Hx.
    apply Calls_nil. simpl. eapply evals_loop_continue.
    + unfold takeWhile_body. simpl. eval_steps.
    + apply evals_loop_break. unfold takeWhile_body. simpl. apply evals_ret.
  - pose proof (Decides_head pred p y (l ++ [x]) wy Hd) as Hy.
    inversion Hall as [|? ? Hpy Hall']; subst. rewrite Hpy in Hy.
    eapply Calls_cons; [|apply IH; [done|by eapply Decides_cons|done|done]].
    simpl. apply evals_loop_break. unfold takeWhile_body. simpl. eval_steps.
Qed.

(** X3.  [TakeWhile(pred)] yields the items before the first one that
    fails the predicate; it reads that item and asks the source for nothing
    after it.  When every item passes it yields them all. *)
Theorem TakeWhile_longest_prefix {A} (s : Sequence A) (pred : A -> M bool)
    (p : A -> bool) :
  (forall w i0 w0 l x i1 w1,
     evals (Iterator s) w (Ok i0 w0) ->
     Pulls s i0 w0 (l ++ [x]) i1 w1 ->
     Decides pred p (l ++ [x]) ->
     Forall (fun y => p y = true) l ->
     p x = false ->
     evals (ToSlice (TakeWhile s pred)) w (Ok l w1)) /\
  (forall w l w',
     Yields s w l w' ->
     Decides pred p l ->
     Forall (fun y => p y = true) l ->
     evals (ToSlice (TakeWhile s pred)) w (Ok l w')).
Proof.
  split.
  - intros w i0 w0 l x i1 w1 Hi Hp Hd Hall Hpx.
    destruct (Pulls_snoc_inv _ _ _ _ _ _ _ Hp) as (j & wj & wk & Hl & Hn & Hc).
    apply Yields_ToSlice. unfold TakeWhile, FromSequenceFunction.
    eapply Calls_Yields; [simpl; eval_steps|].
    by eapply TakeWhile_Calls_stop.
  - intros w l w' (i0 & w0 & i' & Hi & Hr) Hd Hall.
    apply Yields_ToSlice. unfold TakeWhile, FromSequenceFunction.
    eapply Calls_Yields; [simpl; eval_steps|].
    by eapply TakeWhile_Calls_all.
Qed.

Local Abbreviation skipWhile_func s pred :=
  (mkSequenceFunc
     (let* i := Iterator s in ret (mkSkipWhileEnv i false))
     (fun env => loop (skipWhile_body s pred) env)).

(** Once [skipped] is set the closure passes everything on, and does not
    call the predicate. *)
Lemma SkipWhile_Calls_skipped {A} (s : Sequence A) (pred : A -> M bool) i w l i' w' :
  Runs s i w l i' w' ->
  Calls (skipWhile_func s pred) (mkSkipWhileEnv i true) w l
        (mkSkipWhileEnv i' true) w'.
Proof.
  intros Hr.
  induction Hr as [i w i' w' Hn|i w j wj x wx l i' w' Hn Hc Hr IH].
  - apply Calls_nil. simpl. apply evals_loop_break.
    unfold skipWhile_body. simpl. eval_steps.
  - eapply Calls_cons; [|exact IH].
    simpl. apply evals_loop_break. unfold skipWhile_body. simpl. eval_steps.
Qed.

Lemma SkipWhile_Calls {A} (s : Sequence A) (pred : A -> M bool) p
    l1 x l2 i w i' w' :
  Runs s i w (l1 ++ x :: l2) i' w' ->
  Decides pred p (l1 ++ [x]) ->
  Forall (fun y => p y = true) l1 ->
  p x = false ->
  Calls (skipWhile_func s pred) (mkSkipWhileEnv i false) w (x :: l2)
        (mkSkipWhileEnv i' true) w'.
Proof.
  revert i w. induction l1 as [|y l1 IH]; intros i w Hr Hd Hall Hpx; simpl in Hr;
    inversion Hr as [|? ? j wj ? wy ? ? ? Hn Hc Hr']; subst.
  - pose proof (Decides_head pred p x [] wy Hd) as Hx. rewrite Hpx in Hx.
    eapply Calls_cons; [|by apply SkipWhile_Calls_skipped].
    simpl. apply evals_loop_break. unfold skipWhile_body. simpl. eval_deep.
  - pose proof (Decides_head pred p y (l1 ++ [x]) wy Hd) as Hy.
    inversion Hall as [|? ? Hpy Hall']; subst. rewrite Hpy in Hy.
    eapply Calls_loop_continue;
      [|apply IH; [done|by eapply Decides_cons|done|done]].
    unfold skipWhile_body. simpl. eval_deep.
Qed.

Lemma SkipWhile_Calls_all {A} (s : Sequence A) (pred : A -> M bool) p i w l i' w' :
  Runs s i w l i' w' ->
  Decides pred p l ->
  Forall (fun y => p y = true) l ->
  Calls (skipWhile_func s pred) (mkSkipWhileEnv i false) w []
        (mkSkipWhileEnv i' false) w'.
Proof.
  intros Hr.
  induction Hr as [i w i' w' Hn|i w j wj x wx l i' w' Hn Hc Hr IH]; intros Hd Hall.
  - apply Calls_nil. simpl. apply evals_loop_break.
    unfold skipWhile_body. simpl. eval_steps.
  - pose proof (Decides_head pred p x l wx Hd) as Hx.
    inversion Hall as [|? ? Hpx Hall']; subst. rewrite Hpx in Hx.
    eapply Calls_loop_continue; [|apply IH; [by eapply Decides_cons|done]].
    unfold skipWhile_body. simpl. eval_deep.
Qed.

(** X4.  [SkipWhile(pred)] drops the items before the first one that
    fails the predicate and yields that item and everything after it; the
    predicate is not called again after that item (nothing is assumed of it
    on the later items).  When every item passes it yields nothing. *)
Theorem SkipWhile_from_first_failure {A} (s : Sequence A) (pred : A -> M bool)
    (p : A -> bool) :
  (forall w l1 x l2 w',
     Yields s w (l1 ++ x :: l2) w' ->
     Decides pred p (l1 ++ [x]) ->
     Forall (fun y => p y = true) l1 ->
     p x = false ->
     evals (ToSlice (SkipWhile s pred)) w (Ok (x :: l2) w')) /\
  (forall w l w',
     Yields s w l w' ->
     Decides pred p l ->
     Forall (fun y => p y = true) l ->
     evals (ToSlice (SkipWhile s pred)) w (Ok [] w')).
Proof.
  split.
  - intros w l1 x l2 w' (i0 & w0 & i' & Hi & Hr) Hd Hall Hpx.
    apply Yields_ToSlice. unfold SkipWhile, FromSequenceFunction.
    eapply Calls_Yields; [simpl; eval_steps|].
    by eapply SkipWhile_Calls.
  - intros w l w' (i0 & w0 & i' & Hi & Hr) Hd Hall.
    apply Yields_ToSlice. unfold SkipWhile, FromSequenceFunction.
    eapply Calls_Yields; [simpl; eval_steps|].
    by eapply SkipWhile_Calls_all.
Qed.
End TakeProofs.

(** Iterates a concrete sequence step by step. *)
Ltac pulls_compute :=
  repeat (eapply Pulls_cons;
          [ apply evals_always; intros; cbv; reflexivity
          | apply evals_always; intros; cbv; reflexivity
          | ]);
  apply Pulls_nil.

Lemma Take_first_n_witness :
  0 < 3 /\
  (exists i0 i1,
     evals (Iterator naturals) w0 (Ok i0 w0) /\
     Pulls naturals i0 w0 [0; 1; 2] i1 w0) /\
  evals (let* q := Take naturals 3 in ToSlice q) w0 (Ok [0; 1; 2] w0).
Proof.
  assert (exists i0 i1,
            evals (Iterator naturals) w0 (Ok i0 w0) /\
            Pulls naturals i0 w0 [0; 1; 2] i1 w0) as Hp.
  { eexists _, _. split.
    - apply evals_always. intros. reflexivity.
    - pulls_compute. }
  split; [lia|]. split; [exact Hp|].
  destruct Hp as (i0 & i1 & Hi & Hp).
  apply (proj1 (proj2 (proj2 (Take_first_n naturals 3))) ltac:(lia)
               w0 i0 w0 [0; 1; 2] i1 w0 Hi Hp).
  reflexivity.
Defined.

Lemma TakeWhile_longest_prefix_witness :
  evals (Iterator (FromItems [2; 4; 5; 6])) w0 (Ok (mkTIterator [2; 4; 5; 6] (-1)) w0) /\
  Pulls (FromItems [2; 4; 5; 6]) (mkTIterator [2; 4; 5; 6] (-1)) w0 ([2; 4] ++ [5])
        (mkTIterator [2; 4; 5; 6] 2) w0 /\
  Decides isEven Z.even ([2; 4] ++ [5]) /\
  evals (ToSlice (TakeWhile (FromItems [2; 4; 5; 6]) isEven)) w0 (Ok [2; 4] w0).
Proof.
  assert (evals (Iterator (FromItems [2; 4; 5; 6])) w0
                (Ok (mkTIterator [2; 4; 5; 6] (-1)) w0)) as Hi.
  { apply evals_always. intros. reflexivity. }
  assert (Pulls (FromItems [2; 4; 5; 6]) (mkTIterator [2; 4; 5; 6] (-1)) w0
                ([2; 4] ++ [5]) (mkTIterator [2; 4; 5; 6] 2) w0) as Hp.
  { simpl. pulls_compute. }
  assert (Decides isEven Z.even ([2; 4] ++ [5])) as Hd.
  { intros x w _. apply evals_ret. }
  split; [exact Hi|]. split; [exact Hp|]. split; [exact Hd|].
  apply (proj1 (TakeWhile_longest_prefix (FromItems [2; 4; 5; 6]) isEven Z.even)
               w0 _ w0 [2; 4] 5 _ w0 Hi Hp Hd).
  - repeat constructor.
  - reflexivity.
Defined.

Lemma SkipWhile_from_first_failure_witness :
  Yields (FromItems [2; 4; 5; 6]) w0 ([2; 4] ++ 5 :: [6]) w0 /\
  Decides isEven Z.even ([2; 4] ++ [5]) /\
  evals (ToSlice (SkipWhile (FromItems [2; 4; 5; 6]) isEven)) w0 (Ok [5; 6] w0).
Proof.
  pose proof (TSequence_Yields (U:=unit) [2; 4; 5; 6] w0) as Hy.
  assert (Decides isEven Z.even ([2; 4] ++ [5])) as Hd.
  { intros x w _. apply evals_ret. }
  split; [exact Hy|]. split; [exact Hd|].
  apply (proj1 (SkipWhile_from_first_failure (FromItems [2; 4; 5; 6]) isEven Z.even)
               w0 [2; 4] 5 [6] w0 Hy Hd).
  - repeat constructor.
  - reflexivity.
Defined.

Section FirstLastProofs.
Context {T U : Type}.
Local Abbreviation M := (M T U).
Local Abbreviation World := (World T U).
Local Abbreviation Sequence := (@Sequence T U).
Implicit Types w : World.

Lemma All_loop_all {A} (s : Sequence A) (pred : A -> M bool) p i w l i' w' :
  Runs s i w l i' w' ->
  Decides pred p l ->
  Forall (fun y => p y = true) l ->
  evals (loop (all_body s pred) i) w (Ok true w').
Proof.
  intros Hr.
  induction Hr as [i w i' w' Hn|i w j wj x wx l i' w' Hn Hc Hr IH]; intros Hd Hall.
  - apply evals_loop_break. unfold all_body. eval_deep.
  - pose proof (Decides_head pred p x l wx Hd) as Hx.
    inversion Hall as [|? ? Hpx Hall']; subst. rewrite Hpx in Hx.
    eapply evals_loop_continue; [|apply IH; [by eapply Decides_cons|done]].
    unfold all_body. eval_deep.
Qed.

Lemma All_loop_stop {A} (s : Sequence A) (pred : A -> M bool) p
    i w l i1 w1 i2 w2 x w3 :
  Pulls s i w l i1 w1 ->
  evals (Next s i1) w1 (Ok (true, i2) w2) ->
  evals (Current s i2) w2 (Ok x w3) ->
  Decides pred p (l ++ [x]) ->
  Forall (fun y => p y = true) l ->
  p x = false ->
  evals (loop (all_body s pred) i) w (Ok false w3).
Proof.
  intros Hp Hn2 Hc2.
  induction Hp as [i w|i w j wj y wy l i1 w1 Hn Hc Hp IH]; intros Hd Hall Hpx.
  - pose proof (Decides_head pred p x [] w3 Hd) as Hx. rewrite Hpx in Hx.
    apply evals_loop_break. unfold all_body. eval_deep.
  - pose proof (Decides_head pred p y (l ++ [x]) wy Hd) as Hy.
    inversion Hall as [|? ? Hpy Hall']; subst. rewrite Hpy in Hy.
    eapply evals_loop_continue;
      [|apply IH; [done|by eapply Decides_cons|done|done]].
    unfold all_body. eval_deep.
Qed.

(** X5.  [All(pred)] is true when every item passes the predicate (so on
    an empty sequence), having drained the source; it is false at the first
    item that fails, and asks the source for nothing after that item. *)
Theorem All_stops_at_first_failure {A} (s : Sequence A) (pred : A -> M bool)
    (p : A -> bool) :
  (forall w l w',
     Yields s w l w' ->
     Decides pred p l ->
     Forall (fun y => p y = true) l ->
     evals (All s pred) w (Ok true w')) /\
  (forall w i0 w0 l x i1 w1,
     evals (Iterator s) w (Ok i0 w0) ->
     Pulls s i0 w0 (l ++ [x]) i1 w1 ->
     Decides pred p (l ++ [x]) ->
     Forall (fun y => p y = true) l ->
     p x = false ->
     evals (All s pred) w (Ok false w1)).
Proof.
  split.
  - intros w l w' (i0 & w0 & i' & Hi & Hr) Hd Hall.
    unfold All. eapply evals_bind; [exact Hi|]. by eapply All_loop_all.
  - intros w i0 w0 l x i1 w1 Hi Hp Hd Hall Hpx.
    destruct (Pulls_snoc_inv _ _ _ _ _ _ _ Hp) as (j & wj & wk & Hl & Hn & Hc).
    unfold All. eapply evals_bind; [exact Hi|]. by eapply All_loop_stop.
Qed.

Lemma Where_call_none {A} (s : Sequence A) (pred : A -> M bool) p i w l i' w' :
  Runs s i w l i' w' ->
  Decides pred p l ->
  Forall (fun y => p y = false) l ->
  evals (loop (where_body s pred) i) w (Ok (None, i') w').
Proof.
  intros Hr.
  induction Hr as [i w i' w' Hn|i w j wj x wx l i' w' Hn Hc Hr IH]; intros Hd Hall.
  - apply evals_loop_break. unfold where_body. eval_deep.
  - pose proof (Decides_head pred p x l wx Hd) as Hx.
    inversion Hall as [|? ? Hpx Hall']; subst. rewrite Hpx in Hx.
    eapply evals_loop_continue; [|apply IH; [by eapply Decides_cons|done]].
    unfold where_body. eval_deep.
Qed.

Lemma Where_call_first {A} (s : Sequence A) (pred : A -> M bool) p
    i w l i1 w1 i2 w2 x w3 :
  Pulls s i w l i1 w1 ->
  evals (Next s i1) w1 (Ok (true, i2) w2) ->
  evals (Current s i2) w2 (Ok x w3) ->
  Decides pred p (l ++ [x]) ->
  Forall (fun y => p y = false) l ->
  p x = true ->
  evals (loop (where_body s pred) i) w (Ok (Some x, i2) w3).
Proof.
  intros Hp Hn2 Hc2.
  induction Hp as [i w|i w j wj y wy l i1 w1 Hn Hc Hp IH]; intros Hd Hall Hpx.
  - pose proof (Decides_head pred p x [] w3 Hd) as Hx. rewrite Hpx in Hx.
    apply evals_loop_break. unfold where_body. eval_deep.
  - pose proof (Decides_head pred p y (l ++ [x]) wy Hd) as Hy.
    inversion Hall as [|? ? Hpy Hall']; subst. rewrite Hpy in Hy.
    eapply evals_loop_continue;
      [|apply IH; [done|by eapply Decides_cons|done|done]].
    unfold where_body. eval_deep.
Qed.

(** X6.  [TryFirstP], [FirstP] and [AnyP] are [Where(pred)] followed by
    [TryFirst], [First] and [Any]: they stop at the first item that passes
    the predicate and ask the source for nothing after it; when no item
    passes, [TryFirstP] reports failure, [FirstP] panics and [AnyP] is
    false, the source being drained. *)
Theorem Where_first_match {A} (s : Sequence A) (pred : A -> M bool)
    (p : A -> bool) :
  (forall w i0 w0 l x i1 w1,
     evals (Iterator s) w (Ok i0 w0) ->
     Pulls s i0 w0 (l ++ [x]) i1 w1 ->
     Decides pred p (l ++ [x]) ->
     Forall (fun y => p y = false) l ->
     p x = true ->
     evals (TryFirstP s pred) w (Ok (Some x) w1) /\
     evals (FirstP s pred) w (Ok x w1) /\
     evals (AnyP s pred) w (Ok true w1)) /\
  (forall w l w',
     Yields s w l w' ->
     Decides pred p l ->
     Forall (fun y => p y = false) l ->
     evals (TryFirstP s pred) w (Ok None w') /\
     evals (FirstP s pred) w
           (Panic "First called on empty sequence (or no items match)" w') /\
     evals (AnyP s pred) w (Ok false w')).
Proof.
  split.
  - intros w i0 w0 l x i1 w1 Hi Hp Hd Hall Hpx.
    destruct (Pulls_snoc_inv _ _ _ _ _ _ _ Hp) as (j & wj & wk & Hl & Hn & Hc).
    pose proof (Where_call_first s pred p _ _ _ _ _ _ _ _ _ Hl Hn Hc Hd Hall Hpx) as Hw.
    assert (evals (TryFirstP s pred) w (Ok (Some x) w1)) as Ht.
    { unfold TryFirstP, TryFirst, Where, FromSequenceFunction. simpl.
      unfold functionSequence_Iterator, functionIterator_Next. simpl. eval_deep. }
    split; [exact Ht|]. split.
    + unfold FirstP, First. fold (TryFirstP s pred). eval_deep.
    + unfold AnyP, Any, Where, FromSequenceFunction. simpl.
      unfold functionSequence_Iterator, functionIterator_Next. simpl. eval_deep.
  - intros w l w' (i0 & w0 & i' & Hi & Hr) Hd Hall.
    pose proof (Where_call_none s pred p _ _ _ _ _ Hr Hd Hall) as Hw.
    assert (evals (TryFirstP s pred) w (Ok None w')) as Ht.
    { unfold TryFirstP, TryFirst, Where, FromSequenceFunction. simpl.
      unfold functionSequence_Iterator, functionIterator_Next. simpl. eval_deep. }
    split; [exact Ht|]. split.
    + unfold FirstP, First. fold (TryFirstP s pred). eval_deep.
    + unfold AnyP, Any, Where, FromSequenceFunction. simpl.
      unfold functionSequence_Iterator, functionIterator_Next. simpl. eval_deep.
Qed.

(** X7.  [TryFirst], [First] and [FirstOrNil] read one item and ask the
    source for nothing more; on an empty sequence [TryFirst] reports
    failure, [First] panics and [FirstOrNil] is nil. *)
Theorem First_reads_one_item {A} (s : Sequence A) (nil : A) :
  (forall w i0 w0 x i1 w1,
     evals (Iterator s) w (Ok i0 w0) ->
     Pulls s i0 w0 [x] i1 w1 ->
     evals (TryFirst s) w (Ok (Some x) w1) /\
     evals (First s) w (Ok x w1) /\
     evals (FirstOrNil nil s) w (Ok x w1)) /\
  (forall w w',
     Yields s w [] w' ->
     evals (TryFirst s) w (Ok None w') /\
     evals (First s) w
           (Panic "First called on empty sequence (or no items match)" w') /\
     evals (FirstOrNil nil s) w (Ok nil w')).
Proof.
  split.
  - intros w i0 w0 x i1 w1 Hi Hp.
    inversion Hp as [|? ? j wj ? wx ? ? ? Hn Hc Hp']; subst.
    inversion Hp'; subst.
    assert (evals (TryFirst s) w (Ok (Some x) w1)) as Ht.
    { unfold TryFirst. eval_deep. }
    split; [exact Ht|]. split.
    + unfold First. eval_deep.
    + unfold FirstOrNil. eval_deep.
  - intros w w' (i0 & w0 & i' & Hi & Hr).
    inversion Hr as [? ? ? ? Hn|]; subst.
    assert (evals (TryFirst s) w (Ok None w')) as Ht.
    { unfold TryFirst. eval_deep. }
    split; [exact Ht|]. split.
    + unfold First. eval_deep.
    + unfold FirstOrNil. eval_deep.
Qed.

Lemma last_cons_default {A} (z : A) l y : List.last (z :: l) y = List.last l z.
Proof.
  revert z y. induction l as [|a l IH]; intros z y; [done|].
  change (List.last (z :: a :: l) y) with (List.last (a :: l) y).
  by rewrite (IH a y), (IH a z).
Qed.

Lemma TryLast_loop {A} (s : Sequence A) i w y wy l i' w' :
  evals (Current s i) w (Ok y wy) ->
  Runs s i wy l i' w' ->
  evals (loop (last_body s) i) w (Ok (Some (List.last l y)) w').
Proof.
  intros Hy Hr. revert w y Hy.
  induction Hr as [i wy i' w' Hn|i wy j wj x wx l i' w' Hn Hc Hr IH]; intros w y Hy.
  - apply evals_loop_break. unfold last_body. eval_deep.
  - rewrite last_cons_default.
    eapply evals_loop_continue; [|by apply IH].
    unfold last_body. eval_deep.
Qed.

(** X8.  [TryLast], [Last] and [LastOrNil] drain the source and give its
    last item; on an empty sequence [TryLast] reports failure, [Last]
    panics and [LastOrNil] is nil. *)
Theorem Last_is_last_item {A} (s : Sequence A) (nil : A) :
  (forall w l x w',
     Yields s w (l ++ [x]) w' ->
     evals (TryLast s) w (Ok (Some x) w') /\
     evals (Last s) w (Ok x w') /\
     evals (LastOrNil nil s) w (Ok x w')) /\
  (forall w w',
     Yields s w [] w' ->
     evals (TryLast s) w (Ok None w') /\
     evals (Last s) w
           (Panic "Last called on empty sequence (or no items match)" w') /\
     evals (LastOrNil nil s) w (Ok nil w')).
Proof.
  split.
  - intros w l x w' (i0 & w0 & i' & Hi & Hr).
    assert (evals (TryLast s) w (Ok (Some x) w')) as Ht.
    { destruct l as [|y l]; simpl in Hr;
        inversion Hr as [|? ? j wj ? wy ? ? ? Hn Hc Hr']; subst.
      - pose proof (TryLast_loop s _ _ _ _ _ _ _ Hc Hr') as Hl. simpl in Hl.
        unfold TryLast. eval_deep.
      - pose proof (TryLast_loop s _ _ _ _ _ _ _ Hc Hr') as Hl.
        rewrite last_last in Hl.
        unfold TryLast. eval_deep. }
    split; [exact Ht|]. split.
    + unfold Last. eval_deep.
    + unfold LastOrNil. eval_deep.
  - intros w w' (i0 & w0 & i' & Hi & Hr).
    inversion Hr as [? ? ? ? Hn|]; subst.
    assert (evals (TryLast s) w (Ok None w')) as Ht.
    { unfold TryLast. eval_deep. }
    split; [exact Ht|]. split.
    + unfold Last. eval_deep.
    + unfold LastOrNil. eval_deep.
Qed.

(** X9.  [TrySingle], [Single] and [SingleOrNil] give the item of a
    one-item sequence.  On an empty sequence [TrySingle] returns the empty
    error, [Single] panics with it and [SingleOrNil] is nil.  When [Next]
    returns true a second time, [TrySingle] returns the too-many-items
    error and [Single] and [SingleOrNil] panic with it; the second item is
    not read and the source is asked for nothing more. *)
Theorem Single_exactly_one {A} (s : Sequence A) (nil : A) :
  (forall w x w',
     Yields s w [x] w' ->
     evals (TrySingle s) w (Ok (inl x) w') /\
     evals (Single s) w (Ok x w') /\
     evals (SingleOrNil nil s) w (Ok x w')) /\
  (forall w w',
     Yields s w [] w' ->
     evals (TrySingle s) w (Ok (inr emptyError) w') /\
     evals (Single s) w
           (Panic "the sequence was empty (or no items matched)" w') /\
     evals (SingleOrNil nil s) w (Ok nil w')) /\
  (forall w i0 w0 x i1 w1 i2 w2,
     evals (Iterator s) w (Ok i0 w0) ->
     Pulls s i0 w0 [x] i1 w1 ->
     evals (Next s i1) w1 (Ok (true, i2) w2) ->
     evals (TrySingle s) w (Ok (inr tooManyItemsError) w2) /\
     evals (Single s) w
           (Panic "the sequence contained too many items (or too many items matched)" w2) /\
     evals (SingleOrNil nil s) w
           (Panic "the sequence contained too many items (or too many items matched)" w2)) /\
  IsEmptyError emptyError = true /\ IsTooManyItemsError emptyError = false /\
  IsEmptyError tooManyItemsError = false /\ IsTooManyItemsError tooManyItemsError = true.
Proof.
  split; [|split; [|split; [|done]]].
  - intros w x w' (i0 & w0 & i' & Hi & Hr).
    inversion Hr as [|? ? j wj ? wx ? ? ? Hn Hc Hr']; subst.
    inversion Hr' as [? ? ? ? Hn'|]; subst.
    assert (evals (TrySingle s) w (Ok (inl x) w')) as Ht.
    { unfold TrySingle. eval_deep. }
    split; [exact Ht|]. split.
    + unfold Single. eval_deep.
    + unfold SingleOrNil. eval_deep.
  - intros w w' (i0 & w0 & i' & Hi & Hr).
    inversion Hr as [? ? ? ? Hn|]; subst.
    assert (evals (TrySingle s) w (Ok (inr emptyError) w')) as Ht.
    { unfold TrySingle. eval_deep. }
    split; [exact Ht|]. split.
    + unfold Single. eval_deep.
    + unfold SingleOrNil. eval_deep.
  - intros w i0 w0 x i1 w1 i2 w2 Hi Hp Hn2.
    inversion Hp as [|? ? j wj ? wx ? ? ? Hn Hc Hp']; subst.
    inversion Hp'; subst.
    assert (evals (TrySingle s) w (Ok (inr tooManyItemsError) w2)) as Ht.
    { unfold TrySingle. eval_deep. }
    split; [exact Ht|]. split.
    + unfold Single. eval_deep.
    + unfold SingleOrNil. eval_deep.
Qed.
End FirstLastProofs.

Lemma All_stops_at_first_failure_witness :
  (exists i0 i1,
     evals (Iterator (FromItems [2; 4; 5; 6])) w0 (Ok i0 w0) /\
     Pulls (FromItems [2; 4; 5; 6]) i0 w0 ([2; 4] ++ [5]) i1 w0) /\
  Decides isEven Z.even ([2; 4] ++ [5]) /\
  evals (All (FromItems [2; 4; 5; 6]) isEven) w0 (Ok false w0).
Proof.
  assert (exists i0 i1,
            evals (Iterator (FromItems [2; 4; 5; 6])) w0 (Ok i0 w0) /\
            Pulls (FromItems [2; 4; 5; 6]) i0 w0 ([2; 4] ++ [5]) i1 w0) as Hp.
  { eexists _, _. split.
    - apply evals_always. intros. reflexivity.
    - simpl. pulls_compute. }
  assert (Decides isEven Z.even ([2; 4] ++ [5])) as Hd.
  { intros x w _. apply evals_ret. }
  split; [exact Hp|]. split; [exact Hd|].
  destruct Hp as (i0 & i1 & Hi & Hp).
  apply (proj2 (All_stops_at_first_failure (FromItems [2; 4; 5; 6]) isEven Z.even)
               w0 i0 w0 [2; 4] 5 i1 w0 Hi Hp Hd).
  - repeat constructor.
  - reflexivity.
Defined.

Lemma Where_first_match_witness :
  (exists i0 i1,
     evals (Iterator naturals) w0 (Ok i0 w0) /\
     Pulls naturals i0 w0 ([] ++ [0]) i1 w0) /\
  Decides isEven Z.even ([] ++ [0]) /\
  evals (TryFirstP naturals isEven) w0 (Ok (Some 0) w0) /\
  evals (FirstP naturals isEven) w0 (Ok 0 w0) /\
  evals (AnyP naturals isEven) w0 (Ok true w0).
Proof.
  assert (exists i0 i1,
            evals (Iterator naturals) w0 (Ok i0 w0) /\
            Pulls naturals i0 w0 ([] ++ [0]) i1 w0) as Hp.
  { eexists _, _. split.
    - apply evals_always. intros. reflexivity.
    - simpl. pulls_compute. }
  assert (Decides isEven Z.even ([] ++ [0])) as Hd.
  { intros x w _. apply evals_ret. }
  split; [exact Hp|]. split; [exact Hd|].
  destruct Hp as (i0 & i1 & Hi & Hp).
  apply (proj1 (Where_first_match naturals isEven Z.even)
               w0 i0 w0 [] 0 i1 w0 Hi Hp Hd).
  - constructor.
  - reflexivity.
Defined.

Lemma First_reads_one_item_witness :
  (exists i0 i1,
     evals (Iterator naturals) w0 (Ok i0 w0) /\
     Pulls naturals i0 w0 [0] i1 w0) /\
  evals (TryFirst naturals) w0 (Ok (Some 0) w0) /\
  evals (First naturals) w0 (Ok 0 w0) /\
  evals (FirstOrNil (-1) naturals) w0 (Ok 0 w0).
Proof.
  assert (exists i0 i1,
            evals (Iterator naturals) w0 (Ok i0 w0) /\
            Pulls naturals i0 w0 [0] i1 w0) as Hp.
  { eexists _, _. split.
    - apply evals_always. intros. reflexivity.
    - pulls_compute. }
  split; [exact Hp|].
  destruct Hp as (i0 & i1 & Hi & Hp).
  exact (proj1 (First_reads_one_item naturals (-1)) w0 i0 w0 0 i1 w0 Hi Hp).
Defined.

Lemma Last_is_last_item_witness :
  Yields (FromItems [1; 2; 3]) w0 ([1; 2] ++ [3]) w0 /\
  evals (TryLast (FromItems [1; 2; 3])) w0 (Ok (Some 3) w0) /\
  evals (Last (FromItems [1; 2; 3])) w0 (Ok 3 w0) /\
  evals (LastOrNil (-1) (FromItems [1; 2; 3])) w0 (Ok 3 w0).
Proof.
  pose proof (TSequence_Yields (U:=unit) [1; 2; 3] w0) as Hy.
  split; [exact Hy|].
  exact (proj1 (Last_is_last_item (FromItems [1; 2; 3]) (-1)) w0 [1; 2] 3 w0 Hy).
Defined.

Lemma Single_exactly_one_witness :
  Yields (FromItems [7]) w0 [7] w0 /\
  evals (TrySingle (FromItems [7])) w0 (Ok (inl 7) w0) /\
  evals (Single (FromItems [7])) w0 (Ok 7 w0) /\
  evals (SingleOrNil (-1) (FromItems [7])) w0 (Ok 7 w0).
Proof.
  pose proof (TSequence_Yields (U:=unit) [7] w0) as Hy.
  split; [exact Hy|].
  exact (proj1 (Single_exactly_one (FromItems [7]) (-1)) w0 7 w0 Hy).
Defined.

Section SkipProofs.
Context {T U : Type}.
Local Abbreviation M := (M T U).
Local Abbreviation World := (World T U).
Local Abbreviation Sequence := (@Sequence T U).
Implicit Types w : World.

Local Abbreviation skip_body s n :=
  (fun st : Z * ISt s =>
     let '(count, i) := st in
     if count <? n
     then let* (more, i') := Next s i in
          if more : bool
          then ret (inl (count + 1, i'))
          else ret (inr i')
     else ret (inr i)).

Lemma skip_loop_skips N (s : Sequence T) n l i i' c w :
  PureRuns N s i l i' ->
  0 <= n - c <= Z.of_nat (length l) ->
  exists i1,
    evals (loop (skip_body s n) (c, i)) w (Ok i1 w) /\
    PureRuns N s i1 (drop (Z.to_nat (n - c)) l) i'.
Proof.
  intros Hr. revert c.
  induction Hr as [i i' Hn|i j x l i' Hn Hc Hr IH]; intros c Hlen; simpl in Hlen.
  - exists i. split.
    + apply evals_loop_break. ztest. apply evals_ret.
    + rewrite drop_nil. by apply PureRuns_nil.
  - destruct (decide (c = n)) as [->|Hne].
    + exists i. split.
      * apply evals_loop_break. ztest. apply evals_ret.
      * replace (n - n) with 0 by lia. simpl. by eapply PureRuns_cons.
    + destruct (IH (c + 1)) as (i1 & He & Hr1); [lia|].
      exists i1. split.
      * eapply evals_loop_continue; [|exact He].
        ztest. eapply evals_bind; [exists N; intros k Hk; by apply Hn|].
        simpl. apply evals_ret.
      * replace (Z.to_nat (n - c)) with (Datatypes.S (Z.to_nat (n - (c + 1)))) by lia.
        exact Hr1.
Qed.

Lemma skip_loop_exhausts N (s : Sequence T) n l i i' c w :
  PureRuns N s i l i' ->
  Z.of_nat (length l) < n - c ->
  evals (loop (skip_body s n) (c, i)) w (Ok i' w).
Proof.
  intros Hr. revert c.
  induction Hr as [i i' Hn|i j x l i' Hn Hc Hr IH]; intros c Hlen; simpl in Hlen.
  - apply evals_loop_break. ztest.
    eapply evals_bind; [exists N; intros k Hk; by apply Hn|].
    simpl. apply evals_ret.
  - eapply evals_loop_continue; [|apply (IH (c + 1)); lia].
    ztest. eapply evals_bind; [exists N; intros k Hk; by apply Hn|].
    simpl. apply evals_ret.
Qed.

Lemma Skip_Calls_skipped N (s : Sequence T) n i l i' w :
  PureRuns N s i l i' ->
  Calls (Skip_func s n) (mkSkipEnv i true) w l (mkSkipEnv i' true) w.
Proof.
  intros Hr. induction Hr as [i i' Hn|i j x l i' Hn Hc Hr IH].
  - apply Calls_nil. simpl.
    eapply evals_bind; [apply evals_ret|].
    eapply evals_bind; [exists N; intros k Hk; by apply Hn|].
    simpl. apply evals_ret.
  - eapply Calls_cons; [|exact IH]. simpl.
    eapply evals_bind; [apply evals_ret|].
    eapply evals_bind; [exists N; intros k Hk; by apply Hn|]. simpl.
    eapply evals_bind; [exists N; intros k Hk; by apply Hc|].
    apply evals_ret.
Qed.

Lemma Skip_Calls_first N (s : Sequence T) n i i1 l i' w :
  evals (skip_loop s n i) w (Ok i1 w) ->
  PureRuns N s i1 l i' ->
  Calls (Skip_func s n) (mkSkipEnv i false) w l (mkSkipEnv i' true) w.
Proof.
  intros He Hr. inversion Hr as [? ? Hn|? j x l' ? Hn Hc Hr']; subst.
  - apply Calls_nil. simpl.
    eapply evals_bind; [exact He|].
    eapply evals_bind; [exists N; intros k Hk; by apply Hn|].
    simpl. apply evals_ret.
  - eapply Calls_cons; [|by eapply Skip_Calls_skipped]. simpl.
    eapply evals_bind; [exact He|].
    eapply evals_bind; [exists N; intros k Hk; by apply Hn|]. simpl.
    eapply evals_bind; [exists N; intros k Hk; by apply Hc|].
    apply evals_ret.
Qed.

(** X10.  [Skip(n)] rejects a negative [n] and [Skip(0)] returns the
    receiver itself.  For [0 < n <= len] it yields the items after the first
    [n], having advanced over the first [n] without reading them.  For
    [n > len] it yields nothing, provided the source's [Next] keeps
    returning false once it has: [Skip] calls [Next] again after the
    skipping loop has seen it return false. *)
Theorem Skip_drops_first_n (s : Sequence T) (n : Z) :
  (n < 0 -> forall k w, Skip s n k w = Panic "argument must be non-negative" w) /\
  (n = 0 -> forall k w, Skip s n k w = Ok s w) /\
  (0 < n -> forall N l w,
     PureYields N s l ->
     n <= Z.of_nat (length l) ->
     evals (let* q := Skip s n in ToSlice q) w (Ok (drop (Z.to_nat n) l) w)) /\
  (0 < n -> forall N l i0 i' w,
     (forall k w, (N <= k)%nat -> Iterator s k w = Ok i0 w) ->
     PureRuns N s i0 l i' ->
     (forall k w, (N <= k)%nat -> Next s i' k w = Ok (false, i') w) ->
     Z.of_nat (length l) < n ->
     evals (let* q := Skip s n in ToSlice q) w (Ok [] w)).
Proof.
  repeat split.
  - intros Hn k w. unfold Skip. by ztest.
  - intros -> k w. reflexivity.
  - intros Hn N l w (i0 & i' & Hi & Hr) Hlen. unfold Skip. ztest.
    eapply evals_bind; [apply evals_ret|].
    apply Yields_ToSlice. unfold FromSequenceFunction.
    destruct (skip_loop_skips N s n l i0 i' 0 w Hr) as (i1 & He & Hr1); [lia|].
    rewrite Z.sub_0_r in Hr1.
    eapply Calls_Yields; [|by eapply Skip_Calls_first].
    simpl. eapply evals_bind; [exists N; intros k Hk; by apply Hi|]. apply evals_ret.
  - intros Hn N l i0 i' w Hi Hr Hend Hlen. unfold Skip. ztest.
    eapply evals_bind; [apply evals_ret|].
    apply Yields_ToSlice. unfold FromSequenceFunction.
    eapply Calls_Yields.
    + simpl. eapply evals_bind; [exists N; intros k Hk; by apply Hi|]. apply evals_ret.
    + eapply Skip_Calls_first.
      * apply (skip_loop_exhausts N s n l i0 i' 0 w Hr). lia.
      * apply (PureRuns_nil N s i' i'). exact Hend.
Qed.
End SkipProofs.

Section SkipMapProofs.
Context {T U : Type} `{Countable K} {V : Type}.
Local Abbreviation M := (M T U).
Local Abbreviation World := (World T U).
Implicit Types w : World.

Local Abbreviation map_seq m := (genericMapSequence m : @Sequence T U (Pair K V)).

Lemma skip_loop_map_exhausts (m : gmap K V) n rest (i : MapIter K V) c w :
  i = MapIter_fresh rest \/ (exists k v, i = MapIter_at k v rest) ->
  Z.of_nat (length rest) < n - c ->
  evals (loop (fun st : Z * ISt (map_seq m) =>
                 let '(count, i) := st in
                 if count <? n
                 then let* (more, i') := Next (map_seq m) i in
                      if more : bool
                      then ret (inl (count + 1, i'))
                      else ret (inr i')
                 else ret (inr i))
              (c, i)) w (Ok MapIter_exhausted w).
Proof.
  revert i c. induction rest as [|[k v] rest IH]; intros i c Hi Hlen; simpl in Hlen.
  - apply evals_loop_break. ztest.
    destruct Hi as [->|(k & v & ->)]; simpl; eval_deep.
  - eapply evals_loop_continue.
    + ztest. destruct Hi as [->|(k' & v' & ->)]; simpl; eval_deep.
    + apply IH; [right; by exists k, v|lia].
Qed.

(** X11.  On a map-backed sequence with fewer than [n] entries,
    [Skip(n)] does not yield an empty sequence: its first [Next] panics.
    The skipping loop runs the map's iterator to its end, and the call of
    [Next] that follows is one [reflect.MapIter] answers with a panic. *)
Theorem Skip_past_end_of_map_panics (m : gmap K V) (n : Z) w :
  Z.of_nat (size m) < n ->
  (exists q i0,
     evals (Skip (map_seq m) n) w (Ok q w) /\
     evals (Iterator q) w (Ok i0 w) /\
     evals (Next q i0) w (Panic "MapIter.Next called on exhausted iterator" w)) /\
  evals (let* q := Skip (map_seq m) n in ToSlice q) w
        (Panic "MapIter.Next called on exhausted iterator" w).
Proof.
  intros Hlen. rewrite <- length_map_to_list in Hlen.
  assert (0 < n) as Hn by lia.
  assert (evals (skip_loop (map_seq m) n (MapIter_fresh (map_to_list m))) w
                (Ok MapIter_exhausted w)) as Hs.
  { apply (skip_loop_map_exhausts m n (map_to_list m)); [by left|lia]. }
  assert (evals (Next (FromSequenceFunction (Skip_func (map_seq m) n))
                      (mkFunctionIterator (sf:=Skip_func (map_seq m) n)
                         (mkSkipEnv (s:=map_seq m) (MapIter_fresh (map_to_list m)) false)
                         None)) w
                (Panic "MapIter.Next called on exhausted iterator" w)) as Hp.
  { simpl. unfold functionIterator_Next. simpl.
    apply evals_bind_panic.
    eapply evals_bind; [exact Hs|].
    apply evals_bind_panic. simpl. apply evals_panic. }
  split.
  - eexists _, _. split; [|split].
    + unfold Skip. ztest. apply evals_ret.
    + simpl. unfold functionSequence_Iterator. simpl. eval_deep.
    + exact Hp.
  - unfold Skip. ztest. eapply evals_bind; [apply evals_ret|].
    unfold ToSlice. eapply evals_bind.
    + simpl. unfold functionSequence_Iterator. simpl. eval_deep.
    + apply evals_loop_panic. apply evals_bind_panic. exact Hp.
Qed.
End SkipMapProofs.

Lemma Skip_drops_first_n_witness :
  0 < 2 /\
  PureYields 0 (FromItems [1; 2; 3; 4]) [1; 2; 3; 4] /\
  evals (let* q := Skip (FromItems [1; 2; 3; 4]) 2 in ToSlice q) w0 (Ok [3; 4] w0).
Proof.
  pose proof (TSequence_PureYields (U:=unit) [1; 2; 3; 4]) as Hy.
  split; [lia|]. split; [exact Hy|].
  apply (proj1 (proj2 (proj2 (Skip_drops_first_n (FromItems [1; 2; 3; 4]) 2)))
               ltac:(lia) 0%nat [1; 2; 3; 4] w0 Hy).
  simpl. lia.
Defined.

Lemma Skip_past_end_of_map_panics_witness :
  Z.of_nat (size ({[1 := 10]} : gmap Z Z)) < 3 /\
  evals (let* q := Skip (genericMapSequence ({[1 := 10]} : gmap Z Z)
                           : @Sequence Z unit (Pair Z Z)) 3 in
         ToSlice q) w0
        (Panic "MapIter.Next called on exhausted iterator" w0).
Proof.
  assert (Z.of_nat (size ({[1 := 10]} : gmap Z Z)) < 3) as Hlen by reflexivity.
  split; [exact Hlen|].
  exact (proj2 (Skip_past_end_of_map_panics (T:=Z) (U:=unit)
                  ({[1 := 10]} : gmap Z Z) 3 w0 Hlen)).
Defined.

(** ** aggregate.go: the aggregators built on [TryAggregate] *)

Section MoreAggregateProofs.
Context {T U : Type}.
Local Abbreviation M := (M T U).
Local Abbreviation World := (World T U).
Local Abbreviation Sequence := (@Sequence T U).
Implicit Types w : World.

(** The aggregator closure [agg] computes [g] and has no effect. *)
Local Abbreviation Computes agg g :=
  (forall (a b : T) w, evals (agg a b : M T) w (Ok (g a b) w)).

Lemma TryAggregate_loop_pure (s : Sequence T) (agg : T -> T -> M T) g i w rest i' w' v :
  Computes agg g ->
  Runs s i w rest i' w' ->
  evals (loop (fun st : ISt s * T =>
                 let '(i, v) := st in
                 let* (more, i') := Next s i in
                 if more : bool
                 then let* c := Current s i' in
                      let* v' := agg v c in
                      ret (inl (i', v'))
                 else ret (inr (Some v)))
              (i, v)) w (Ok (Some (foldl g v rest)) w').
Proof.
  intros Hg Hr. revert v.
  induction Hr as [i w i' w' Hn|i w j wj x wx l i' w' Hn Hc Hr IH]; intros v.
  - apply evals_loop_break. eval_deep.
  - eapply evals_loop_continue; [|apply IH].
    eapply evals_bind; [exact Hn|]. simpl.
    eapply evals_bind; [exact Hc|].
    eapply evals_bind; [apply Hg|]. apply evals_ret.
Qed.

Lemma TryAggregate_pure (s : Sequence T) (agg : T -> T -> M T) g w x rest w' :
  Computes agg g ->
  Yields s w (x :: rest) w' ->
  evals (TryAggregate s agg) w (Ok (Some (foldl g x rest)) w').
Proof.
  intros Hg (i0 & w0 & i' & Hi & Hr).
  inversion Hr as [|? ? j wj ? wx ? ? ? Hn Hc Hr']; subst.
  unfold TryAggregate.
  eapply evals_bind; [exact Hi|].
  eapply evals_bind; [exact Hn|]. simpl.
  eapply evals_bind; [exact Hc|].
  by eapply TryAggregate_loop_pure.
Qed.

Lemma TryAggregate_empty (s : Sequence T) (agg : T -> T -> M T) w w' :
  Yields s w [] w' -> evals (TryAggregate s agg) w (Ok None w').
Proof.
  intros (i0 & w0 & i' & Hi & Hr). inversion Hr as [? ? ? ? Hn|]; subst.
  unfold TryAggregate. eval_deep.
Qed.

Lemma AggregateFrom_loop N (s : Sequence T) (agg : T -> T -> M T) i l i' seed w o :
  PureRuns N s i l i' ->
  FoldEvals agg seed l w o ->
  evals (loop (aggregateFrom_body s agg) (i, seed)) w o.
Proof.
  intros Hr Hf. revert i Hr.
  induction Hf as [v w|v c rest w v' w1 o Hagg Hf IH|v c rest w e w1 Hagg]; intros i Hr.
  - pose proof (PureRuns_evals_Next N s i [] i' Hr w) as Hn. simpl in Hn.
    apply evals_loop_break. unfold aggregateFrom_body. eval_deep.
  - destruct (PureRuns_evals_Next N s i (c :: rest) i' Hr w) as (i1 & Hn & Hc & Hr').
    eapply evals_loop_continue; [|apply IH, Hr'].
    unfold aggregateFrom_body. eval_deep.
  - destruct (PureRuns_evals_Next N s i (c :: rest) i' Hr w) as (i1 & Hn & Hc & Hr').
    apply evals_loop_panic. unfold aggregateFrom_body.
    eapply evals_bind; [exact Hn|]. simpl.
    eapply evals_bind; [exact Hc|].
    by apply evals_bind_panic.
Qed.

(** X12.  [AggregateFrom(seed, agg)] passes the seed and the first item
    to the aggregator, then the result and the second item, and so on, and
    returns the last result; a panic of the aggregator ends it.  On an empty
    sequence it returns the seed. *)
Theorem AggregateFrom_folds_from_seed (s : Sequence T) (agg : T -> T -> M T)
    N l seed w o :
  PureYields N s l ->
  FoldEvals agg seed l w o ->
  evals (AggregateFrom s seed agg) w o.
Proof.
  intros (i0 & i' & Hi & Hr) Hf. unfold AggregateFrom.
  eapply evals_bind; [exists N; intros n Hle; by apply Hi|].
  by eapply AggregateFrom_loop.
Qed.

(** X13.  On an empty sequence, and whatever the aggregator (it is not
    called): [TryAggregate] reports failure, [Aggregate] panics with the
    empty error, [AggregateOrDefault] returns the default, [AggregateOrNil]
    nil and [AggregateFrom] the seed; so [MaxP] and [MinP] panic and
    [TryMaxP] and [TryMinP] report failure. *)
Theorem Aggregate_of_empty_sequence (GenericLessThan : T -> T -> bool)
    (s : Sequence T) (agg : T -> T -> M T) (d : T)
    (cmp : option (T -> T -> bool)) w w' :
  Yields s w [] w' ->
  evals (TryAggregate s agg) w (Ok None w') /\
  evals (Aggregate s agg) w (Panic (Error emptyError) w') /\
  evals (AggregateOrDefault s d agg) w (Ok d w') /\
  evals (AggregateOrNil d s agg) w (Ok d w') /\
  evals (AggregateFrom s d agg) w (Ok d w') /\
  evals (MaxP GenericLessThan s cmp) w (Panic (Error emptyError) w') /\
  evals (MinP GenericLessThan s cmp) w (Panic (Error emptyError) w') /\
  evals (TryMaxP GenericLessThan s cmp) w (Ok None w') /\
  evals (TryMinP GenericLessThan s cmp) w (Ok None w') /\
  evals (MaxOrDefaultP GenericLessThan s d cmp) w (Ok d w') /\
  evals (MinOrDefaultP GenericLessThan s d cmp) w (Ok d w').
Proof.
  intros Hy.
  assert (forall agg, evals (TryAggregate s agg) w (Ok None w')) as Ht.
  { intros agg'. by apply TryAggregate_empty. }
  assert (forall agg, evals (Aggregate s agg) w (Panic (Error emptyError) w')) as Ha.
  { intros agg'. unfold Aggregate. eapply evals_bind; [apply Ht|]. apply evals_panic. }
  assert (forall agg, evals (AggregateOrDefault s d agg) w (Ok d w')) as Hd.
  { intros agg'. unfold AggregateOrDefault. eapply evals_bind; [apply Ht|].
    apply evals_ret. }
  repeat split; try done.
  - apply Hd.
  - destruct Hy as (i0 & w0 & i' & Hi & Hr). inversion Hr as [? ? ? ? Hn|]; subst.
    unfold AggregateFrom. eapply evals_bind; [exact Hi|].
    apply evals_loop_break. unfold aggregateFrom_body. eval_deep.
  - destruct cmp; apply Ha.
  - destruct cmp; apply Ha.
  - destruct cmp; apply Ht.
  - destruct cmp; apply Ht.
  - destruct cmp; apply Hd.
  - destruct cmp; apply Hd.
Qed.

Lemma swo_negtrans (lt : T -> T -> bool) a b c :
  StrictWeakOrder lt -> lt a b = false -> lt b c = false -> lt a c = false.
Proof.
  intros Hlt Hab Hbc.
  destruct (lt a c) eqn:Hac; [|done].
  destruct (lt b a) eqn:Hba.
  { by rewrite (swo_trans lt Hlt b a c Hba Hac) in Hbc. }
  destruct (lt c b) eqn:Hcb.
  { by rewrite (swo_trans lt Hlt a c b Hac Hcb) in Hab. }
  destruct (swo_incomp lt Hlt a b c Hab Hba Hbc Hcb) as [Hac' _].
  by rewrite Hac' in Hac.
Qed.

Lemma foldl_max_greatest (lt : T -> T -> bool) x rest :
  StrictWeakOrder lt ->
  let r := foldl (fun a b => if lt a b then b else a) x rest in
  r ∈ x :: rest /\ forall y, y ∈ x :: rest -> lt r y = false.
Proof.
  intros Hlt. revert x. induction rest as [|c rest IH]; intros x; simpl.
  - split; [by left|]. intros y Hy. apply list_elem_of_singleton in Hy as ->.
    apply (swo_irrefl lt Hlt).
  - destruct (IH (if lt x c then c else x)) as [Hin Hub]. split.
    + apply elem_of_cons in Hin as [Hin|Hin].
      * rewrite Hin. destruct (lt x c); [right; by left|by left].
      * right. by right.
    + intros y Hy.
      pose proof (Hub (if lt x c then c else x) ltac:(by left)) as Hm.
      apply elem_of_cons in Hy as [->|Hy].
      * destruct (lt x c) eqn:Hxc; [|done].
        match goal with |- lt ?r x = false => destruct (lt r x) eqn:Hrx; [|done] end.
        by rewrite (swo_trans lt Hlt _ x c Hrx Hxc) in Hm.
      * apply elem_of_cons in Hy as [->|Hy].
        -- destruct (lt x c) eqn:Hxc; [done|].
           by apply (swo_negtrans lt _ x c).
        -- apply Hub. by right.
Qed.

Lemma foldl_min_least (lt : T -> T -> bool) x rest :
  StrictWeakOrder lt ->
  let r := foldl (fun a b => if lt a b then a else b) x rest in
  r ∈ x :: rest /\ forall y, y ∈ x :: rest -> lt y r = false.
Proof.
  intros Hlt. revert x. induction rest as [|c rest IH]; intros x; simpl.
  - split; [by left|]. intros y Hy. apply list_elem_of_singleton in Hy as ->.
    apply (swo_irrefl lt Hlt).
  - destruct (IH (if lt x c then x else c)) as [Hin Hlb]. split.
    + apply elem_of_cons in Hin as [Hin|Hin].
      * rewrite Hin. destruct (lt x c); [by left|right; by left].
      * right. by right.
    + intros y Hy.
      pose proof (Hlb (if lt x c then x else c) ltac:(by left)) as Hm.
      apply elem_of_cons in Hy as [->|Hy].
      * destruct (lt x c) eqn:Hxc; [done|].
        by apply (swo_negtrans lt x c _).
      * apply elem_of_cons in Hy as [->|Hy].
        -- destruct (lt x c) eqn:Hxc; [|done].
           match goal with |- lt c ?r = false => destruct (lt c r) eqn:Hcr; [|done] end.
           by rewrite (swo_trans lt Hlt x c _ Hxc Hcr) in Hm.
        -- apply Hlb. by right.
Qed.

Lemma maxf_Computes (lt : T -> T -> bool) :
  Computes (maxf lt) (fun a b => if lt a b then b else a).
Proof. intros a b w. unfold maxf. destruct (lt a b); apply evals_ret. Qed.

Lemma minf_Computes (lt : T -> T -> bool) :
  Computes (minf lt) (fun a b => if lt a b then a else b).
Proof. intros a b w. unfold minf. destruct (lt a b); apply evals_ret. Qed.

(** [MaxP], [TryMaxP] and [MaxOrDefaultP] return an item of the sequence
    that is not less than any item. *)
Lemma MaxP_greatest (GenericLessThan : T -> T -> bool) (s : Sequence T)
    (cmp : option (T -> T -> bool)) (d : T) w x rest w' :
  StrictWeakOrder (default GenericLessThan cmp) ->
  Yields s w (x :: rest) w' ->
  exists r,
    r ∈ x :: rest /\
    (forall y, y ∈ x :: rest -> default GenericLessThan cmp r y = false) /\
    evals (MaxP GenericLessThan s cmp) w (Ok r w') /\
    evals (TryMaxP GenericLessThan s cmp) w (Ok (Some r) w') /\
    evals (MaxOrDefaultP GenericLessThan s d cmp) w (Ok r w').
Proof.
  intros Hlt Hy.
  destruct (foldl_max_greatest _ x rest Hlt) as [Hin Hub].
  eexists. split; [exact Hin|]. split; [exact Hub|].
  pose proof (TryAggregate_pure s _ _ w x rest w'
                (maxf_Computes (default GenericLessThan cmp)) Hy) as Ht.
  destruct cmp as [lt|]; simpl in *.
  - split; [|split; [exact Ht|]].
    + unfold Aggregate. eapply evals_bind; [exact Ht|]. apply evals_ret.
    + unfold AggregateOrDefault. eapply evals_bind; [exact Ht|]. apply evals_ret.
  - split; [|split; [exact Ht|]].
    + unfold Max, Aggregate. eapply evals_bind; [exact Ht|]. apply evals_ret.
    + unfold MaxOrDefault, AggregateOrDefault.
      eapply evals_bind; [exact Ht|]. apply evals_ret.
Qed.

(** [MinP], [TryMinP] and [MinOrDefaultP] return an item of the sequence
    that no item is less than. *)
Lemma MinP_least (GenericLessThan : T -> T -> bool) (s : Sequence T)
    (cmp : option (T -> T -> bool)) (d : T) w x rest w' :
  StrictWeakOrder (default GenericLessThan cmp) ->
  Yields s w (x :: rest) w' ->
  exists r,
    r ∈ x :: rest /\
    (forall y, y ∈ x :: rest -> default GenericLessThan cmp y r = false) /\
    evals (MinP GenericLessThan s cmp) w (Ok r w') /\
    evals (TryMinP GenericLessThan s cmp) w (Ok (Some r) w') /\
    evals (MinOrDefaultP GenericLessThan s d cmp) w (Ok r w').
Proof.
  intros Hlt Hy.
  destruct (foldl_min_least _ x rest Hlt) as [Hin Hlb].
  eexists. split; [exact Hin|]. split; [exact Hlb|].
  pose proof (TryAggregate_pure s _ _ w x rest w'
                (minf_Computes (default GenericLessThan cmp)) Hy) as Ht.
  destruct cmp as [lt|]; simpl in *.
  - split; [|split; [exact Ht|]].
    + unfold Aggregate. eapply evals_bind; [exact Ht|]. apply evals_ret.
    + unfold AggregateOrDefault. eapply evals_bind; [exact Ht|]. apply evals_ret.
  - split; [|split; [exact Ht|]].
    + unfold Min, Aggregate. eapply evals_bind; [exact Ht|]. apply evals_ret.
    + unfold MinOrDefault, AggregateOrDefault.
      eapply evals_bind; [exact Ht|]. apply evals_ret.
Qed.

(** X14.  On a non-empty sequence and under a strict less-than (the given
    comparator, or [GenericLessThan] when it is nil), [MaxP], [TryMaxP] and
    [MaxOrDefaultP] return an item of the sequence that is not less than
    any item, and [MinP], [TryMinP] and [MinOrDefaultP] return an item of
    the sequence that no item is less than. *)
Theorem MaxP_MinP_extreme_items (GenericLessThan : T -> T -> bool) (s : Sequence T)
    (cmp : option (T -> T -> bool)) (d : T) w x rest w' :
  StrictWeakOrder (default GenericLessThan cmp) ->
  Yields s w (x :: rest) w' ->
  (exists r,
     r ∈ x :: rest /\
     (forall y, y ∈ x :: rest -> default GenericLessThan cmp r y = false) /\
     evals (MaxP GenericLessThan s cmp) w (Ok r w') /\
     evals (TryMaxP GenericLessThan s cmp) w (Ok (Some r) w') /\
     evals (MaxOrDefaultP GenericLessThan s d cmp) w (Ok r w')) /\
  (exists r,
     r ∈ x :: rest /\
     (forall y, y ∈ x :: rest -> default GenericLessThan cmp y r = false) /\
     evals (MinP GenericLessThan s cmp) w (Ok r w') /\
     evals (TryMinP GenericLessThan s cmp) w (Ok (Some r) w') /\
     evals (MinOrDefaultP GenericLessThan s d cmp) w (Ok r w')).
Proof.
  intros Hlt Hy. split.
  - by apply MaxP_greatest.
  - by apply MinP_least.
Qed.
End MoreAggregateProofs.

Section ZipForEachProofs.
Context {T U : Type}.
Local Abbreviation M := (M T U).
Local Abbreviation World := (World T U).
Local Abbreviation Sequence := (@Sequence T U).
Implicit Types w : World.

Lemma PureRuns_evals N (s : Sequence T) i l i' :
  PureRuns N s i l i' ->
  match l with
  | [] => forall w, evals (Next s i) w (Ok (false, i') w)
  | x :: l' => exists i1,
      (forall w, evals (Next s i) w (Ok (true, i1) w)) /\
      (forall w, evals (Current s i1) w (Ok x w)) /\
      PureRuns N s i1 l' i'
  end.
Proof.
  intros Hr. inversion Hr as [? ? Hn|? j x l' ? Hn Hc Hr']; subst.
  - intros w. exists N. intros n Hle. by apply Hn.
  - exists j. split; [|split; [|done]].
    + intros w. exists N. intros n Hle. by apply Hn.
    + intros w. exists N. intros n Hle. by apply Hc.
Qed.

Lemma Zip_Calls N (s sequence : Sequence T) (agg : T -> T -> M T) g
    i1 l1 i1' i2 l2 i2' w :
  (forall a b w, evals (agg a b) w (Ok (g a b) w)) ->
  PureRuns N s i1 l1 i1' ->
  PureRuns N sequence i2 l2 i2' ->
  exists e',
    Calls (mkSequenceFunc
             (let* i1 := Iterator s in
              let* i2 := Iterator sequence in
              ret (mkZipEnv i1 i2))
             (fun env =>
                let* (more1, i1') := Next s (z_i1 env) in
                if more1 : bool
                then let* (more2, i2') := Next sequence (z_i2 env) in
                     if more2 : bool
                     then let* a := Current s i1' in
                          let* b := Current sequence i2' in
                          let* r := agg a b in
                          ret (Some r, mkZipEnv i1' i2')
                     else ret (None, mkZipEnv i1' i2')
                else ret (None, mkZipEnv i1' (z_i2 env))))
          (mkZipEnv i1 i2) w (zip_with g l1 l2) e' w.
Proof.
  intros Hg Hr1. revert i2 l2.
  induction Hr1 as [i1 i1' Hn1|i1 j1 x l1 i1' Hn1 Hc1 Hr1 IH]; intros i2 l2 Hr2.
  - eexists. apply Calls_nil. simpl.
    eapply evals_bind; [exists N; intros n Hle; by apply Hn1|]. simpl.
    apply evals_ret.
  - pose proof (PureRuns_evals N sequence i2 l2 i2' Hr2) as H2.
    destruct l2 as [|y l2].
    + eexists. apply Calls_nil. simpl.
      eapply evals_bind; [exists N; intros n Hle; by apply Hn1|]. simpl.
      eapply evals_bind; [apply H2|]. simpl. apply evals_ret.
    + destruct H2 as (j2 & Hn2 & Hc2 & Hr2').
      destruct (IH j2 l2 Hr2') as [e' IH'].
      exists e'. simpl. eapply Calls_cons; [|exact IH']. simpl.
      eapply evals_bind; [exists N; intros n Hle; by apply Hn1|]. simpl.
      eapply evals_bind; [apply Hn2|]. simpl.
      eapply evals_bind; [exists N; intros n Hle; by apply Hc1|].
      eapply evals_bind; [apply Hc2|].
      eapply evals_bind; [apply Hg|]. apply evals_ret.
Qed.

(** X15.  The method [Zip] pairs the items of the two sequences by
    position and yields the aggregator's result for each pair; it ends as
    soon as either sequence ends, so its length is that of the shorter. *)
Theorem Zip_pairs_by_position (s sequence : Sequence T) (agg : T -> T -> M T)
    (g : T -> T -> T) N l1 l2 w :
  (forall a b w, evals (agg a b) w (Ok (g a b) w)) ->
  PureYields N s l1 ->
  PureYields N sequence l2 ->
  evals (ToSlice (Zip s sequence agg)) w (Ok (zip_with g l1 l2) w) /\
  length (zip_with g l1 l2) = Nat.min (length l1) (length l2).
Proof.
  intros Hg (i1 & i1' & Hi1 & Hr1) (i2 & i2' & Hi2 & Hr2). split.
  - destruct (Zip_Calls N s sequence agg g i1 l1 i1' i2 l2 i2' w Hg Hr1 Hr2)
      as [e' Hc].
    apply Yields_ToSlice. unfold Zip, FromSequenceFunction.
    eapply Calls_Yields; [|exact Hc]. simpl.
    eapply evals_bind; [exists N; intros n Hle; by apply Hi1|].
    eapply evals_bind; [exists N; intros n Hle; by apply Hi2|].
    apply evals_ret.
  - apply length_zip_with.
Qed.

Local Abbreviation forEach_body s action :=
  (fun i : ISt s =>
     let* (more, i') := Next s i in
     if more : bool
     then let* x := Current s i' in
          let* _ := action x in
          ret (inl i')
     else ret (inr s)).

Lemma ForEach_loop N (s : Sequence T) (action : T -> M unit) act i l i' w :
  PureRuns N s i l i' ->
  ActionReturns N action act l ->
  evals (loop (forEach_body s action) i) w (Ok s (applyAll act l w)).
Proof.
  intros Hr. revert w.
  induction Hr as [i i' Hn|i j x l i' Hn Hc Hr IH]; intros w Ha.
  - apply evals_loop_break.
    eapply evals_bind; [exists N; intros n Hle; by apply Hn|]. simpl. apply evals_ret.
  - eapply evals_loop_continue.
    + eapply evals_bind; [exists N; intros n Hle; by apply Hn|]. simpl.
      eapply evals_bind; [exists N; intros n Hle; by apply Hc|].
      eapply evals_bind.
      * exists N. intros n Hle. apply Ha; [by left|done].
      * apply evals_ret.
    + simpl. apply IH. intros y Hy. apply Ha. by right.
Qed.

Lemma ForEach_loop_panic N (s : Sequence T) (action : T -> M unit) act
    i l1 x l2 i' w e w1 :
  PureRuns N s i (l1 ++ x :: l2) i' ->
  ActionReturns N action act l1 ->
  evals (action x) (applyAll act l1 w) (Panic e w1) ->
  evals (loop (forEach_body s action) i : M (Sequence T)) w (Panic e w1).
Proof.
  revert i w. induction l1 as [|y l1 IH]; intros i w Hr Ha Hp; simpl in Hr;
    inversion Hr as [|? j ? ? ? Hn Hc Hr']; subst.
  - apply evals_loop_panic.
    eapply evals_bind; [exists N; intros n Hle; by apply Hn|]. simpl.
    eapply evals_bind; [exists N; intros n Hle; by apply Hc|].
    by apply evals_bind_panic.
  - eapply evals_loop_continue.
    + eapply evals_bind; [exists N; intros n Hle; by apply Hn|]. simpl.
      eapply evals_bind; [exists N; intros n Hle; by apply Hc|].
      eapply evals_bind.
      * exists N. intros n Hle. apply Ha; [by left|done].
      * apply evals_ret.
    + apply (IH j); [done| |done]. intros z Hz. apply Ha. by right.
Qed.

(** X16.  [ForEach] calls the action once on each item, in the order of
    the sequence, and returns the receiver; when the action panics on an
    item the panic ends [ForEach], the action having run on the items before
    it and on no item after it. *)
Theorem ForEach_in_order (s : Sequence T) (action : T -> M unit)
    (act : T -> World -> World) N :
  (forall l w,
     PureYields N s l ->
     ActionReturns N action act l ->
     evals (ForEach s action) w (Ok s (applyAll act l w))) /\
  (forall l1 x l2 w e w1,
     PureYields N s (l1 ++ x :: l2) ->
     ActionReturns N action act l1 ->
     evals (action x) (applyAll act l1 w) (Panic e w1) ->
     evals (ForEach s action) w (Panic e w1)).
Proof.
  split.
  - intros l w (i0 & i' & Hi & Hr) Ha. unfold ForEach.
    eapply evals_bind; [exists N; intros n Hle; by apply Hi|].
    by eapply ForEach_loop.
  - intros l1 x l2 w e w1 (i0 & i' & Hi & Hr) Ha Hp. unfold ForEach.
    eapply evals_bind; [exists N; intros n Hle; by apply Hi|].
    by eapply ForEach_loop_panic.
Qed.

(** X17.  [Append(items...)] yields the items of the receiver and then
    the given items, [Prepend(items...)] the given items and then those of
    the receiver; with no items both return the receiver itself. *)
Theorem Append_Prepend_items (s : Sequence T) (items : list T) w l w' :
  Yields s w l w' ->
  evals (ToSlice (Append s items)) w (Ok (l ++ items) w') /\
  evals (ToSlice (Prepend s items)) w (Ok (items ++ l) w') /\
  Append s [] = s /\ Prepend s [] = s.
Proof.
  intros Hy. split; [|split; [|done]].
  - apply Yields_ToSlice. unfold Append. destruct items as [|x items]; simpl.
    + by rewrite app_nil_r.
    + replace (l ++ x :: items) with (l ++ concat [x :: items])
        by (simpl; by rewrite app_nil_r).
      eapply concatSequence_Yields; [exact Hy|].
      eapply YieldsAll_cons; [apply TSequence_Yields|apply YieldsAll_nil].
  - apply Yields_ToSlice. unfold Prepend. destruct items as [|x items]; simpl.
    + done.
    + replace (x :: items ++ l) with ((x :: items) ++ concat [l])
        by (simpl; by rewrite app_nil_r).
      eapply concatSequence_Yields; [apply TSequence_Yields|].
      eapply YieldsAll_cons; [exact Hy|apply YieldsAll_nil].
Qed.
End ZipForEachProofs.

Lemma AggregateFrom_folds_from_seed_witness :
  PureYields 0 (FromItems [1; 2; 3]) [1; 2; 3] /\
  FoldEvals plus 10 [1; 2; 3] w0 (Ok 16 w0) /\
  evals (AggregateFrom (FromItems [1; 2; 3]) 10 plus) w0 (Ok 16 w0).
Proof.
  pose proof (TSequence_PureYields (U:=unit) [1; 2; 3]) as Hy.
  assert (FoldEvals plus 10 [1; 2; 3] w0 (Ok 16 w0)) as Hf.
  { eapply FoldEvals_step; [apply evals_ret|].
    eapply FoldEvals_step; [apply evals_ret|].
    eapply FoldEvals_step; [apply evals_ret|].
    apply FoldEvals_nil. }
  split; [exact Hy|]. split; [exact Hf|].
  exact (AggregateFrom_folds_from_seed (FromItems [1; 2; 3]) plus
           0 [1; 2; 3] 10 w0 (Ok 16 w0) Hy Hf).
Defined.

Lemma Aggregate_of_empty_sequence_witness :
  Yields (FromItems []) w0 [] w0 /\
  evals (TryAggregate (FromItems []) neverCalled) w0 (Ok None w0) /\
  evals (Aggregate (FromItems []) neverCalled) w0
        (Panic "the sequence was empty (or no items matched)" w0).
Proof.
  pose proof (TSequence_Yields (U:=unit) (@nil Z) w0) as Hy.
  split; [exact Hy|].
  pose proof (Aggregate_of_empty_sequence IntLessThanFunc (FromItems [])
                neverCalled 0 None w0 w0 Hy) as H.
  exact (conj (proj1 H) (proj1 (proj2 H))).
Defined.

Lemma MaxP_MinP_extreme_items_witness :
  StrictWeakOrder (default Z.gtb (Some IntLessThanFunc)) /\
  Yields (FromItems [3; 1; 4; 1; 5; 9; 2; 6]) w0 (3 :: [1; 4; 1; 5; 9; 2; 6]) w0 /\
  (exists r,
     r ∈ 3 :: [1; 4; 1; 5; 9; 2; 6] /\
     (forall y, y ∈ 3 :: [1; 4; 1; 5; 9; 2; 6] -> IntLessThanFunc r y = false) /\
     evals (MaxP Z.gtb (FromItems [3; 1; 4; 1; 5; 9; 2; 6]) (Some IntLessThanFunc))
           w0 (Ok r w0)) /\
  (exists r,
     r ∈ 3 :: [1; 4; 1; 5; 9; 2; 6] /\
     (forall y, y ∈ 3 :: [1; 4; 1; 5; 9; 2; 6] -> IntLessThanFunc y r = false) /\
     evals (MinP Z.gtb (FromItems [3; 1; 4; 1; 5; 9; 2; 6]) (Some IntLessThanFunc))
           w0 (Ok r w0)).
Proof.
  pose proof IntLessThanFunc_StrictWeakOrder as Hlt.
  pose proof (TSequence_Yields (U:=unit) [3; 1; 4; 1; 5; 9; 2; 6] w0) as Hy.
  split; [exact Hlt|]. split; [exact Hy|].
  destruct (MaxP_MinP_extreme_items Z.gtb (FromItems [3; 1; 4; 1; 5; 9; 2; 6])
              (Some IntLessThanFunc) 0 w0 3 [1; 4; 1; 5; 9; 2; 6] w0 Hlt Hy)
    as [(r & Hin & Hub & Hm & _) (r' & Hin' & Hlb & Hm' & _)].
  split.
  - exists r. split; [exact Hin|]. split; [exact Hub|exact Hm].
  - exists r'. split; [exact Hin'|]. split; [exact Hlb|exact Hm'].
Defined.

Lemma Zip_pairs_by_position_witness :
  (forall a b w, evals (plus a b) w (Ok (a + b) w)) /\
  PureYields 0 (FromItems [1; 2; 3]) [1; 2; 3] /\
  PureYields 0 (FromItems [10; 20]) [10; 20] /\
  evals (ToSlice (Zip (FromItems [1; 2; 3]) (FromItems [10; 20]) plus)) w0
        (Ok [11; 22] w0).
Proof.
  assert (forall a b w, evals (plus a b) w (Ok (a + b) w)) as Hg.
  { intros a b w. apply evals_ret. }
  pose proof (TSequence_PureYields (U:=unit) [1; 2; 3]) as Hy1.
  pose proof (TSequence_PureYields (U:=unit) [10; 20]) as Hy2.
  split; [exact Hg|]. split; [exact Hy1|]. split; [exact Hy2|].
  exact (proj1 (Zip_pairs_by_position (FromItems [1; 2; 3]) (FromItems [10; 20])
                  plus Z.add 0 [1; 2; 3] [10; 20] w0 Hg Hy1 Hy2)).
Defined.

Lemma ForEach_in_order_witness :
  PureYields 0 (FromItems_sum [1; 2; 3]) [1; 2; 3] /\
  ActionReturns 0 addToSum (fun x w => mkWorld (cells w) (user w + x)) [1; 2; 3] /\
  evals (ForEach (FromItems_sum [1; 2; 3]) addToSum) sum0
        (Ok (FromItems_sum [1; 2; 3]) (mkWorld [] 6)).
Proof.
  pose proof (TSequence_PureYields (U:=Z) [1; 2; 3]) as Hy.
  assert (ActionReturns 0 addToSum
            (fun x w => mkWorld (cells w) (user w + x)) [1; 2; 3]) as Ha.
  { intros x _ n w _. reflexivity. }
  split; [exact Hy|]. split; [exact Ha|].
  exact (proj1 (ForEach_in_order (FromItems_sum [1; 2; 3]) addToSum
                  (fun x w => mkWorld (cells w) (user w + x)) 0)
               [1; 2; 3] sum0 Hy Ha).
Defined.

Lemma Append_Prepend_items_witness :
  Yields (FromItems [1; 2]) w0 [1; 2] w0 /\
  evals (ToSlice (Append (FromItems [1; 2]) [3; 4])) w0 (Ok [1; 2; 3; 4] w0) /\
  evals (ToSlice (Prepend (FromItems [1; 2]) [3; 4])) w0 (Ok [3; 4; 1; 2] w0).
Proof.
  pose proof (TSequence_Yields (U:=unit) [1; 2] w0) as Hy.
  split; [exact Hy|].
  pose proof (Append_Prepend_items (FromItems [1; 2]) [3; 4] w0 [1; 2] w0 Hy) as H.
  exact (conj (proj1 H) (proj1 (proj2 H))).
Defined.

(** ** sequences.go and map.go: slices and maps, there and back *)

Section MapProofs.
Context {T U : Type} `{Countable T}.
Local Abbreviation M := (M T U).
Local Abbreviation World := (World T U).
Local Abbreviation Sequence := (@Sequence T U).
Implicit Types w : World.





Lemma addToMap_loop {A} (s : Sequence A) (getKey getValue : A -> M T) key val
    i w l i' w' m :
  (forall x w, x ∈ l -> evals (getKey x) w (Ok (key x) w)) ->
  (forall x w, x ∈ l -> evals (getValue x) w (Ok (val x) w)) ->
  Runs s i w l i' w' ->
  evals (loop (addToMap_body s getKey getValue) (i, m)) w
        (Ok (foldl (fun m x => <[key x := val x]> m) m l) w').
Proof.
  intros Hk Hv Hr. revert m.
  induction Hr as [i w i' w' Hn|i w j wj x wx l i' w' Hn Hc Hr IH]; intros m.
  - apply evals_loop_break. unfold addToMap_body. eval_deep.
  - eapply evals_loop_continue.
    + unfold addToMap_body.
      eapply evals_bind; [exact Hn|]. simpl.
      eapply evals_bind; [exact Hc|].
      eapply evals_bind; [apply Hk; by left|].
      eapply evals_bind; [apply Hv; by left|].
      apply evals_ret.
    + simpl. apply IH.
      * intros y w0 Hy. apply Hk. by right.
      * intros y w0 Hy. apply Hv. by right.
Qed.



Lemma MapIter_Runs {V} (m : gmap T V) (i : MapIter T V) entries w :
  i = MapIter_fresh entries \/ (exists k v, i = MapIter_at k v entries) ->
  Runs (genericMapSequence m : Sequence (Pair T V)) i w
       ((fun e => mkPair e.1 e.2) <$> entries) MapIter_exhausted w.
Proof.
  revert i. induction entries as [|[k v] entries IH]; intros i Hi.
  - apply Runs_nil. destruct Hi as [->|(k & v & ->)]; simpl; apply evals_ret.
  - eapply (Runs_cons (genericMapSequence m : Sequence (Pair T V)) _ _
                      (MapIter_at k v entries)).
    + destruct Hi as [->|(k' & v' & ->)]; simpl; apply evals_ret.
    + simpl. unfold mapIterator_Current. simpl. eval_deep.
    + apply IH. right. by exists k, v.
Qed.

Lemma foldl_insert_pairs (entries : list (T * T)) (m : gmap T T) :
  foldl (fun m p => <[Key p := Value p]> m) m
        ((fun e => mkPair e.1 e.2) <$> entries)
  = list_to_map (reverse entries) ∪ m.
Proof.
  revert m. induction entries as [|[k v] entries IH]; intros m.
  - simpl. by rewrite (left_id_L ∅ (∪)).
  - simpl. rewrite IH, reverse_cons, list_to_map_app. simpl.
    rewrite <- (assoc_L (∪)). f_equal.
    by rewrite insert_empty, <- insert_union_singleton_l.
Qed.

(** X20.  A map turned into a sequence and back: iterating [From(m)]
    yields one [Pair] for each entry of [m] and nothing else, and
    [PairsToMap] of it is [m] again. *)
Theorem PairsToMap_round_trip (m : gmap T T) w :
  (exists pairs,
     evals (ToSlice (genericMapSequence m)) w (Ok pairs w) /\
     NoDup (Key <$> pairs) /\
     forall k v, mkPair k v ∈ pairs <-> m !! k = Some v) /\
  evals (PairsToMap (genericMapSequence m)) w (Ok m w).
Proof.
  pose proof (MapIter_Runs m (MapIter_fresh (map_to_list m)) (map_to_list m) w
                ltac:(by left)) as Hr.
  split.
  - eexists. split; [|split].
    + apply Yields_ToSlice. eexists _, _, _. split; [apply evals_ret|exact Hr].
    + rewrite <- list_fmap_compose.
      apply (NoDup_fst_map_to_list m).
    + intros k v. rewrite <- elem_of_map_to_list. split.
      * intros Hin. apply list_elem_of_fmap in Hin as ([k' v'] & Heq & Hin).
        simpl in Heq. by inversion Heq; subst.
      * intros Hin. apply list_elem_of_fmap. by exists (k, v).
  - unfold PairsToMap, addToMap. eapply evals_bind; [apply evals_ret|].
    pose proof (addToMap_loop (genericMapSequence m)
                  (fun p => ret (Key p)) (fun p => ret (Value p)) Key Value
                  _ w _ _ w ∅
                  ltac:(intros; apply evals_ret) ltac:(intros; apply evals_ret) Hr) as Hl.
    rewrite foldl_insert_pairs, (right_id_L ∅ (∪)) in Hl.
    rewrite (list_to_map_proper (reverse (map_to_list m)) (map_to_list m)) in Hl.
    + by rewrite list_to_map_to_list in Hl.
    + rewrite fmap_reverse, reverse_Permutation. apply NoDup_fst_map_to_list.
    + apply reverse_Permutation.
Qed.

Lemma group_add_lookup (m : gmap T (list T)) k v k' :
  group_add m k v !! k'
  = if decide (k = k') then Some (default [] (m !! k) ++ [v]) else m !! k'.
Proof.
  unfold group_add. destruct (m !! k) as [g|] eqn:Hg; simpl;
    (destruct (decide (k = k')) as [->|Hne];
     [by rewrite lookup_insert_eq|by rewrite lookup_insert_ne]).
Qed.

Lemma foldl_group_add (key val : T -> T) l (m : gmap T (list T)) k :
  foldl (fun m x => group_add m (key x) (val x)) m l !! k
  = match val <$> filter (fun x => key x = k) l with
    | [] => m !! k
    | g => Some (default [] (m !! k) ++ g)
    end.
Proof.
  revert m. induction l as [|x l IH]; intros m; [done|].
  simpl. rewrite IH, group_add_lookup.
  destruct (decide (key x = k)) as [Hk|Hk].
  - rewrite filter_cons_True by done. rewrite fmap_cons. simpl. subst k.
    destruct (val <$> filter (fun x0 => key x0 = key x) l) as [|y g]; [done|].
    by rewrite <- app_assoc.
  - by rewrite filter_cons_False.
Qed.

(** X21.  [GroupByKV] gives one pair for each key that the key selector
    returns on some item and no other pair; the value of the pair holds the
    values (the items themselves when the value selector is nil) of the
    items with that key, in the order of the sequence. *)
Theorem GroupByKV_groups (s : Sequence T) (keySelector : T -> M T)
    (valueSelector : option (T -> M T)) (key val : T -> T) w l w' :
  (forall x w, x ∈ l -> evals (keySelector x) w (Ok (key x) w)) ->
  (forall x w, x ∈ l -> evals (applySelector valueSelector x) w (Ok (val x) w)) ->
  Yields s w l w' ->
  exists groups,
    evals (GroupByKV s keySelector valueSelector) w
          (Ok (genericMapSequence groups) w') /\
    (forall k, groups !! k = group_of key val l k) /\
    (forall k g, groups !! k = Some g ->
                 g <> [] /\ g = val <$> filter (fun x => key x = k) l).
Proof.
  intros Hk Hv (i0 & w0 & i' & Hi & Hr).
  set (ga := fun (m : gmap T (list T)) x => group_add m (key x) (val x)).
  assert (forall m,
    evals (loop (fun st : ISt s * gmap T (list T) =>
                   let '(i, m) := st in
                   let* (more, i') := Next s i in
                   if more : bool
                   then let* v := Current s i' in
                        let* k := keySelector v in
                        let* v := match valueSelector with
                                  | Some sel => sel v
                                  | None => ret v
                                  end in
                        ret (inl (i', group_add m k v))
                   else ret (inr m))
                (i0, m)) w0 (Ok (foldl ga m l) w')) as Hloop.
  { clear Hi. induction Hr as [i w1 i' w' Hn|i w1 j wj x wx l i' w' Hn Hc Hr IH];
      intros m.
    - apply evals_loop_break. eval_deep.
    - eapply evals_loop_continue.
      + eapply evals_bind; [exact Hn|]. simpl.
        eapply evals_bind; [exact Hc|].
        eapply evals_bind; [apply Hk; by left|].
        eapply evals_bind; [apply (Hv x); by left|].
        apply evals_ret.
      + simpl. apply IH.
        * intros y w2 Hy. apply Hk. by right.
        * intros y w2 Hy. apply Hv. by right. }
  assert (forall k, foldl ga ∅ l !! k = group_of key val l k) as Hg.
  { intros k. unfold ga. rewrite foldl_group_add. unfold group_of.
    by destruct (val <$> filter (fun x => key x = k) l). }
  exists (foldl ga ∅ l). split; [|split].
  - unfold GroupByKV. eapply evals_bind; [exact Hi|].
    eapply evals_bind; [apply Hloop|].
    rewrite map_fmap_id. apply evals_ret.
  - exact Hg.
  - intros k g Hgk. rewrite Hg in Hgk. unfold group_of in Hgk.
    destruct (val <$> filter (fun x => key x = k) l) as [|y g'] eqn:Heq; [done|].
    by inversion Hgk; subst.
Qed.
End MapProofs.



Lemma GroupByKV_groups_witness :
  (forall x w, x ∈ seqZ 0 10 -> evals (quarter x) w (Ok (Z.quot x 4) w)) /\
  (forall x (w : World Z unit), x ∈ seqZ 0 10 ->
     evals (applySelector None x) w (Ok x w)) /\
  Yields (Range 10) w0 (seqZ 0 10) w0 /\
  exists groups,
    evals (GroupByKV (Range 10) quarter None) w0 (Ok (genericMapSequence groups) w0) /\
    groups !! 0 = Some [0; 1; 2; 3] /\
    groups !! 1 = Some [4; 5; 6; 7] /\
    groups !! 2 = Some [8; 9] /\
    groups !! 3 = None.
Proof.
  assert (forall x w, x ∈ seqZ 0 10 -> evals (quarter x) w (Ok (Z.quot x 4) w)) as Hk.
  { intros x w _. apply evals_ret. }
  assert (forall x (w : World Z unit), x ∈ seqZ 0 10 ->
            evals (applySelector None x) w (Ok x w)) as Hv.
  { intros x w _. apply evals_ret. }
  pose proof (Range2_Yields 0 10 w0) as Hy.
  split; [exact Hk|]. split; [exact Hv|]. split; [exact Hy|].
  destruct (GroupByKV_groups (Range 10) quarter None (fun x => Z.quot x 4) (fun x => x)
              w0 (seqZ 0 10) w0 Hk Hv Hy) as (groups & Hg & Hl & _).
  exists groups. split; [exact Hg|].
  rewrite !Hl. repeat split; reflexivity.
Defined.

(** ** linq.go and concat.go: Reverse and the descending orders *)

Section ReverseProofs.
Context {T U : Type}.
Local Abbreviation M := (M T U).
Local Abbreviation World := (World T U).
Local Abbreviation Sequence := (@Sequence T U).
Implicit Types w : World.

(** After [i] rounds of the loop of [Reverse] the first [i] and the last
    [i] items are in their final places and the others where they were. *)
Lemma reverse_loop_spec (l : list T) fuel (items : list T) i :
  length items = length l ->
  (i <= length l / 2)%nat ->
  (length l / 2 - i <= fuel)%nat ->
  (forall j, (j < length l)%nat ->
     items !! j = if decide (j < i \/ length l - i <= j)%nat
                  then l !! (length l - 1 - j)%nat else l !! j) ->
  exists items',
    reverse_loop items i (length l - 1) (length l / 2) fuel = Some items' /\
    length items' = length l /\
    forall j, (j < length l)%nat -> items' !! j = l !! (length l - 1 - j)%nat.
Proof.
  pose proof (Nat.div_mod_eq (length l) 2) as Hdiv.
  pose proof (Nat.mod_upper_bound (length l) 2 ltac:(lia)) as Hmod.
  set (n := length l) in *. set (mid := (n / 2)%nat) in *.
  assert (forall items : list T, length items = n ->
            (forall j, (j < n)%nat ->
               items !! j = if decide (j < mid \/ n - mid <= j)%nat
                            then l !! (n - 1 - j)%nat else l !! j) ->
            forall j, (j < n)%nat -> items !! j = l !! (n - 1 - j)%nat) as Hdone.
  { intros its Hlen Hinv j Hj. rewrite (Hinv j Hj).
    destruct (decide (j < mid \/ n - mid <= j)%nat) as [_|Hmidj]; [done|].
    f_equal. lia. }
  revert items i. induction fuel as [|fuel IH]; intros items i Hlen Hi Hfuel Hinv.
  - assert (i = mid) as -> by lia.
    exists items. split; [done|]. split; [done|]. by apply Hdone.
  - simpl. destruct (Nat.ltb_spec i mid) as [Hlt|Hge].
    + pose proof (Hinv i ltac:(lia)) as Ha.
      pose proof (Hinv (n - 1 - i)%nat ltac:(lia)) as Hb.
      rewrite decide_False in Ha by lia.
      rewrite decide_False in Hb by lia.
      destruct (l !! i) as [a|] eqn:Hla;
        [|apply lookup_ge_None in Hla; fold n in Hla; lia].
      destruct (l !! (n - 1 - i)%nat) as [b|] eqn:Hlb;
        [|apply lookup_ge_None in Hlb; fold n in Hlb; lia].
      unfold swap_items. rewrite Ha, Hb.
      apply IH; [by rewrite !length_insert|lia|lia|].
      intros j Hj.
      destruct (decide (j = i)) as [->|Hji].
      { rewrite list_lookup_insert_eq by (rewrite length_insert; lia).
        rewrite decide_True by lia. by rewrite Hlb. }
      rewrite list_lookup_insert_ne by done.
      destruct (decide (j = n - 1 - i)%nat) as [->|Hjn].
      { rewrite list_lookup_insert_eq by lia.
        rewrite decide_True by lia.
        replace (n - 1 - (n - 1 - i))%nat with i by lia. by rewrite Hla. }
      rewrite list_lookup_insert_ne by done.
      rewrite (Hinv j Hj).
      destruct (decide (j < i \/ n - i <= j)%nat);
        [by rewrite decide_True by lia|by rewrite decide_False by lia].
    + assert (i = mid) as -> by lia.
      exists items. split; [done|]. split; [done|]. by apply Hdone.
Qed.

Lemma reverse_items_reverse (l : list T) : reverse_items l = Some (reverse l).
Proof.
  destruct (reverse_loop_spec l (length l) l 0) as (items' & Hrun & Hlen & Hlk);
    [done|lia| |..].
  { pose proof (Nat.div_mod_eq (length l) 2). lia. }
  { intros j Hj. by rewrite decide_False by lia. }
  unfold reverse_items. rewrite Hrun. f_equal.
  apply list_eq. intros j.
  destruct (decide (j < length l)%nat) as [Hj|Hj].
  - rewrite (Hlk j Hj), reverse_lookup by done. f_equal. lia.
  - rewrite !lookup_ge_None_2; [done|rewrite length_reverse; lia|lia].
Qed.

(** X22.  [Reverse] yields the items of the source in the opposite
    order; the loop that swaps the buffer's ends never indexes outside it.
    Reversing the reversed sequence yields the source's order again. *)
Theorem Reverse_yields_reversed (s : Sequence T) (c c2 : nat) w l w1 :
  cells w !! c = Some None -> cells w !! c2 = Some None ->
  Yields s w l w1 ->
  (c < length (cells w1))%nat -> (c2 < length (cells w1))%nat ->
  let q := FromSequenceFunction (Reverse_func c s) in
  let q2 := FromSequenceFunction (Reverse_func c2 q) in
  reverse_items l = Some (reverse l) /\
  evals (ToSlice q) w (Ok (reverse l) (setSlice c (reverse l) w1)) /\
  evals (ToSlice q2) w (Ok l (setSlice c2 l (setSlice c (reverse l) w1))).
Proof.
  intros Hc Hc2 Hy Hlen Hlen2 q q2.
  pose proof (materialize_BufferedOnce _ c s _ (Reverse_Fills c s)) as (_ & Hfill1 & _).
  pose proof (materialize_BufferedOnce _ c2 q _ (Reverse_Fills c2 q)) as (_ & Hfill2 & _).
  assert (Yields q w (reverse l) (setSlice c (reverse l) w1)) as Hq.
  { apply (Hfill1 w l w1 (reverse l) Hc Hy); [|done]. apply reverse_items_reverse. }
  split; [apply reverse_items_reverse|].
  split; [by apply Yields_ToSlice|].
  apply Yields_ToSlice.
  apply (Hfill2 w (reverse l) _ l Hc2 Hq).
  - by rewrite reverse_items_reverse, reverse_involutive.
  - simpl. by rewrite length_insert.
Qed.

Lemma run_sorter_reverse_flip (p : sorter) (cmp : T -> T -> bool) (l : list T) :
  run_sorter p (mkReverse (mkOrderData cmp l))
  = (fun d => mkReverse (mkOrderData cmp (items d)))
      <$> run_sorter p (mkOrderData (fun a b => cmp b a) l).
Proof.
  revert l. induction p as [|i j k IH|i j k IH]; intros l; simpl.
  - done.
  - destruct (l !! j) as [a|], (l !! i) as [b|]; simpl; done.
  - destruct (swap_items l i j) as [l'|]; simpl; [apply IH|done].
Qed.

Lemma StrictWeakOrder_flip (cmp : T -> T -> bool) :
  StrictWeakOrder cmp -> StrictWeakOrder (fun a b => cmp b a).
Proof.
  intros Hcmp. split.
  - intros a. apply (swo_irrefl cmp Hcmp).
  - intros a b c' Hab Hbc. by apply (swo_trans cmp Hcmp c' b a).
  - intros a b c' Hab Hba Hbc Hcb.
    destruct (swo_incomp cmp Hcmp a b c' Hba Hab Hcb Hbc) as [H1 H2]. by split.
Qed.

(** X23.  [OrderDescendingP] (and [OrderDescending], with the default
    comparison) yields a permutation of the source in which no item is less
    than the one after it, for every strict less-than comparator. *)
Theorem OrderDescending_sorted_permutation (sort_Sort : nat -> sorter)
    (GenericLessThan : T -> T -> bool) (s : Sequence T)
    (cmp : option (T -> T -> bool)) (c : nat) w l w1 :
  sort_Sort_contract (T:=T) sort_Sort ->
  StrictWeakOrder (default GenericLessThan cmp) ->
  cells w !! c = Some None ->
  Yields s w l w1 ->
  (c < length (cells w1))%nat ->
  let q := FromSequenceFunction
             (OrderPD_func sort_Sort (default GenericLessThan cmp) true c s) in
  (forall w, evals (OrderDescendingP sort_Sort GenericLessThan cmp s) w
                   (Ok (FromSequenceFunction
                          (OrderPD_func sort_Sort (default GenericLessThan cmp) true
                                        (length (cells w)) s))
                       (mkWorld (cells w ++ [None]) (user w)))) /\
  exists l',
    evals (ToSlice q) w (Ok l' (setSlice c l' w1)) /\
    l' ≡ₚ l /\
    forall i a b, l' !! i = Some a -> l' !! (Datatypes.S i) = Some b ->
                  default GenericLessThan cmp a b = false.
Proof.
  intros Hsort Hcmp Hc Hy Hlen q. split.
  { intros w'. unfold OrderDescendingP, OrderPD.
    eapply evals_bind; [apply evals_newSlice|].
    destruct cmp; apply evals_ret. }
  set (lt := default GenericLessThan cmp) in *.
  destruct (Hsort (fun a b => lt b a) l (StrictWeakOrder_flip lt Hcmp))
    as (d1 & Hrun & Hsorted).
  destruct (run_sorter_Permutation _ _ _ Hrun) as [Hp _]. simpl in Hp.
  pose proof (materialize_BufferedOnce _ c s _
                (OrderPD_Fills sort_Sort lt true c s)) as (_ & Hfill & _).
  exists (items d1). split; [|split; [done|]].
  - apply Yields_ToSlice. apply (Hfill w l w1 (items d1) Hc Hy); [|done].
    unfold sort_orderData. simpl.
    rewrite run_sorter_reverse_flip. simpl in Hrun. by rewrite Hrun.
  - intros i a b Ha Hb. exact (Hsorted i a b Ha Hb).
Qed.
End ReverseProofs.

Lemma Reverse_yields_reversed_witness :
  cells twoNil !! 0%nat = Some None /\ cells twoNil !! 1%nat = Some None /\
  Yields (FromItems [1; 2; 3]) twoNil [1; 2; 3] twoNil /\
  evals (ToSlice (FromSequenceFunction (Reverse_func 0 (FromItems [1; 2; 3]))))
        twoNil (Ok [3; 2; 1] (setSlice 0 [3; 2; 1] twoNil)) /\
  evals (ToSlice (FromSequenceFunction
                    (Reverse_func 1
                       (FromSequenceFunction (Reverse_func 0 (FromItems [1; 2; 3]))))))
        twoNil (Ok [1; 2; 3] (setSlice 1 [1; 2; 3] (setSlice 0 [3; 2; 1] twoNil))).
Proof.
  pose proof (TSequence_Yields (U:=unit) [1; 2; 3] twoNil) as Hy.
  split; [reflexivity|]. split; [reflexivity|]. split; [exact Hy|].
  exact (proj2 (Reverse_yields_reversed (FromItems [1; 2; 3]) 0 1 twoNil [1; 2; 3] twoNil
                  eq_refl eq_refl Hy ltac:(simpl; lia) ltac:(simpl; lia))).
Defined.

Lemma OrderDescending_sorted_permutation_witness :
  sort_Sort_contract (T:=Z) insertionSort /\
  StrictWeakOrder (default Z.ltb (Some IntLessThanFunc)) /\
  cells twoNil !! 0%nat = Some None /\
  Yields (FromItems [3; 1; 2]) twoNil [3; 1; 2] twoNil /\
  exists l',
    evals (ToSlice (FromSequenceFunction
                      (OrderPD_func insertionSort IntLessThanFunc true 0
                                    (FromItems [3; 1; 2]))))
          twoNil (Ok l' (setSlice 0 l' twoNil)) /\
    l' ≡ₚ [3; 1; 2] /\
    forall i a b, l' !! i = Some a -> l' !! (Datatypes.S i) = Some b ->
                  IntLessThanFunc a b = false.
Proof.
  pose proof (@insertionSort_contract Z) as Hsort.
  pose proof IntLessThanFunc_StrictWeakOrder as Hlt.
  pose proof (TSequence_Yields (U:=unit) [3; 1; 2] twoNil) as Hy.
  split; [exact Hsort|]. split; [exact Hlt|]. split; [reflexivity|]. split; [exact Hy|].
  exact (proj2 (OrderDescending_sorted_permutation insertionSort Z.ltb
                  (FromItems [3; 1; 2]) (Some IntLessThanFunc) 0 twoNil [3; 1; 2] twoNil
                  Hsort Hlt eq_refl Hy ltac:(simpl; lia))).
Defined.

Example OrderDescending_test :
  evals (let* q := OrderDescendingP insertionSort Z.ltb (Some IntLessThanFunc)
                                    (FromItems [9; 1; 2; 8; 7; 3; 6; 4; 5; 0]) in
         ToSlice q) w0
        (Ok [9; 8; 7; 6; 5; 4; 3; 2; 1; 0]
            (mkWorld [Some [9; 8; 7; 6; 5; 4; 3; 2; 1; 0]] tt)).
Proof. eval_compute 40%nat. Qed.

(** ** parallel.go: a panic of the action is not lost *)

Section ParallelPanicProofs.
Context {T U : Type}.
Local Abbreviation M := (M T U).
Local Abbreviation World := (World T U).
Local Abbreviation Sequence := (@Sequence T U).
Implicit Types w : World.

Variable N : nat.
Variable action : T -> M unit.
Variable s : Sequence T.
Variable x : T.
Hypothesis Hpanics :
  forall n w, (N <= n)%nat -> exists e w', action x n w = Panic e w'.

Lemma elem_of_delete_other (l : list T) k y :
  x ∈ l -> l !! k = Some y -> y <> x -> x ∈ delete k l.
Proof.
  intros Hin Hk Hne. apply list_elem_of_lookup in Hin as [j Hj].
  apply list_elem_of_lookup.
  destruct (decide (j < k)%nat) as [Hlt|Hge].
  - exists j. by rewrite list_lookup_delete_lt.
  - assert (j <> k) as Hjk by (intros ->; rewrite Hk in Hj; by inversion Hj).
    exists (j - 1)%nat. rewrite list_lookup_delete_ge by lia.
    by replace (Datatypes.S (j - 1)) with j by lia.
Qed.

Lemma caller_step_panic_inv n (st st' : fanout s) :
  (N <= n)%nat ->
  fanout_panic_inv N x st ->
  caller_step n st = Some st' ->
  fanout_panic_inv N x st'.
Proof.
  intros Hn [Hwg Hpc] Hstep.
  unfold caller_step in Hstep. destruct (fo_pc st) eqn:Epc; [| |done..].
  - destruct (fo_ex st) as [e|] eqn:Eex.
    + inversion Hstep; subst; clear Hstep.
      unfold fanout_panic_inv. simpl. by split.
    + destruct (Hpc eq_refl) as (rest & i' & Hruns & Hx).
      inversion Hruns as [i i'' Hnext|i i1 y l' i'' Hnext Hcur Hrest]; subst.
      * rewrite Hnext in Hstep by done. inversion Hstep; subst; clear Hstep.
        unfold fanout_panic_inv. simpl. split; [done|]. intros _.
        destruct Hx as [Hx|Hx]; [done|]. by apply elem_of_nil in Hx.
      * rewrite Hnext in Hstep by done. rewrite Hcur in Hstep by done.
        inversion Hstep; subst; clear Hstep.
        unfold fanout_panic_inv. simpl.
        split; [rewrite length_app; simpl; lia|]. intros _.
        exists l', i'. split; [done|].
        rewrite elem_of_app, list_elem_of_singleton.
        destruct Hx as [Hx|Hx]; [by left; left|].
        apply elem_of_cons in Hx as [->|Hx]; [left; by right|by right].
  - destruct (fo_wg st =? 0)%nat eqn:Ewg; [|done].
    apply Nat.eqb_eq in Ewg. rewrite Ewg in Hwg.
    symmetry in Hwg. apply nil_length_inv in Hwg.
    inversion Hstep; subst; clear Hstep.
    unfold fanout_panic_inv. simpl. rewrite Hwg, Ewg. split; [done|].
    destruct (fo_ex st) as [e|] eqn:Eex; [done|].
    specialize (Hpc eq_refl). rewrite Hwg in Hpc. by apply elem_of_nil in Hpc.
Qed.

Lemma goroutine_step_panic_inv n k (st st' : fanout s) :
  (N <= n)%nat ->
  fanout_panic_inv N x st ->
  goroutine_step action n k st = Some st' ->
  fanout_panic_inv N x st'.
Proof.
  intros Hn [Hwg Hpc] Hstep.
  unfold goroutine_step in Hstep.
  destruct (fo_started st !! k) as [item|] eqn:Ek; [|done].
  assert (length (delete k (fo_started st)) = Nat.pred (fo_wg st)) as Hlen.
  { rewrite length_delete by by eexists. rewrite Hwg. lia. }
  destruct (action item n (fo_world st)) as [[] w'|e w'|] eqn:Eact; [| |done].
  - assert (item <> x) as Hne.
    { intros ->. destruct (Hpanics n (fo_world st) Hn) as (e & w'' & He).
      by rewrite He in Eact. }
    inversion Hstep; subst; clear Hstep.
    unfold fanout_panic_inv. simpl. split; [done|].
    destruct (fo_pc st) eqn:Epc; try done.
    + intros Hex. destruct (Hpc Hex) as (rest & i' & Hruns & Hx).
      exists rest, i'. split; [done|].
      destruct Hx as [Hx|Hx]; [left; by eapply elem_of_delete_other|by right].
    + intros Hex. by eapply elem_of_delete_other; [apply Hpc| |].
    + destruct Hpc as [_ Hnil]. by rewrite Hnil in Ek.
  - inversion Hstep; subst; clear Hstep.
    unfold fanout_panic_inv. simpl. split; [done|].
    destruct (fo_pc st) eqn:Epc; try done.
    destruct Hpc as [_ Hnil]. by rewrite Hnil in Ek.
Qed.

Lemma fanout_run_panic_inv n schedule (st st' : fanout s) :
  (N <= n)%nat ->
  fanout_panic_inv N x st ->
  fanout_run action n schedule st = Some st' ->
  fanout_panic_inv N x st'.
Proof.
  intros Hn. revert st. induction schedule as [|[k|] schedule IH]; intros st Hinv Hrun;
    simpl in Hrun.
  - by inversion Hrun; subst.
  - destruct (goroutine_step action n k st) as [st1|] eqn:E1; [|done].
    eapply IH; [|exact Hrun]. by eapply goroutine_step_panic_inv.
  - destruct (caller_step n st) as [st1|] eqn:E1; [|done].
    eapply IH; [|exact Hrun]. by eapply caller_step_panic_inv.
Qed.
End ParallelPanicProofs.

(** X24.  [ParallelForEach] with a negative thread count never returns
    normally when the action panics on some item of the source, whatever the
    other items do and however the goroutines are scheduled: the panic is
    captured, and the call panics only with the captured value and only
    once every goroutine it started has finished. *)
Theorem ParallelForEach_unbounded_panic_not_lost {T U : Type}
    (s : @Sequence T U T) (action : T -> M T U unit) (N : nat) (l : list T) (x : T) :
  PureYields N s l ->
  x ∈ l ->
  (forall n w, (N <= n)%nat -> exists e w', action x n w = Panic e w') ->
  forall n schedule w st,
    (N <= n)%nat ->
    ParallelForEach_unbounded s action n schedule w = Some st ->
    fo_pc st <> Returned /\
    (forall e, fo_pc st = Panicked e ->
               fo_ex st = Some e /\ fo_wg st = 0%nat /\ fo_started st = []).
Proof.
  intros (i0 & i' & Hi & Hr) Hx Hpanics n schedule w st Hn Hrun.
  unfold ParallelForEach_unbounded in Hrun. rewrite Hi in Hrun by done.
  assert (fanout_panic_inv N x st) as [Hwg Hpc].
  { eapply (fanout_run_panic_inv N action s x Hpanics); [exact Hn| |exact Hrun].
    split; [done|]. simpl. intros _. exists l, i'. split; [done|by right]. }
  split.
  - intros Hret. by rewrite Hret in Hpc.
  - intros e He. rewrite He in Hpc. destruct Hpc as [Hex Hnil].
    split; [done|]. split; [by rewrite Hwg, Hnil|done].
Qed.

Lemma ParallelForEach_unbounded_panic_not_lost_witness :
  PureYields 0 (FromItems_sum [1; 2]) [1; 2] /\
  2 ∈ [1; 2] /\
  (forall n w, (0 <= n)%nat ->
     exists e w', (fun item => if item =? 2 then ohNo item else addToSum item) 2 n w
                  = Panic e w') /\
  ParallelForEach_unbounded (FromItems_sum [1; 2])
    (fun item => if item =? 2 then ohNo item else addToSum item) 0
    [None; None; Some 1%nat; Some 0%nat; None; None] sum0
  = Some (mkFanout (s:=FromItems_sum [1; 2])
            (mkWorld [] 1) (Some "oh no") (mkTIterator [1; 2] 1) 0 []
            (Panicked "oh no")) /\
  Panicked "oh no" <> Returned.
Proof.
  pose proof (TSequence_PureYields (U:=Z) [1; 2]) as Hy.
  assert (2 ∈ [1; 2]) as Hin by (right; left).
  assert (forall n w, (0 <= n)%nat ->
            exists e w', (fun item => if item =? 2 then ohNo item else addToSum item)
                           2 n w = Panic e w') as Hp.
  { intros n w _. by exists "oh no", w. }
  assert (ParallelForEach_unbounded (FromItems_sum [1; 2])
            (fun item => if item =? 2 then ohNo item else addToSum item) 0
            [None; None; Some 1%nat; Some 0%nat; None; None] sum0
          = Some (mkFanout (s:=FromItems_sum [1; 2])
                    (mkWorld [] 1) (Some "oh no") (mkTIterator [1; 2] 1) 0 []
                    (Panicked "oh no"))) as Hrun by reflexivity.
  split; [exact Hy|]. split; [exact Hin|]. split; [exact Hp|]. split; [exact Hrun|].
  exact (proj1 (ParallelForEach_unbounded_panic_not_lost (FromItems_sum [1; 2]) _ 0
                  [1; 2] 2 Hy Hin Hp 0%nat _ sum0 _ ltac:(lia) Hrun)).
Defined.

(** ** set.go and sequences.go: closures that capture a set or a flag *)

Section CapturedProofs.
Context {T U : Type} `{Countable T}.
Local Abbreviation World := (World T (Captured T U)).
Local Abbreviation M := (M T (Captured T U)).
Local Abbreviation Sequence := (@Sequence T (Captured T U)).
Implicit Types w : World.

Lemma toSet_loop (s : Sequence T) i w l i' w' (m : gset T) :
  Runs s i w l i' w' ->
  evals (loop (toSet_body s) (i, m)) w (Ok (list_to_set l ∪ m) w').
Proof.
  intros Hr. revert m.
  induction Hr as [i w i' w' Hn|i w j wj x wx l i' w' Hn Hc Hr IH]; intros m.
  - apply evals_loop_break. unfold toSet_body.
    replace (list_to_set [] ∪ m) with m by set_solver. eval_deep.
  - eapply evals_loop_continue.
    + unfold toSet_body. eval_deep.
    + replace (list_to_set (x :: l) ∪ m) with (list_to_set l ∪ ({[x]} ∪ m))
        by set_solver.
      apply IH.
Qed.

Lemma toSet_Yields (s : Sequence T) w l w' :
  Yields s w l w' -> evals (toSet s) w (Ok (list_to_set l) w').
Proof.
  intros (i0 & w0 & i' & Hi & Hr). unfold toSet.
  eapply evals_bind; [exact Hi|].
  replace (list_to_set l : gset T) with (list_to_set l ∪ (∅ : gset T)) by set_solver.
  by eapply toSet_loop.
Qed.

Lemma lazySet_fill c (source : Sequence T) w l w1 :
  sets (user w) !! c = Some None ->
  Yields source w l w1 ->
  evals (lazySet c source) w (Ok (list_to_set l) (setSet c (list_to_set l) w1)).
Proof.
  intros Hc Hy. unfold lazySet.
  eapply evals_bind.
  { apply evals_always. intros n. unfold readSet. by rewrite Hc. }
  simpl. eapply evals_bind; [by apply toSet_Yields|].
  eapply evals_bind; [by apply evals_always|]. apply evals_ret.
Qed.

Lemma lazySet_hit c (source : Sequence T) w (S : gset T) :
  sets (user w) !! c = Some (Some S) ->
  evals (lazySet c source) w (Ok S w).
Proof.
  intros Hc. unfold lazySet.
  eapply evals_bind.
  { apply evals_always. intros n. unfold readSet. by rewrite Hc. }
  simpl. apply evals_ret.
Qed.

Lemma sets_setSet c (S : gset T) w :
  (c < length (sets (user w)))%nat ->
  sets (user (setSet c S w)) !! c = Some (Some S).
Proof. intros Hlt. simpl. by apply list_lookup_insert_eq. Qed.

(** The next item that the loop of [Except]'s closure lets through. *)
Lemma except_loop_next N (s : Sequence T) (S : gset T) i l i' w :
  PureRuns N s i l i' ->
  match filter (fun x => x ∉ S) l with
  | [] => evals (loop (except_body s S) i) w (Ok (None, i') w)
  | x :: rest =>
      exists i1 l2,
        evals (loop (except_body s S) i) w (Ok (Some x, i1) w) /\
        PureRuns N s i1 l2 i' /\
        rest = filter (fun x => x ∉ S) l2 /\
        (length l2 < length l)%nat
  end.
Proof.
  intros Hr. induction Hr as [i i' Hn|i j x l i' Hn Hc Hr IH].
  - simpl. apply evals_loop_break. unfold except_body.
    eapply evals_bind; [exists N; intros n Hle; by apply Hn|]. simpl. apply evals_ret.
  - destruct (decide (x ∉ S)) as [Hx|Hx].
    + rewrite filter_cons_True by done. exists j, l.
      split; [|split; [done|split; [done|simpl; lia]]].
      apply evals_loop_break. unfold except_body.
      eapply evals_bind; [exists N; intros n Hle; by apply Hn|]. simpl.
      eapply evals_bind; [exists N; intros n Hle; by apply Hc|].
      unfold contains. rewrite bool_decide_eq_false_2 by done. simpl. apply evals_ret.
    + rewrite filter_cons_False by done.
      assert (evals (except_body s S i) w (Ok (inl j) w)) as Hstep.
      { unfold except_body.
        eapply evals_bind; [exists N; intros n Hle; by apply Hn|]. simpl.
        eapply evals_bind; [exists N; intros n Hle; by apply Hc|].
        unfold contains. rewrite bool_decide_eq_true_2 by (by apply dec_stable).
        simpl. apply evals_ret. }
      destruct (filter (fun x => x ∉ S) l) as [|y rest].
      * by eapply evals_loop_continue.
      * destruct IH as (i1 & l2 & He & Hr2 & Hrest & Hlen).
        exists i1, l2. split; [by eapply evals_loop_continue|].
        split; [done|]. split; [done|]. simpl. lia.
Qed.

Lemma Except_Calls N (s except : Sequence T) c (S : gset T) w i l i' :
  sets (user w) !! c = Some (Some S) ->
  PureRuns N s i l i' ->
  Calls (Except_func c s except) i w (filter (fun x => x ∉ S) l) i' w.
Proof.
  intros Hc. remember (length l) as k eqn:Hk. revert i l Hk.
  induction (lt_wf k) as [k _ IH]. intros i l -> Hr.
  pose proof (except_loop_next N s S i l i' w Hr) as Hnext.
  destruct (filter (fun x => x ∉ S) l) as [|x rest].
  - apply Calls_nil. simpl. eapply evals_bind; [by apply lazySet_hit|]. exact Hnext.
  - destruct Hnext as (i1 & l2 & He & Hr2 & -> & Hlen).
    eapply Calls_cons.
    + simpl. eapply evals_bind; [by apply lazySet_hit|]. exact He.
    + by apply (IH (length l2) Hlen).
Qed.

Lemma Except_Calls_first N (s except : Sequence T) c w es w1 i l i' :
  sets (user w) !! c = Some None ->
  Yields except w es w1 ->
  (c < length (sets (user w1)))%nat ->
  PureRuns N s i l i' ->
  Calls (Except_func c s except) i w
        (filter (fun x => x ∉ (list_to_set es : gset T)) l) i'
        (setSet c (list_to_set es) w1).
Proof.
  intros Hc Hy Hlen Hr. set (S := list_to_set es : gset T).
  pose proof (except_loop_next N s S i l i' (setSet c S w1) Hr) as Hnext.
  destruct (filter (fun x => x ∉ S) l) as [|x rest].
  - apply Calls_nil. simpl. eapply evals_bind; [by apply lazySet_fill|]. exact Hnext.
  - destruct Hnext as (i1 & l2 & He & Hr2 & -> & _).
    eapply Calls_cons.
    + simpl. eapply evals_bind; [by apply lazySet_fill|]. exact He.
    + eapply Except_Calls; [by apply sets_setSet|exact Hr2].
Qed.

Lemma evals_newSet w :
  evals (newSet : M nat) w
        (Ok (length (sets (user w)))
            (mkWorld (cells w)
               (mkCaptured (sets (user w) ++ [None]) (flags (user w)) (own (user w))))).
Proof. by apply evals_always. Qed.

(** X25.  [Except] with no argument returns the receiver itself.
    Otherwise the result yields the receiver's items that occur in none of
    the argument sequences, in the receiver's order and with the receiver's
    duplicates.  The arguments are drained into a set at the first [Next] of
    the first iterator, not when [Except] is applied; once the set exists
    the arguments are not iterated again. *)
Theorem Except_removes_items (s : Sequence T) (N : nat) (l : list T) :
  PureYields N s l ->
  (forall n w, Except s [] n w = Ok s w) /\
  (forall first rest w,
     evals (Except s (first :: rest)) w
           (Ok (FromSequenceFunction
                  (Except_func (length (sets (user w))) s
                     (if (1 <? length (first :: rest))%nat
                      then concatSequence first rest else first)))
               (mkWorld (cells w)
                  (mkCaptured (sets (user w) ++ [None]) (flags (user w))
                              (own (user w)))))) /\
  (forall c except w es w1,
     sets (user w) !! c = Some None ->
     Yields except w es w1 ->
     (c < length (sets (user w1)))%nat ->
     evals (ToSlice (FromSequenceFunction (Except_func c s except))) w
           (Ok (filter (fun x => x ∉ es) l) (setSet c (list_to_set es) w1))) /\
  (forall c except w (S : gset T),
     sets (user w) !! c = Some (Some S) ->
     evals (ToSlice (FromSequenceFunction (Except_func c s except))) w
           (Ok (filter (fun x => x ∉ S) l) w)).
Proof.
  intros (i0 & i' & Hi & Hr). split; [done|]. split; [|split].
  - intros first rest w. unfold Except.
    eapply evals_bind; [apply evals_newSet|]. apply evals_ret.
  - intros c except w es w1 Hc Hy Hlen.
    apply Yields_ToSlice. unfold FromSequenceFunction.
    eapply Calls_Yields; [simpl; exists N; intros n Hle; by apply Hi|].
    replace (filter (fun x => x ∉ es) l)
      with (filter (fun x => x ∉ (list_to_set es : gset T)) l).
    + by eapply Except_Calls_first.
    + apply list_filter_iff. intros x. by rewrite elem_of_list_to_set.
  - intros c except w S Hc.
    apply Yields_ToSlice. unfold FromSequenceFunction.
    eapply Calls_Yields; [simpl; exists N; intros n Hle; by apply Hi|].
    by eapply Except_Calls.
Qed.
End CapturedProofs.

Section IntersectProofs.
Context {T U : Type} `{Countable T}.
Local Abbreviation World := (World T (Captured T U)).
Local Abbreviation M := (M T (Captured T U)).
Local Abbreviation Sequence := (@Sequence T (Captured T U)).
Implicit Types w : World.

(** The next item that the loop of [Intersect]'s closure lets through. *)
Lemma intersect_loop_next N (s : Sequence T) (R : gset T) i l i' w (seen : gset T) :
  PureRuns N s i l i' ->
  match distinct_from seen (filter (fun x => x ∈ R) l) with
  | [] => exists seen',
      evals (loop (intersect_body s R) (mkDistinctEnv i seen)) w
            (Ok (None, mkDistinctEnv i' seen') w)
  | x :: rest =>
      exists i1 l2,
        evals (loop (intersect_body s R) (mkDistinctEnv i seen)) w
              (Ok (Some x, mkDistinctEnv i1 ({[x]} ∪ seen)) w) /\
        PureRuns N s i1 l2 i' /\
        rest = distinct_from ({[x]} ∪ seen) (filter (fun x => x ∈ R) l2) /\
        (length l2 < length l)%nat
  end.
Proof.
  intros Hr. induction Hr as [i i' Hn|i j x l i' Hn Hc Hr IH].
  - simpl. exists seen. apply evals_loop_break. unfold intersect_body. simpl.
    eapply evals_bind; [exists N; intros n Hle; by apply Hn|]. simpl. apply evals_ret.
  - assert (forall r,
      evals (if contains R x
             then let (added, lset') := tryAdd seen x in
                  if added : bool
                  then ret (inr (Some x, mkDistinctEnv j lset'))
                  else ret (inl (mkDistinctEnv j lset'))
             else ret (inl (mkDistinctEnv j seen))) w (Ok r w) ->
      evals (intersect_body s R (mkDistinctEnv i seen)) w (Ok r w)) as Hbody.
    { intros r Hrest. unfold intersect_body. simpl.
      eapply evals_bind; [exists N; intros n Hle; by apply Hn|]. simpl.
      eapply evals_bind; [exists N; intros n Hle; by apply Hc|]. exact Hrest. }
    destruct (decide (x ∈ R)) as [HxR|HxR].
    + rewrite filter_cons_True by done. simpl.
      destruct (decide (x ∈ seen)) as [Hseen|Hseen].
      * assert (evals (intersect_body s R (mkDistinctEnv i seen)) w
                      (Ok (inl (mkDistinctEnv j seen)) w)) as Hstep.
        { apply Hbody. unfold contains, tryAdd.
          rewrite !bool_decide_eq_true_2 by done. simpl. apply evals_ret. }
        destruct (distinct_from seen (filter (fun x => x ∈ R) l)) as [|y rest].
        -- destruct IH as [seen' He]. exists seen'. by eapply evals_loop_continue.
        -- destruct IH as (i1 & l2 & He & Hr2 & Hrest & Hlen).
           exists i1, l2. split; [by eapply evals_loop_continue|].
           split; [done|]. split; [done|]. simpl. lia.
      * exists j, l. split; [|split; [done|split; [done|simpl; lia]]].
        apply evals_loop_break. apply Hbody. unfold contains, tryAdd.
        rewrite bool_decide_eq_true_2 by done.
        rewrite bool_decide_eq_false_2 by done. simpl. apply evals_ret.
    + rewrite filter_cons_False by done.
      assert (evals (intersect_body s R (mkDistinctEnv i seen)) w
                    (Ok (inl (mkDistinctEnv j seen)) w)) as Hstep.
      { apply Hbody. unfold contains.
        rewrite bool_decide_eq_false_2 by done. apply evals_ret. }
      destruct (distinct_from seen (filter (fun x => x ∈ R) l)) as [|y rest].
      * destruct IH as [seen' He]. exists seen'. by eapply evals_loop_continue.
      * destruct IH as (i1 & l2 & He & Hr2 & Hrest & Hlen).
        exists i1, l2. split; [by eapply evals_loop_continue|].
        split; [done|]. split; [done|]. simpl. lia.
Qed.

Lemma Intersect_Calls N (s seq : Sequence T) c (R : gset T) w i l i' seen :
  sets (user w) !! c = Some (Some R) ->
  PureRuns N s i l i' ->
  exists seen',
    Calls (Intersect_func c s seq) (mkDistinctEnv i seen) w
          (distinct_from seen (filter (fun x => x ∈ R) l))
          (mkDistinctEnv i' seen') w.
Proof.
  intros Hc. remember (length l) as k eqn:Hk. revert i l seen Hk.
  induction (lt_wf k) as [k _ IH]. intros i l seen -> Hr.
  pose proof (intersect_loop_next N s R i l i' w seen Hr) as Hnext.
  destruct (distinct_from seen (filter (fun x => x ∈ R) l)) as [|x rest].
  - destruct Hnext as [seen' He]. exists seen'.
    apply Calls_nil. simpl. eapply evals_bind; [by apply lazySet_hit|]. exact He.
  - destruct Hnext as (i1 & l2 & He & Hr2 & -> & Hlen).
    destruct (IH (length l2) Hlen i1 l2 ({[x]} ∪ seen) eq_refl Hr2) as [seen' IH'].
    exists seen'. eapply Calls_cons; [|exact IH'].
    simpl. eapply evals_bind; [by apply lazySet_hit|]. exact He.
Qed.

Lemma Intersect_Calls_first N (s seq : Sequence T) c w rs w1 i l i' :
  sets (user w) !! c = Some None ->
  Yields seq w rs w1 ->
  (c < length (sets (user w1)))%nat ->
  PureRuns N s i l i' ->
  exists seen',
    Calls (Intersect_func c s seq) (mkDistinctEnv i ∅) w
          (distinct_from ∅ (filter (fun x => x ∈ (list_to_set rs : gset T)) l))
          (mkDistinctEnv i' seen') (setSet c (list_to_set rs) w1).
Proof.
  intros Hc Hy Hlen Hr. set (R := list_to_set rs : gset T).
  pose proof (intersect_loop_next N s R i l i' (setSet c R w1) ∅ Hr) as Hnext.
  destruct (distinct_from ∅ (filter (fun x => x ∈ R) l)) as [|x rest].
  - destruct Hnext as [seen' He]. exists seen'.
    apply Calls_nil. simpl. eapply evals_bind; [by apply lazySet_fill|]. exact He.
  - destruct Hnext as (i1 & l2 & He & Hr2 & -> & _).
    destruct (Intersect_Calls N s seq c R (setSet c R w1) i1 l2 i' ({[x]} ∪ ∅)
                ltac:(by apply sets_setSet) Hr2) as [seen' Hcalls].
    exists seen'. eapply Calls_cons; [|exact Hcalls].
    simpl. eapply evals_bind; [by apply lazySet_fill|]. exact He.
Qed.

(** X26.  [Intersect] yields the receiver's items that also occur in the
    argument sequence, each once, at its first occurrence and in the
    receiver's order.  The argument is drained into a set at the first
    [Next] of the first iterator; once the set exists the argument is not
    iterated again. *)
Theorem Intersect_common_items (s seq : Sequence T) (N : nat) (l : list T) :
  PureYields N s l ->
  (forall w,
     evals (Intersect s seq) w
           (Ok (FromSequenceFunction (Intersect_func (length (sets (user w))) s seq))
               (mkWorld (cells w)
                  (mkCaptured (sets (user w) ++ [None]) (flags (user w))
                              (own (user w)))))) /\
  (forall c w rs w1,
     sets (user w) !! c = Some None ->
     Yields seq w rs w1 ->
     (c < length (sets (user w1)))%nat ->
     evals (ToSlice (FromSequenceFunction (Intersect_func c s seq))) w
           (Ok (first_occurrences (filter (fun x => x ∈ rs) l))
               (setSet c (list_to_set rs) w1))) /\
  (forall c w (R : gset T),
     sets (user w) !! c = Some (Some R) ->
     evals (ToSlice (FromSequenceFunction (Intersect_func c s seq))) w
           (Ok (first_occurrences (filter (fun x => x ∈ R) l)) w)).
Proof.
  intros (i0 & i' & Hi & Hr). split; [|split].
  - intros w. unfold Intersect.
    eapply evals_bind; [apply evals_newSet|]. apply evals_ret.
  - intros c w rs w1 Hc Hy Hlen.
    destruct (Intersect_Calls_first N s seq c w rs w1 i0 l i' Hc Hy Hlen Hr)
      as [seen' Hcalls].
    rewrite distinct_from_empty in Hcalls.
    apply Yields_ToSlice. unfold FromSequenceFunction.
    replace (filter (fun x => x ∈ rs) l)
      with (filter (fun x => x ∈ (list_to_set rs : gset T)) l).
    + eapply Calls_Yields; [|exact Hcalls]. simpl.
      eapply evals_bind; [exists N; intros n Hle; by apply Hi|]. apply evals_ret.
    + apply list_filter_iff. intros x. by rewrite elem_of_list_to_set.
  - intros c w R Hc.
    destruct (Intersect_Calls N s seq c R w i0 l i' ∅ Hc Hr) as [seen' Hcalls].
    rewrite distinct_from_empty in Hcalls.
    apply Yields_ToSlice. unfold FromSequenceFunction.
    eapply Calls_Yields; [|exact Hcalls]. simpl.
    eapply evals_bind; [exists N; intros n Hle; by apply Hi|]. apply evals_ret.
Qed.

(** X27.  A sequence made by [MakeOneTimeFunctionSequence] (so by
    [FromIteratorFunction]) hands out one iterator: the first [Iterator()]
    sets the captured flag and the iteration yields what the function
    returns; every later [Iterator()] panics with "sequence already
    iterated", also when the first iterator was never advanced. *)
Theorem MakeOneTimeFunctionSequence_iterates_once {A E} (f0 : E)
    (call : E -> M (option A * E)) (used : nat) :
  let q := MakeFunctionSequence (oneTime_func used f0 call) in
  (forall w,
     evals (MakeOneTimeFunctionSequence f0 call) w
           (Ok (MakeFunctionSequence
                  (oneTime_func (length (flags (user w))) f0 call))
               (mkWorld (cells w)
                  (mkCaptured (sets (user w)) (flags (user w) ++ [false])
                              (own (user w)))))) /\
  (forall w,
     flags (user w) !! used = Some false ->
     evals (Iterator q) w
           (Ok (mkFunctionIterator (sf:=oneTime_func used f0 call) f0 None)
               (setFlag used true w)) /\
     flags (user (setFlag used true w)) !! used = Some true /\
     evals (let* _ := Iterator q in Iterator q) w
           (Panic "sequence already iterated" (setFlag used true w))) /\
  (forall w,
     flags (user w) !! used = Some true ->
     evals (Iterator q) w (Panic "sequence already iterated" w) /\
     evals (ToSlice q) w (Panic "sequence already iterated" w)) /\
  (forall w l e' w',
     flags (user w) !! used = Some false ->
     Calls (oneTime_func used f0 call) f0 (setFlag used true w) l e' w' ->
     evals (ToSlice q) w (Ok l w')).
Proof.
  intros q.
  assert (forall w, flags (user w) !! used = Some false ->
            evals (create (oneTime_func used f0 call)) w
                  (Ok f0 (setFlag used true w))) as Hfirst.
  { intros w Hf. simpl. eapply evals_bind.
    { apply evals_always. intros n. unfold readFlag. by rewrite Hf. }
    simpl. eapply evals_bind; [by apply evals_always|]. apply evals_ret. }
  assert (forall w, flags (user w) !! used = Some true ->
            evals (Iterator q) w (Panic "sequence already iterated" w)) as Hlater.
  { intros w Hf. simpl. unfold functionSequence_Iterator.
    apply evals_bind_panic. simpl. eapply evals_bind.
    { apply evals_always. intros n. unfold readFlag. by rewrite Hf. }
    simpl. apply evals_panic. }
  assert (forall w, flags (user w) !! used = Some false ->
            flags (user (setFlag used true w)) !! used = Some true) as Hset.
  { intros w Hf. simpl. apply list_lookup_insert_eq.
    by eapply lookup_lt_Some. }
  split; [|split; [|split]].
  - intros w. unfold MakeOneTimeFunctionSequence.
    eapply evals_bind; [by apply evals_always|]. apply evals_ret.
  - intros w Hf.
    assert (evals (Iterator q) w
                  (Ok (mkFunctionIterator (sf:=oneTime_func used f0 call) f0 None)
                      (setFlag used true w))) as Hi.
    { simpl. unfold functionSequence_Iterator.
      eapply evals_bind; [by apply Hfirst|]. apply evals_ret. }
    split; [exact Hi|]. split; [by apply Hset|].
    eapply evals_bind; [exact Hi|]. apply Hlater. by apply Hset.
  - intros w Hf. split; [by apply Hlater|].
    unfold ToSlice. apply evals_bind_panic. by apply Hlater.
  - intros w l e' w' Hf Hcalls. apply Yields_ToSlice.
    eapply Calls_Yields; [by apply Hfirst|exact Hcalls].
Qed.
End IntersectProofs.

Lemma Except_removes_items_witness :
  PureYields 0 (FromItemsC [1; 2; 3; 2; 4]) [1; 2; 3; 2; 4] /\
  sets (user oneNilSet) !! 0%nat = Some None /\
  Yields (FromItemsC [3; 5; 1]) oneNilSet [3; 5; 1] oneNilSet /\
  evals (ToSlice (FromSequenceFunction
                    (Except_func 0 (FromItemsC [1; 2; 3; 2; 4]) (FromItemsC [3; 5; 1]))))
        oneNilSet (Ok [2; 2; 4] (setSet 0 (list_to_set [3; 5; 1]) oneNilSet)).
Proof.
  pose proof (TSequence_PureYields (U:=Captured Z unit) [1; 2; 3; 2; 4]) as Hy.
  pose proof (TSequence_Yields (U:=Captured Z unit) [3; 5; 1] oneNilSet) as He.
  split; [exact Hy|]. split; [reflexivity|]. split; [exact He|].
  exact (proj1 (proj2 (proj2 (Except_removes_items (FromItemsC [1; 2; 3; 2; 4]) 0
                                [1; 2; 3; 2; 4] Hy)))
               0%nat (FromItemsC [3; 5; 1]) oneNilSet [3; 5; 1] oneNilSet
               eq_refl He ltac:(simpl; lia)).
Defined.

Lemma Intersect_common_items_witness :
  PureYields 0 (FromItemsC [1; 2; 3; 2; 4]) [1; 2; 3; 2; 4] /\
  sets (user oneNilSet) !! 0%nat = Some None /\
  Yields (FromItemsC [2; 4; 6]) oneNilSet [2; 4; 6] oneNilSet /\
  evals (ToSlice (FromSequenceFunction
                    (Intersect_func 0 (FromItemsC [1; 2; 3; 2; 4]) (FromItemsC [2; 4; 6]))))
        oneNilSet (Ok [2; 4] (setSet 0 (list_to_set [2; 4; 6]) oneNilSet)).
Proof.
  pose proof (TSequence_PureYields (U:=Captured Z unit) [1; 2; 3; 2; 4]) as Hy.
  pose proof (TSequence_Yields (U:=Captured Z unit) [2; 4; 6] oneNilSet) as He.
  split; [exact Hy|]. split; [reflexivity|]. split; [exact He|].
  exact (proj1 (proj2 (Intersect_common_items (FromItemsC [1; 2; 3; 2; 4])
                         (FromItemsC [2; 4; 6]) 0 [1; 2; 3; 2; 4] Hy))
               0%nat oneNilSet [2; 4; 6] oneNilSet eq_refl He ltac:(simpl; lia)).
Defined.

Lemma MakeOneTimeFunctionSequence_iterates_once_witness :
  flags (user oneFlag) !! 0%nat = Some false /\
  evals (let* _ := Iterator (MakeFunctionSequence (oneTime_func 0 3 countdown)) in
         Iterator (MakeFunctionSequence (oneTime_func 0 3 countdown))) oneFlag
        (Panic "sequence already iterated" (setFlag 0 true oneFlag)).
Proof.
  split; [reflexivity|].
  exact (proj2 (proj2 (proj1 (proj2 (MakeOneTimeFunctionSequence_iterates_once
                                       3 countdown 0)) oneFlag eq_refl))).
Defined.

Example FromIteratorFunction_test :
  evals (let* q := FromIteratorFunction 3 countdown in
         let* a := ToSlice q in
         ret a) wc0
        (Ok [3; 2; 1] (mkWorld [] (mkCaptured [] [true] tt))).
Proof. eval_compute 40%nat. Qed.

Example Except_test :
  evals (let* q := Except (FromItemsC [1; 2; 3; 2; 4]) [FromItemsC [3]; FromItemsC [1]] in
         let* a := ToSlice q in
         let* b := ToSlice q in
         ret (a, b)) wc0
        (Ok ([2; 2; 4], [2; 2; 4])
            (mkWorld [] (mkCaptured [Some (list_to_set [3; 1])] [] tt))).
Proof.
  eexists 40%nat; intros n Hn.
  replace n with (40 + (n - 40))%nat by lia.
  generalize (n - 40)%nat; clear n Hn; intros n.
  vm_compute. reflexivity.
Qed.


(** ** concat.go: OrderByPD sorts by key *)

Section OrderByProofs.
Context {T U : Type}.
Local Abbreviation M := (M T U).
Local Abbreviation World := (World T U).
Local Abbreviation Sequence := (@Sequence T U).

Lemma swap_items_fmap (f : T -> T) (l : list T) i j :
  swap_items (f <$> l) i j = (fun l' : list T => f <$> l') <$> swap_items l i j.
Proof.
  unfold swap_items. rewrite !list_lookup_fmap.
  destruct (l !! i) as [a|]; [|done]. destruct (l !! j) as [b|]; [|done]. simpl.
  by rewrite !list_fmap_insert.
Qed.

(** Sorting items by their keys makes the same comparisons and swaps as
    sorting the keys alone. *)
Lemma run_sorter_orderBy (p : sorter) (key : T -> T) (cmp : T -> T -> bool)
    (l : list T) d :
  run_sorter p (mkOrderData cmp (key <$> l)) = Some d ->
  exists l', run_sorter p (mkOrderByData (key <$> l) l cmp)
             = Some (mkOrderByData (key <$> l') l' cmp) /\
             l' ≡ₚ l /\ items d = key <$> l'.
Proof.
  revert l d. induction p as [|i j k IH|i j k IH]; intros l d; simpl.
  - intros [= <-]. by exists l.
  - destruct ((key <$> l) !! i) as [a|]; [|done].
    destruct ((key <$> l) !! j) as [b|]; [|done]. apply IH.
  - rewrite swap_items_fmap.
    destruct (swap_items l i j) as [l1|] eqn:Es; [|done]. simpl. intros Hrun.
    destruct (IH l1 d Hrun) as (l' & Hrun' & Hp & Hd).
    exists l'. split; [done|]. split; [|done].
    rewrite Hp. by eapply swap_items_Permutation.
Qed.

Lemma run_sorter_orderBy_reverse (p : sorter) (key : T -> T) (cmp : T -> T -> bool)
    (l : list T) d :
  run_sorter p (mkOrderData (fun a b => cmp b a) (key <$> l)) = Some d ->
  exists l', run_sorter p (mkReverse (mkOrderByData (key <$> l) l cmp))
             = Some (mkReverse (mkOrderByData (key <$> l') l' cmp)) /\
             l' ≡ₚ l /\ items d = key <$> l'.
Proof.
  revert l d. induction p as [|i j k IH|i j k IH]; intros l d; simpl.
  - intros [= <-]. by exists l.
  - destruct ((key <$> l) !! i) as [a|]; [|by destruct ((key <$> l) !! j)].
    destruct ((key <$> l) !! j) as [b|]; [|done]. apply IH.
  - rewrite swap_items_fmap.
    destruct (swap_items l i j) as [l1|] eqn:Es; [|done]. simpl. intros Hrun.
    destruct (IH l1 d Hrun) as (l' & Hrun' & Hp & Hd).
    exists l'. split; [done|]. split; [|done].
    rewrite Hp. by eapply swap_items_Permutation.
Qed.

(** A selector that returns [key x] and leaves the world alone gives the
    keys [key <$> l]. *)
Lemma selectKeys_pure (keySelector : T -> M T) (key : T -> T) (l : list T) w :
  (forall x w, x ∈ l -> evals (keySelector x) w (Ok (key x) w)) ->
  evals (selectKeys keySelector l) w (Ok (key <$> l) w).
Proof.
  induction l as [|x l IH]; intros Hkey; simpl.
  - apply evals_ret.
  - eapply evals_bind; [apply Hkey; left|].
    eapply evals_bind; [apply IH; intros; apply Hkey; by right|].
    apply evals_ret.
Qed.

(** The keys are selected in order: a panic of the selector at [x] comes
    after the selections before it and ends the loop. *)
Lemma selectKeys_panic (keySelector : T -> M T) (key : T -> T)
    (l1 : list T) x (l2 : list T) e w :
  (forall y w, y ∈ l1 -> evals (keySelector y) w (Ok (key y) w)) ->
  evals (keySelector x) w (Panic e w) ->
  evals (selectKeys keySelector (l1 ++ x :: l2)) w (Panic e w).
Proof.
  induction l1 as [|y l1 IH]; intros Hkey Hx; simpl.
  - by apply evals_bind_panic.
  - eapply evals_bind; [apply Hkey; left|].
    apply evals_bind_panic. apply IH; [|done]. intros; apply Hkey; by right.
Qed.

Lemma OrderByPD_Fills (sort_Sort : nat -> sorter) (keySelector : T -> M T)
    (key : T -> T) cmp reverse c (s : Sequence T) :
  (forall x w, evals (keySelector x) w (Ok (key x) w)) ->
  Fills (let* v := ToSlice s in
         let* _ := writeSlice c v in
         let* keys := selectKeys keySelector v in
         match sort_orderByData sort_Sort reverse (mkOrderByData keys v cmp) with
         | Some d' => let* _ := writeSlice c (ob_items d') in ret (ob_items d')
         | None => panic "runtime error: index out of range"
         end) c s
        (fun v => ob_items <$> sort_orderByData sort_Sort reverse
                                 (mkOrderByData (key <$> v) v cmp)).
Proof.
  intros Hkey w l w1 l' Hy Ht.
  eapply evals_bind; [by apply Yields_ToSlice|].
  eapply evals_bind; [apply evals_writeSlice|].
  eapply evals_bind; [apply selectKeys_pure; intros; apply Hkey|].
  destruct (sort_orderByData sort_Sort reverse (mkOrderByData (key <$> l) l cmp))
    as [d'|]; [|done].
  simpl in Ht. injection Ht as <-.
  eapply evals_bind; [apply evals_writeSlice|].
  rewrite setSlice_setSlice. apply evals_ret.
Qed.

(** X28.  [OrderByPD] (behind [OrderBy], [OrderByP], [OrderByDescending] and
    [OrderByDescendingP]) with a selector that computes [key]: the sequence
    yields a permutation of the source in which no item's key is less than
    the key of the item before it (after it, when [reverse] is set), for
    every strict less-than comparator. *)
Theorem OrderByPD_sorted_by_key (sort_Sort : nat -> sorter)
    (GenericLessThan : T -> T -> bool) (s : Sequence T)
    (keySelector : T -> M T) (key : T -> T)
    (cmp : option (T -> T -> bool)) (reverse : bool) (c : nat) w l w1 :
  sort_Sort_contract (T:=T) sort_Sort ->
  StrictWeakOrder (default GenericLessThan cmp) ->
  (forall x w, evals (keySelector x) w (Ok (key x) w)) ->
  cells w !! c = Some None ->
  Yields s w l w1 ->
  (c < length (cells w1))%nat ->
  let lt := default GenericLessThan cmp in
  let q := FromSequenceFunction (OrderByPD_func sort_Sort keySelector lt reverse c s) in
  (forall w, evals (OrderByPD sort_Sort GenericLessThan keySelector cmp reverse s) w
                   (Ok (FromSequenceFunction
                          (OrderByPD_func sort_Sort keySelector lt reverse
                                          (length (cells w)) s))
                       (mkWorld (cells w ++ [None]) (user w)))) /\
  exists l',
    evals (ToSlice q) w (Ok l' (setSlice c l' w1)) /\
    l' ≡ₚ l /\
    forall i a b, l' !! i = Some a -> l' !! (Datatypes.S i) = Some b ->
                  (if reverse then lt (key a) (key b) else lt (key b) (key a)) = false.
Proof.
  intros Hsort Hcmp Hkey Hc Hy Hlen lt q. split.
  { intros w'. unfold OrderByPD.
    eapply evals_bind; [apply evals_newSlice|].
    destruct cmp; apply evals_ret. }
  pose proof (materialize_BufferedOnce _ c s _
                (OrderByPD_Fills sort_Sort keySelector key lt reverse c s Hkey))
    as (_ & Hfill & _).
  destruct reverse.
  - destruct (Hsort (fun a b => lt b a) (key <$> l) (StrictWeakOrder_flip lt Hcmp))
      as (d1 & Hrun & Hsorted).
    rewrite length_fmap in Hrun.
    destruct (run_sorter_orderBy_reverse _ _ _ _ _ Hrun) as (l' & Hrun' & Hp & Hd).
    exists l'. split; [|split; [done|]].
    + apply Yields_ToSlice. apply (Hfill w l w1 l' Hc Hy); [|done].
      unfold sort_orderByData. simpl. by rewrite Hrun'.
    + intros i a b Ha Hb. rewrite Hd in Hsorted.
      apply (Hsorted i (key a) (key b)); rewrite list_lookup_fmap.
      * by rewrite Ha.
      * by rewrite Hb.
  - destruct (Hsort lt (key <$> l) Hcmp) as (d1 & Hrun & Hsorted).
    rewrite length_fmap in Hrun.
    destruct (run_sorter_orderBy _ _ _ _ _ Hrun) as (l' & Hrun' & Hp & Hd).
    exists l'. split; [|split; [done|]].
    + apply Yields_ToSlice. apply (Hfill w l w1 l' Hc Hy); [|done].
      unfold sort_orderByData. simpl. by rewrite Hrun'.
    + intros i a b Ha Hb. rewrite Hd in Hsorted.
      apply (Hsorted i (key a) (key b)); rewrite list_lookup_fmap.
      * by rewrite Ha.
      * by rewrite Hb.
Qed.
End OrderByProofs.


Lemma OrderByPD_sorted_by_key_witness :
  sort_Sort_contract (T:=Z) insertionSort /\
  StrictWeakOrder (default Z.ltb (Some IntLessThanFunc)) /\
  (forall x (w : World Z unit), evals (lastDigit x) w (Ok (Z.rem x 10) w)) /\
  cells twoNil !! 0%nat = Some None /\
  Yields (FromItems [13; 42; 21]) twoNil [13; 42; 21] twoNil /\
  exists l',
    evals (ToSlice (FromSequenceFunction
                      (OrderByPD_func insertionSort lastDigit IntLessThanFunc false 0
                                      (FromItems [13; 42; 21]))))
          twoNil (Ok l' (setSlice 0 l' twoNil)) /\
    l' ≡ₚ [13; 42; 21] /\
    forall i a b, l' !! i = Some a -> l' !! (Datatypes.S i) = Some b ->
                  IntLessThanFunc (Z.rem b 10) (Z.rem a 10) = false.
Proof.
  pose proof (@insertionSort_contract Z) as Hsort.
  pose proof IntLessThanFunc_StrictWeakOrder as Hlt.
  pose proof (TSequence_Yields (U:=unit) [13; 42; 21] twoNil) as Hy.
  assert (forall x (w : World Z unit), evals (lastDigit x) w (Ok (Z.rem x 10) w)) as Hkey.
  { intros x w. apply evals_ret. }
  split; [exact Hsort|]. split; [exact Hlt|]. split; [exact Hkey|].
  split; [reflexivity|]. split; [exact Hy|].
  exact (proj2 (OrderByPD_sorted_by_key insertionSort Z.ltb
                  (FromItems [13; 42; 21]) lastDigit (fun x => Z.rem x 10)
                  (Some IntLessThanFunc) false 0 twoNil [13; 42; 21] twoNil
                  Hsort Hlt Hkey eq_refl Hy ltac:(simpl; lia))).
Defined.

Example OrderBy_test :
  evals (let* q := OrderByP insertionSort Z.ltb lastDigit (Some IntLessThanFunc)
                            (FromItems [13; 42; 21; 30; 7]) in
         ToSlice q) w0
        (Ok [30; 21; 42; 13; 7] (mkWorld [Some [30; 21; 42; 13; 7]] tt)).
Proof. eval_compute 40%nat. Qed.


(** ** concat.go: a panic of the key selector *)

Section OrderByPanic.
Context {T U : Type}.
Local Abbreviation M := (M T U).
Local Abbreviation World := (World T U).
Local Abbreviation Sequence := (@Sequence T U).

(** X29.  When the key selector panics on an item during the first
    iteration of an [OrderByPD] sequence, [d.items] already holds the items
    of the source, unsorted: the iteration ends with that panic, and every
    later iteration of the same sequence yields the source's items in source
    order, calling neither the source nor the selector nor [sort.Sort]. *)
Theorem OrderByPD_selector_panic_leaves_unsorted (sort_Sort : nat -> sorter)
    (s : Sequence T) (keySelector : T -> M T) (key : T -> T)
    (cmp : T -> T -> bool) (reverse : bool) (c : nat)
    w (l1 : list T) (x : T) (l2 : list T) w1 e :
  cells w !! c = Some None ->
  Yields s w (l1 ++ x :: l2) w1 ->
  (c < length (cells w1))%nat ->
  (forall y w, y ∈ l1 -> evals (keySelector y) w (Ok (key y) w)) ->
  (forall w, evals (keySelector x) w (Panic e w)) ->
  let q := FromSequenceFunction (OrderByPD_func sort_Sort keySelector cmp reverse c s) in
  let w2 := setSlice c (l1 ++ x :: l2) w1 in
  evals (ToSlice q) w (Panic e w2) /\
  Yields q w2 (l1 ++ x :: l2) w2 /\
  evals (ToSlice q) w2 (Ok (l1 ++ x :: l2) w2).
Proof.
  intros Hc Hy Hlen Hkey Hx q w2. split.
  - unfold ToSlice. eapply evals_bind.
    { simpl. unfold functionSequence_Iterator. eval_steps. }
    apply evals_loop_panic. apply evals_bind_panic.
    simpl. unfold functionIterator_Next. apply evals_bind_panic. simpl.
    eapply evals_bind; [by apply evals_readSlice|]. simpl.
    apply evals_bind_panic.
    eapply evals_bind; [by apply Yields_ToSlice|].
    eapply evals_bind; [apply evals_writeSlice|].
    apply evals_bind_panic. by apply selectKeys_panic with (key := key).
  - assert (Yields q w2 (l1 ++ x :: l2) w2) as Hq.
    { assert (cells w2 !! c = Some (Some (l1 ++ x :: l2))) as Hc2
        by by apply cells_setSlice.
      destruct (materialize_replay
                  (let* v := ToSlice s in
                   let* _ := writeSlice c v in
                   let* keys := selectKeys keySelector v in
                   match sort_orderByData sort_Sort reverse (mkOrderByData keys v cmp) with
                   | Some d' => let* _ := writeSlice c (ob_items d') in ret (ob_items d')
                   | None => panic "runtime error: index out of range"
                   end)
                  c w2 _ (length (l1 ++ x :: l2)) 0 Hc2) as [index' Hr]; [lia|].
      eapply Calls_Yields; [apply evals_ret|exact Hr]. }
    split; [exact Hq|]. by apply Yields_ToSlice.
Qed.
End OrderByPanic.


Lemma OrderByPD_selector_panic_leaves_unsorted_witness :
  cells twoNil !! 0%nat = Some None /\
  Yields (FromItems [4; 0; 2]) twoNil ([4] ++ 0 :: [2]) twoNil /\
  (forall y (w : World Z unit), y ∈ [4] -> evals (reciprocalKey y) w (Ok (Z.quot 100 y) w)) /\
  (forall w : World Z unit, evals (reciprocalKey 0) w (Panic "division by zero" w)) /\
  let q := FromSequenceFunction
             (OrderByPD_func insertionSort reciprocalKey IntLessThanFunc false 0
                             (FromItems [4; 0; 2])) in
  evals (ToSlice q) twoNil (Panic "division by zero" (setSlice 0 [4; 0; 2] twoNil)) /\
  Yields q (setSlice 0 [4; 0; 2] twoNil) [4; 0; 2] (setSlice 0 [4; 0; 2] twoNil) /\
  evals (ToSlice q) (setSlice 0 [4; 0; 2] twoNil)
        (Ok [4; 0; 2] (setSlice 0 [4; 0; 2] twoNil)).
Proof.
  pose proof (TSequence_Yields (U:=unit) [4; 0; 2] twoNil) as Hy.
  assert (forall y (w : World Z unit), y ∈ [4] ->
            evals (reciprocalKey y) w (Ok (Z.quot 100 y) w)) as Hkey.
  { intros y w Hin. apply list_elem_of_singleton in Hin as ->. apply evals_ret. }
  assert (forall w : World Z unit,
            evals (reciprocalKey 0) w (Panic "division by zero" w)) as Hx.
  { intros w. apply evals_panic. }
  split; [reflexivity|]. split; [exact Hy|]. split; [exact Hkey|]. split; [exact Hx|].
  exact (OrderByPD_selector_panic_leaves_unsorted insertionSort (FromItems [4; 0; 2])
           reciprocalKey (fun y => Z.quot 100 y) IntLessThanFunc false 0
           twoNil [4] 0 [2] twoNil "division by zero"
           eq_refl Hy ltac:(simpl; lia) Hkey Hx).
Defined.


(** ** aggregate.go: MergeP on sorted sequences *)

Section MergeProofs.
Context {T U : Type}.
Local Abbreviation M := (M T U).
Local Abbreviation World := (World T U).
Local Abbreviation Sequence := (@Sequence T U).
Implicit Types w : World.

Lemma MergeAt_Next N (s : Sequence T) i l i' :
  PureRuns N s i l i' ->
  exists ln i1, (forall w, evals (Next s i) w (Ok (ln, i1) w)) /\ MergeAt N s i1 ln l.
Proof.
  intros Hr. pose proof (PureRuns_evals N s i l i' Hr) as He.
  destruct l as [|x l].
  - by exists false, i'.
  - destruct He as (i1 & Hn & Hc & Hr'). exists true, i1. split; [done|].
    split; [done|]. split; [done|]. by exists i'.
Qed.

Lemma mergeList_nil_nil cmp lo ro bo : mergeList (T:=T) cmp lo ro bo [] [] = [].
Proof. done. Qed.

Lemma mergeList_nil_cons cmp lo ro bo (rv : T) r' :
  mergeList cmp lo ro bo [] (rv :: r')
  = if bool_decide (is_Some ro)
    then emitted (applyHandler1 ro rv) (mergeList cmp lo ro bo [] r')
    else [].
Proof. done. Qed.

Lemma mergeList_cons_nil cmp lo ro bo (lv : T) l' :
  mergeList cmp lo ro bo (lv :: l') []
  = if bool_decide (is_Some lo)
    then emitted (applyHandler1 lo lv) (mergeList cmp lo ro bo l' [])
    else [].
Proof. done. Qed.

Lemma mergeList_cons_cons cmp lo ro bo (lv : T) l' rv r' :
  mergeList cmp lo ro bo (lv :: l') (rv :: r')
  = if cmp lv rv then emitted (applyHandler1 lo lv) (mergeList cmp lo ro bo l' (rv :: r'))
    else if cmp rv lv
         then emitted (applyHandler1 ro rv) (mergeList cmp lo ro bo (lv :: l') r')
         else emitted (applyHandler2 bo lv rv) (mergeList cmp lo ro bo l' r').
Proof. done. Qed.

Lemma handle1_pure (lo : option (T -> option T)) v w :
  evals (handle1 (pureHandler1 <$> lo) v) w (Ok (applyHandler1 lo v) w).
Proof. destruct lo; apply evals_ret. Qed.

Lemma handle2_pure (bo : option (T -> T -> option T)) a b w :
  evals (handle2 (pureHandler2 <$> bo) a b) w (Ok (applyHandler2 bo a b) w).
Proof. destruct bo; apply evals_ret. Qed.

Lemma merge_emit_Calls (s rs : Sequence T) cr body (r : option T)
    (env env1 env' : mergeEnv s rs) w rest :
  (forall o, evals (merge_emit r env1) w o -> evals (body env) w o) ->
  Calls (mkSequenceFunc cr (fun env => loop body env)) env1 w rest env' w ->
  Calls (mkSequenceFunc cr (fun env => loop body env)) env w (emitted r rest) env' w.
Proof.
  intros Hb Hc. destruct r as [nv|]; simpl.
  - eapply Calls_cons; [|exact Hc]. simpl. apply evals_loop_break.
    apply Hb. apply evals_ret.
  - eapply Calls_loop_continue; [|exact Hc]. apply Hb. apply evals_ret.
Qed.

(** The closure of [MergeP] with handlers that have no effects, on sources
    whose iteration has none, returns [mergeList] of what the two sides
    still hold. *)
Lemma merge_Calls N (s rs : Sequence T) cr (cmp : T -> T -> bool)
    (lo ro : option (T -> option T)) (bo : option (T -> T -> option T)) w l :
  forall r li ln ri rn,
    MergeAt N s li ln l -> MergeAt N rs ri rn r ->
    exists env',
      Calls (mkSequenceFunc cr
               (fun env => loop (merge_body cmp (pureHandler1 <$> lo)
                                            (pureHandler1 <$> ro)
                                            (pureHandler2 <$> bo)) env))
            (mkMergeEnv li ri ln rn) w (mergeList cmp lo ro bo l r) env' w.
Proof.
  induction l as [|lv l IHl]; intros r; induction r as [|rv r IHr];
    intros li ln ri rn Hl Hr.
  - simpl in Hl, Hr. subst. eexists. apply Calls_nil. simpl.
    apply evals_loop_break. unfold merge_body. simpl. apply evals_ret.
  - simpl in Hl. subst ln. destruct Hr as (-> & Hcr & ri' & Hrr).
    rewrite mergeList_nil_cons.
    destruct ro as [h|]; simpl bool_decide.
    + destruct (MergeAt_Next N rs ri r ri' Hrr) as (rn' & ri1 & Hn & Hr').
      destruct (IHr li false ri1 rn' eq_refl Hr') as [env' IH].
      exists env'. eapply merge_emit_Calls; [|exact IH].
      intros o Ho. unfold merge_body. simpl.
      eapply evals_bind; [apply Hcr|].
      eapply evals_bind; [apply (handle1_pure (Some h))|].
      eapply evals_bind; [apply Hn|]. exact Ho.
    + eexists. apply Calls_nil. simpl. apply evals_loop_break.
      unfold merge_body. simpl. apply evals_ret.
  - simpl in Hr. subst rn. destruct Hl as (-> & Hcl & li' & Hrl).
    rewrite mergeList_cons_nil.
    destruct lo as [h|]; simpl bool_decide.
    + destruct (MergeAt_Next N s li l li' Hrl) as (ln' & li1 & Hn & Hl').
      destruct (IHl [] li1 ln' ri false Hl' eq_refl) as [env' IH].
      exists env'. eapply merge_emit_Calls; [|exact IH].
      intros o Ho. unfold merge_body. simpl.
      eapply evals_bind; [apply Hcl|].
      eapply evals_bind; [apply (handle1_pure (Some h))|].
      eapply evals_bind; [apply Hn|]. exact Ho.
    + eexists. apply Calls_nil. simpl. apply evals_loop_break.
      unfold merge_body. simpl. apply evals_ret.
  - pose proof Hl as (-> & Hcl & li' & Hrl). pose proof Hr as (-> & Hcr & ri' & Hrr).
    rewrite mergeList_cons_cons.
    destruct (MergeAt_Next N s li l li' Hrl) as (ln' & li1 & Hnl & Hl').
    destruct (MergeAt_Next N rs ri r ri' Hrr) as (rn' & ri1 & Hnr & Hr').
    destruct (cmp lv rv) eqn:Hlt; [|destruct (cmp rv lv) eqn:Hgt].
    + destruct (IHl (rv :: r) li1 ln' ri true Hl' Hr) as [env' IH].
      exists env'. eapply merge_emit_Calls; [|exact IH].
      intros o Ho. unfold merge_body. simpl.
      eapply evals_bind; [apply Hcl|]. eapply evals_bind; [apply Hcr|].
      rewrite Hlt. eapply evals_bind; [apply Hnl|].
      eapply evals_bind; [apply handle1_pure|]. exact Ho.
    + destruct (IHr li true ri1 rn' Hl Hr') as [env' IH].
      exists env'. eapply merge_emit_Calls; [|exact IH].
      intros o Ho. unfold merge_body. simpl.
      eapply evals_bind; [apply Hcl|]. eapply evals_bind; [apply Hcr|].
      rewrite Hlt, Hgt. eapply evals_bind; [apply Hnr|].
      eapply evals_bind; [apply handle1_pure|]. exact Ho.
    + destruct (IHl r li1 ln' ri1 rn' Hl' Hr') as [env' IH].
      exists env'. eapply merge_emit_Calls; [|exact IH].
      intros o Ho. unfold merge_body. simpl.
      eapply evals_bind; [apply Hcl|]. eapply evals_bind; [apply Hcr|].
      rewrite Hlt, Hgt. eapply evals_bind; [apply Hnl|].
      eapply evals_bind; [apply Hnr|].
      eapply evals_bind; [apply handle2_pure|]. exact Ho.
Qed.

(** [MergeP] with such handlers on such sources yields [mergeList] of the
    items of the two sources. *)
Lemma MergeP_Yields_mergeList N (GenericLessThan : T -> T -> bool)
    (s rs : Sequence T) (cmp : option (T -> T -> bool))
    (lo ro : option (T -> option T)) (bo : option (T -> T -> option T)) l r w :
  PureYields N s l -> PureYields N rs r ->
  Yields (MergeP GenericLessThan s rs cmp (pureHandler1 <$> lo) (pureHandler1 <$> ro)
                 (pureHandler2 <$> bo)) w
         (mergeList (default GenericLessThan cmp) lo ro bo l r) w.
Proof.
  intros (i0 & i' & Hi & Hrl) (j0 & j' & Hj & Hrr).
  destruct (MergeAt_Next N s i0 l i' Hrl) as (ln & li & Hnl & Hl).
  destruct (MergeAt_Next N rs j0 r j' Hrr) as (rn & ri & Hnr & Hr).
  unfold MergeP, FromSequenceFunction.
  edestruct (merge_Calls N s rs) as [env' Hc]; [exact Hl|exact Hr|].
  eapply Calls_Yields; [|destruct cmp; exact Hc].
  simpl.
  eapply evals_bind; [exists N; intros n Hle; by apply Hi|].
  eapply evals_bind; [exists N; intros n Hle; by apply Hj|].
  eapply evals_bind; [apply Hnl|]. eapply evals_bind; [apply Hnr|].
  apply evals_ret.
Qed.
End MergeProofs.


Section MergeSorted.
Context {T : Type}.
Variable lt : T -> T -> bool.
Hypothesis Hlt : StrictWeakOrder lt.

Lemma StrictlySorted_cons_inv x (l : list T) :
  StrictlySorted lt (x :: l) ->
  StrictlySorted lt l /\ Forall (fun y => lt x y = true) l.
Proof.
  intros Hs. apply Sorted_StronglySorted in Hs.
  - inversion Hs; subst. split; [by apply StronglySorted_Sorted|done].
  - intros a b c. apply (swo_trans lt Hlt).
Qed.

Lemma equivalent_lt_l (a b : T) : lt a b = true -> equivalent lt a b = false.
Proof. intros H. unfold equivalent. by rewrite H. Qed.

Lemma equivalent_lt_r (a b : T) : lt b a = true -> equivalent lt a b = false.
Proof. intros H. unfold equivalent. rewrite H. by destruct (lt a b). Qed.

Lemma lt_equiv_l (a b x : T) :
  lt a b = false -> lt b a = false -> lt a x = true -> lt b x = true.
Proof.
  intros Hab Hba Hax. destruct (lt b x) eqn:Hbx; [done|].
  by rewrite (swo_negtrans lt a b x Hlt Hab Hbx) in Hax.
Qed.

Lemma filter_ext_elem_of (P Q : T -> Prop) `{!forall x, Decision (P x)}
    `{!forall x, Decision (Q x)} (l : list T) :
  (forall x, x ∈ l -> (P x <-> Q x)) -> filter P l = filter Q l.
Proof.
  induction l as [|x l IH]; intros Hext; [done|].
  assert (filter P l = filter Q l) as IH' by (apply IH; intros; apply Hext; by right).
  destruct (decide (P x)) as [HP|HP].
  - rewrite !filter_cons_True; [by rewrite IH'| |done]. apply Hext; [left|done].
  - rewrite !filter_cons_False; [done| |done]. intros HQ. apply HP, Hext; [left|done].
Qed.

Lemma filter_none (P : T -> Prop) `{!forall x, Decision (P x)} (l : list T) :
  (forall x, x ∈ l -> ~ P x) -> filter P l = [].
Proof.
  induction l as [|x l IH]; intros Hno; [done|].
  rewrite filter_cons_False by (apply Hno; left). apply IH. intros; apply Hno; by right.
Qed.

(** Keeping what is only on the left: the difference. *)
Lemma mergeList_difference (l : list T) :
  forall r, StrictlySorted lt l -> StrictlySorted lt r ->
    mergeList lt (Some Some) None None l r
    = filter (fun x => Forall (fun y => equivalent lt x y = false) r) l.
Proof.
  induction l as [|lv l IHl]; intros r; induction r as [|rv r IHr]; intros Hsl Hsr.
  - done.
  - done.
  - rewrite mergeList_cons_nil. simpl.
    apply StrictlySorted_cons_inv in Hsl as [Hsl _].
    rewrite filter_cons_True by constructor. f_equal. by apply IHl.
  - rewrite mergeList_cons_cons.
    destruct (StrictlySorted_cons_inv _ _ Hsl) as [Hsl' Hl].
    destruct (StrictlySorted_cons_inv _ _ Hsr) as [Hsr' Hr].
    rewrite Forall_forall in Hl, Hr.
    destruct (lt lv rv) eqn:Hlr; [|destruct (lt rv lv) eqn:Hrl];
      cbn [emitted applyHandler1 applyHandler2].
    + rewrite filter_cons_True.
      * f_equal. by apply IHl.
      * constructor; [by apply equivalent_lt_l|].
        apply Forall_forall. intros y Hy. apply equivalent_lt_l.
        apply (swo_trans lt Hlt lv rv y Hlr). by apply Hr.
    + rewrite IHr by done. apply filter_ext_elem_of. intros x Hx.
      rewrite Forall_cons. split; [|tauto]. intros HF. split; [|done].
      apply equivalent_lt_r. apply elem_of_cons in Hx as [->|Hx]; [done|].
      apply (swo_trans lt Hlt rv lv x Hrl). by apply Hl.
    + rewrite filter_cons_False.
      * rewrite IHl by done. apply filter_ext_elem_of. intros x Hx.
        rewrite Forall_cons. split; [|tauto]. intros HF. split; [|done].
        apply equivalent_lt_r. apply (lt_equiv_l lv rv x Hlr Hrl). by apply Hl.
      * intros HF. apply Forall_cons in HF as [HF _].
        unfold equivalent in HF. by rewrite Hlr, Hrl in HF.
Qed.

(** Keeping the left one of what is on both sides: the intersection. *)
Lemma mergeList_intersection (l : list T) :
  forall r, StrictlySorted lt l -> StrictlySorted lt r ->
    mergeList lt None None (Some (fun a _ => Some a)) l r
    = filter (fun x => Exists (fun y => equivalent lt x y = true) r) l.
Proof.
  induction l as [|lv l IHl]; intros r; induction r as [|rv r IHr]; intros Hsl Hsr.
  - done.
  - done.
  - rewrite mergeList_cons_nil. simpl. symmetry. apply filter_none.
    intros x _ HE. by apply Exists_nil in HE.
  - rewrite mergeList_cons_cons.
    destruct (StrictlySorted_cons_inv _ _ Hsl) as [Hsl' Hl].
    destruct (StrictlySorted_cons_inv _ _ Hsr) as [Hsr' Hr].
    rewrite Forall_forall in Hl, Hr.
    destruct (lt lv rv) eqn:Hlr; [|destruct (lt rv lv) eqn:Hrl];
      cbn [emitted applyHandler1 applyHandler2].
    + rewrite filter_cons_False; [by apply IHl|].
      intros HE. apply Exists_exists in HE as (y & Hy & He).
      assert (lt lv y = true) as Hly.
      { apply elem_of_cons in Hy as [->|Hy]; [done|].
        apply (swo_trans lt Hlt lv rv y Hlr). by apply Hr. }
      by rewrite (equivalent_lt_l lv y Hly) in He.
    + rewrite IHr by done. apply filter_ext_elem_of. intros x Hx.
      rewrite Exists_cons. split; [tauto|]. intros [He|HE]; [|done].
      assert (lt rv x = true) as Hrx.
      { apply elem_of_cons in Hx as [->|Hx]; [done|].
        apply (swo_trans lt Hlt rv lv x Hrl). by apply Hl. }
      by rewrite (equivalent_lt_r x rv Hrx) in He.
    + rewrite filter_cons_True.
      * f_equal. rewrite IHl by done. apply filter_ext_elem_of. intros x Hx.
        rewrite Exists_cons. split; [tauto|]. intros [He|HE]; [|done].
        assert (lt rv x = true) as Hrx
          by (apply (lt_equiv_l lv rv x Hlr Hrl); by apply Hl).
        by rewrite (equivalent_lt_r x rv Hrx) in He.
      * apply Exists_cons. left. unfold equivalent. by rewrite Hlr, Hrl.
Qed.

Local Abbreviation union l r :=
  (mergeList lt (Some Some) (Some Some) (Some (fun a _ => Some a)) l r).

Lemma mergeList_union_nil_l (r : list T) : union [] r = r.
Proof.
  induction r as [|rv r IH]; [done|]. rewrite mergeList_nil_cons.
  rewrite bool_decide_eq_true_2 by done. cbn [emitted applyHandler1]. by rewrite IH.
Qed.

Lemma mergeList_union_nil_r (l : list T) : union l [] = l.
Proof.
  induction l as [|lv l IH]; [done|]. rewrite mergeList_cons_nil.
  rewrite bool_decide_eq_true_2 by done. cbn [emitted applyHandler1]. by rewrite IH.
Qed.

(** Keeping everything, and the left one of what is on both sides: the
    union. *)
Lemma mergeList_union_elem_of (l : list T) :
  forall r, StrictlySorted lt l -> StrictlySorted lt r ->
    forall x, x ∈ union l r <->
              x ∈ l \/ (x ∈ r /\ Forall (fun y => equivalent lt x y = false) l).
Proof.
  induction l as [|lv l IHl]; intros r; induction r as [|rv r IHr]; intros Hsl Hsr x.
  - split; [intros H; by apply elem_of_nil in H|].
    intros [H|[H _]]; by apply elem_of_nil in H.
  - rewrite mergeList_union_nil_l. split; [intros H; right; by split|].
    intros [H|[H _]]; [by apply elem_of_nil in H|done].
  - rewrite mergeList_union_nil_r. split; [by left|].
    intros [H|[H _]]; [done|by apply elem_of_nil in H].
  - rewrite mergeList_cons_cons.
    destruct (StrictlySorted_cons_inv _ _ Hsl) as [Hsl' Hl].
    destruct (StrictlySorted_cons_inv _ _ Hsr) as [Hsr' Hr].
    rewrite Forall_forall in Hl, Hr.
    destruct (lt lv rv) eqn:Hlr; [|destruct (lt rv lv) eqn:Hrl];
      cbn [emitted applyHandler1 applyHandler2].
    + rewrite elem_of_cons, (IHl (rv :: r) Hsl' Hsr x), !elem_of_cons, Forall_cons.
      split; [intros [->|[H|[H HF]]]|intros [[->|H]|[H [_ HF]]]]; try tauto.
      right. split; [done|]. split; [|done].
      apply equivalent_lt_r. destruct H as [->|H]; [done|].
      apply (swo_trans lt Hlt lv rv x Hlr). by apply Hr.
    + rewrite elem_of_cons, (IHr Hsl Hsr' x), !elem_of_cons.
      split; [intros [->|[H|[H HF]]]|intros [H|[[->|H] HF]]]; try tauto.
      right. split; [by left|]. constructor; [by apply equivalent_lt_l|].
      apply Forall_forall. intros y Hy. apply equivalent_lt_l.
      apply (swo_trans lt Hlt rv lv y Hrl). by apply Hl.
    + rewrite elem_of_cons, (IHl r Hsl' Hsr' x), !elem_of_cons, Forall_cons.
      split; [intros [->|[H|[H HF]]]|intros [[->|H]|[[->|H] [He HF]]]]; try tauto.
      * right. split; [by right|]. split; [|done].
        apply equivalent_lt_r.
        apply (lt_equiv_l rv lv x Hrl Hlr). by apply Hr.
      * unfold equivalent in He. by rewrite Hlr, Hrl in He.
Qed.

Lemma mergeList_union_sorted (l : list T) :
  forall r, StrictlySorted lt l -> StrictlySorted lt r -> StrictlySorted lt (union l r).
Proof.
  induction l as [|lv l IHl]; intros r; induction r as [|rv r IHr]; intros Hsl Hsr.
  - constructor.
  - by rewrite mergeList_union_nil_l.
  - by rewrite mergeList_union_nil_r.
  - rewrite mergeList_cons_cons.
    destruct (StrictlySorted_cons_inv _ _ Hsl) as [Hsl' Hl].
    destruct (StrictlySorted_cons_inv _ _ Hsr) as [Hsr' Hr].
    rewrite Forall_forall in Hl, Hr.
    assert (forall z u, StrictlySorted lt u -> (forall y, y ∈ u -> lt z y = true) ->
                        StrictlySorted lt (z :: u)) as Hcons.
    { intros z u Hu Hz. constructor; [done|].
      destruct u as [|y u]; constructor. apply Hz. left. }
    destruct (lt lv rv) eqn:Hlr; [|destruct (lt rv lv) eqn:Hrl];
      cbn [emitted applyHandler1 applyHandler2].
    + apply Hcons; [by apply IHl|]. intros y Hy.
      apply (mergeList_union_elem_of l (rv :: r) Hsl' Hsr) in Hy as [Hy|[Hy _]].
      * by apply Hl.
      * apply elem_of_cons in Hy as [->|Hy]; [done|].
        apply (swo_trans lt Hlt lv rv y Hlr). by apply Hr.
    + apply Hcons; [by apply IHr|]. intros y Hy.
      apply (mergeList_union_elem_of (lv :: l) r Hsl Hsr') in Hy as [Hy|[Hy _]].
      * apply elem_of_cons in Hy as [->|Hy]; [done|].
        apply (swo_trans lt Hlt rv lv y Hrl). by apply Hl.
      * by apply Hr.
    + apply Hcons; [by apply IHl|]. intros y Hy.
      apply (mergeList_union_elem_of l r Hsl' Hsr') in Hy as [Hy|[Hy _]].
      * by apply Hl.
      * apply (lt_equiv_l rv lv y Hrl Hlr). by apply Hr.
Qed.
End MergeSorted.


Section MergeSetOperations.
Context {T U : Type}.
Local Abbreviation M := (M T U).
Local Abbreviation World := (World T U).
Local Abbreviation Sequence := (@Sequence T U).

(** X30.  [MergeP] on two sequences that are sorted without equivalent
    items (each item less than the next, under a strict less-than):
    keeping only [leftOnly] yields the items of the left side equivalent to
    no item of the right side; keeping only [both], with [MergeKeepLeft],
    yields the items of the left side that have an equivalent on the right;
    keeping all three yields a list that is again sorted without
    equivalent items and holds the items of the left side and those items
    of the right side that have no equivalent on the left. *)
Theorem MergeP_set_operations N (GenericLessThan : T -> T -> bool)
    (s rs : Sequence T) (cmp : option (T -> T -> bool)) (l r : list T) (w : World) :
  StrictWeakOrder (default GenericLessThan cmp) ->
  PureYields N s l -> PureYields N rs r ->
  StrictlySorted (default GenericLessThan cmp) l ->
  StrictlySorted (default GenericLessThan cmp) r ->
  Yields (MergeP GenericLessThan s rs cmp (Some MergeKeep) None None) w
         (filter (fun x => Forall (fun y => equivalent (default GenericLessThan cmp) x y
                                            = false) r) l) w /\
  Yields (MergeP GenericLessThan s rs cmp None None (Some MergeKeepLeft)) w
         (filter (fun x => Exists (fun y => equivalent (default GenericLessThan cmp) x y
                                            = true) r) l) w /\
  exists u,
    Yields (MergeP GenericLessThan s rs cmp (Some MergeKeep) (Some MergeKeep)
                   (Some MergeKeepLeft)) w u w /\
    StrictlySorted (default GenericLessThan cmp) u /\
    forall x, x ∈ u <->
              x ∈ l \/ (x ∈ r /\ Forall (fun y => equivalent (default GenericLessThan cmp) x y
                                                  = false) l).
Proof.
  intros Hlt Hl Hr Hsl Hsr.
  pose proof (fun lo ro bo =>
                MergeP_Yields_mergeList N GenericLessThan s rs cmp lo ro bo l r w Hl Hr)
    as Hm.
  split; [|split].
  - rewrite <- (mergeList_difference _ Hlt l r Hsl Hsr).
    exact (Hm (Some Some) None None).
  - rewrite <- (mergeList_intersection _ Hlt l r Hsl Hsr).
    exact (Hm None None (Some (fun a _ => Some a))).
  - eexists. split; [exact (Hm (Some Some) (Some Some) (Some (fun a _ => Some a)))|].
    split.
    + by apply mergeList_union_sorted.
    + by apply mergeList_union_elem_of.
Qed.
End MergeSetOperations.

Lemma MergeP_set_operations_witness :
  StrictWeakOrder (default Z.ltb (Some IntLessThanFunc)) /\
  PureYields (U:=unit) 0 (FromItems [1; 3; 5; 6; 7; 10]) [1; 3; 5; 6; 7; 10] /\
  PureYields (U:=unit) 0 (FromItems [2; 4; 5; 7; 9]) [2; 4; 5; 7; 9] /\
  StrictlySorted IntLessThanFunc [1; 3; 5; 6; 7; 10] /\
  StrictlySorted IntLessThanFunc [2; 4; 5; 7; 9] /\
  Yields (MergeP Z.ltb (FromItems [1; 3; 5; 6; 7; 10]) (FromItems [2; 4; 5; 7; 9])
                 (Some IntLessThanFunc) (Some MergeKeep) None None) w0
         [1; 3; 6; 10] w0 /\
  Yields (MergeP Z.ltb (FromItems [1; 3; 5; 6; 7; 10]) (FromItems [2; 4; 5; 7; 9])
                 (Some IntLessThanFunc) None None (Some MergeKeepLeft)) w0
         [5; 7] w0 /\
  exists u,
    Yields (MergeP Z.ltb (FromItems [1; 3; 5; 6; 7; 10]) (FromItems [2; 4; 5; 7; 9])
                   (Some IntLessThanFunc) (Some MergeKeep) (Some MergeKeep)
                   (Some MergeKeepLeft)) w0 u w0 /\
    StrictlySorted IntLessThanFunc u /\
    forall x, x ∈ u <->
              x ∈ [1; 3; 5; 6; 7; 10] \/
              (x ∈ [2; 4; 5; 7; 9] /\
               Forall (fun y => equivalent IntLessThanFunc x y = false)
                      [1; 3; 5; 6; 7; 10]).
Proof.
  pose proof IntLessThanFunc_StrictWeakOrder as Hlt.
  pose proof (TSequence_PureYields (U:=unit) [1; 3; 5; 6; 7; 10]) as Hl.
  pose proof (TSequence_PureYields (U:=unit) [2; 4; 5; 7; 9]) as Hr.
  assert (StrictlySorted IntLessThanFunc [1; 3; 5; 6; 7; 10]) as Hsl
    by (repeat constructor).
  assert (StrictlySorted IntLessThanFunc [2; 4; 5; 7; 9]) as Hsr
    by (repeat constructor).
  split; [exact Hlt|]. split; [exact Hl|]. split; [exact Hr|].
  split; [exact Hsl|]. split; [exact Hsr|].
  pose proof (MergeP_set_operations 0 Z.ltb (FromItems [1; 3; 5; 6; 7; 10])
                (FromItems [2; 4; 5; 7; 9]) (Some IntLessThanFunc)
                [1; 3; 5; 6; 7; 10] [2; 4; 5; 7; 9] w0 Hlt Hl Hr Hsl Hsr)
    as (Hd & Hi & Hu).
  split; [exact Hd|]. split; [exact Hi|exact Hu].
Defined.
